(** * omni-explorer: the virtual-path resolver and file-operation executor

    A shallow embedding of [electron/main.mjs] (the Electron main-process
    module) and a verification of the properties its specification states.

    JavaScript strings are sequences of UTF-16 code units; they are modelled
    as [list N].  The Node.js runtime the module calls into ([node:path],
    [node:os], [node:fs/promises], [node:crypto], the string built-ins) is
    not part of the repository: the path and filesystem API is an interface
    ([NodePath], [NodeFs]) the program is written against, and a reference
    implementation of it (a Windows-style path module and an in-memory
    filesystem) serves to run the program on concrete inputs. *)

From Stdlib Require Import ZArith NArith Lia.
From Stdlib Require Import Strings.String Strings.Ascii.
From Stdlib Require Import Sorting.Sorted Sorting.Permutation.
From stdpp Require Import base option list gmap.

Local Open Scope N_scope.

(** ** JavaScript strings *)

Abbreviation jsstring := (list N).

(** A string literal of the source, as code units. *)
Fixpoint js (s : string) : jsstring :=
  match s with
  | EmptyString => []
  | String a r => N_of_ascii a :: js r
  end.
Arguments js s%_string.

Definition SLASH : N := 47.
Definition BACKSLASH : N := 92.

(** [a === b] on strings. *)
Fixpoint jseq (a b : jsstring) : bool :=
  match a, b with
  | [], [] => true
  | x :: a', y :: b' => (x =? y) && jseq a' b'
  | _, _ => false
  end.

(** [s.startsWith(p)] *)
Fixpoint startsWith (p s : jsstring) : bool :=
  match p, s with
  | [], _ => true
  | x :: p', y :: s' => (x =? y) && startsWith p' s'
  | _ :: _, [] => false
  end.

(** [s.endsWith(p)] *)
Definition endsWith (p s : jsstring) : bool :=
  startsWith (rev p) (rev s).

(** [s.slice(n)] for [0 <= n] and [s.slice(0, -1)]. *)
Definition sliceFrom (n : nat) (s : jsstring) : jsstring := drop n s.
Definition sliceInit (s : jsstring) : jsstring := removelast s.

(** [s.split(c)] for a one-unit separator: never the empty list. *)
Fixpoint split (c : N) (s : jsstring) : list jsstring :=
  match s with
  | [] => [[]]
  | x :: r =>
      if x =? c then [] :: split c r
      else match split c r with
           | h :: t => (x :: h) :: t
           | [] => [[x]]
           end
  end.

(** [s.length === 0], for a string or an array. *)
Definition isEmpty {A : Type} (s : list A) : bool :=
  match s with [] => true | _ => false end.

(** [xs.filter(Boolean)] on an array of strings: the empty string is the
    only falsy string. *)
Definition filterBoolean (xs : list jsstring) : list jsstring :=
  List.filter (fun s => negb (isEmpty s)) xs.

(** [items.filter(Boolean)] on an array of objects and [null]s. *)
Fixpoint filterNulls {A : Type} (items : list (option A)) : list A :=
  match items with
  | [] => []
  | Some a :: r => a :: filterNulls r
  | None :: r => filterNulls r
  end.

(** The line terminators, which [.] of a regular expression without the
    [s] flag does not match. *)
Definition isLineTerminator (c : N) : bool :=
  (c =? 10) || (c =? 13) || (c =? 8232) || (c =? 8233).

Definition isAsciiUpper (c : N) : bool := (65 <=? c) && (c <=? 90).
Definition isAsciiLower (c : N) : bool := (97 <=? c) && (c <=? 122).

(** ** The runtime interface: [node:path], [node:os], [process.env] and the
    locale-sensitive string built-ins *)

Class NodePath := {
  path_sep : N;                                     (* path.sep *)
  path_join : jsstring -> list jsstring -> jsstring; (* path.join(a, ...rest) *)
  path_basename : jsstring -> jsstring;
  path_dirname : jsstring -> jsstring;
  path_resolve : jsstring -> jsstring;
  path_extname : jsstring -> jsstring;
  os_homedir : jsstring;
  env_SystemDrive : option jsstring;                (* process.env.SystemDrive *)
  toLowerCase : jsstring -> jsstring;
  localeCompare : jsstring -> jsstring -> Z
}.

(** ** Results and errors *)

(** [error.code], [error.message] of an error a Node API call rejects with. *)
Record NodeError := { code : jsstring; message : jsstring }.

(** The errors the module throws itself, one constructor per [throw], and
    the rejection of an awaited Node call, which propagates as it is. *)
Inductive error :=
| UnsupportedScheme (virtualPath : jsstring)
    (* `Unsupported scheme in path: ${virtualPath}` *)
| UnknownDrive (displayName : jsstring)
    (* `Unknown drive mapping for ${displayName}` *)
| UnsupportedLocalPath (virtualPath : jsstring)
    (* `Unsupported local path: ${virtualPath}` *)
| CannotListFile
    (* 'Cannot list contents of a file path' *)
| NoSourceItems
    (* 'No source items provided.' *)
| DestinationNotDirectory
    (* 'Destination must be a directory.' *)
| UnsupportedSource (sourceVirtual : jsstring)
    (* `Unsupported source path: ${sourceVirtual}` *)
| SelfContainment
    (* 'Cannot copy or move a directory into itself.' *)
| NoTargets
    (* 'No targets provided.' *)
| UnsupportedTarget (target : jsstring)
    (* `Unsupported target path: ${target}` *)
| FsError (e : NodeError).

Inductive result (A : Type) :=
| Ok (a : A)
| Err (e : error).
Arguments Ok {A} a.
Arguments Err {A} e.

(** What [resolveLocalVirtualPath] returns: [{type: 'root'}],
    [{type: 'drives'}] or [{type: 'entry', fsPath, isDirectory, baseVirtual}]. *)
Inductive Resolved :=
| Root
| Drives
| Entry (fsPath : jsstring) (isDirectory : bool) (baseVirtual : jsstring).

Record SpecialFolder := {
  label : jsstring;
  virtual : jsstring;
  fsPath : jsstring
}.

(** ** The resolver *)

Section Resolver.
Context `{NP : NodePath}.

(** [(process.env.SystemDrive || 'C:').replace(/\\$/, '')] *)
Definition systemDrive : jsstring :=
  let d := match env_SystemDrive with
           | Some (c :: r) => c :: r
           | _ => js "C:"
           end in
  if endsWith [BACKSLASH] d then sliceInit d else d.

Definition systemDriveDisplayName : jsstring :=
  js "Local Disk (" ++ systemDrive ++ js ")".

(** The initial contents of the module-level [driveAliasMap]. *)
Definition initialAliases : gmap jsstring jsstring :=
  {[ systemDriveDisplayName := systemDrive ]}.

Definition specialFolders : list SpecialFolder :=
  [ {| label := js "Desktop"; virtual := js "local://Desktop/";
       fsPath := path_join os_homedir [js "Desktop"] |};
    {| label := js "Documents"; virtual := js "local://Documents/";
       fsPath := path_join os_homedir [js "Documents"] |};
    {| label := js "Downloads"; virtual := js "local://Downloads/";
       fsPath := path_join os_homedir [js "Downloads"] |};
    {| label := js "Music"; virtual := js "local://Music/";
       fsPath := path_join os_homedir [js "Music"] |};
    {| label := js "Pictures"; virtual := js "local://Pictures/";
       fsPath := path_join os_homedir [js "Pictures"] |};
    {| label := js "Videos"; virtual := js "local://Videos/";
       fsPath := path_join os_homedir [js "Videos"] |} ].

Definition normalizeVirtualFolder (v : jsstring) : jsstring :=
  if endsWith [SLASH] v then v else v ++ [SLASH].

(** [virtualPath.replace(/\\+/g, '/')]: every maximal run of backslashes
    becomes one slash.  [inRun] tells that the previous unit was a
    backslash of the run being replaced. *)
Fixpoint sanitizeFrom (inRun : bool) (s : jsstring) : jsstring :=
  match s with
  | [] => []
  | c :: r =>
      if c =? BACKSLASH
      then (if inRun then sanitizeFrom true r else SLASH :: sanitizeFrom true r)
      else c :: sanitizeFrom false r
  end.

Definition sanitizeVirtualPath (virtualPath : jsstring) : jsstring :=
  sanitizeFrom false virtualPath.

(** [displayName.match(/\(([A-Z]):\)/i)]: the leftmost ["(" letter ":)"],
    returning the captured letter. *)
Fixpoint matchDriveLetter (s : jsstring) : option N :=
  match s with
  | [] => None
  | c0 :: r =>
      match r with
      | c :: c2 :: c3 :: _ =>
          if (c0 =? 40) && (isAsciiUpper c || isAsciiLower c)
             && (c2 =? 58) && (c3 =? 41)
          then Some c
          else matchDriveLetter r
      | _ => None
      end
  end.

(** [toUpperCase] of one ASCII letter. *)
Definition upperLetter (c : N) : N :=
  if isAsciiLower c then c - 32 else c.

Definition ensureDriveLetter (displayName : jsstring)
    (aliases : gmap jsstring jsstring)
  : option jsstring * gmap jsstring jsstring :=
  match aliases !! displayName with
  | Some d => (Some d, aliases)
  | None =>
      match matchDriveLetter displayName with
      | Some c =>
          let letter := [upperLetter c; 58] in
          (Some letter, <[displayName := letter]> aliases)
      | None => (None, aliases)
      end
  end.

(** The body of the [for (const folder of specialFolders)] loop: [Some] is
    an early [return], [None] falls through to the next folder. *)
Definition matchSpecialFolder (sanitized : jsstring) (asDirectory : bool)
    (folder : SpecialFolder) : option Resolved :=
  let base := normalizeVirtualFolder (virtual folder) in
  if jseq sanitized base || jseq sanitized (sliceInit base)
  then Some (Entry (fsPath folder) true base)
  else if startsWith base sanitized
  then
    let relative := sliceFrom (length base) sanitized in
    let segments := filterBoolean (split SLASH relative) in
    Some (Entry (path_join (fsPath folder) segments)
                (asDirectory || isEmpty segments) base)
  else None.

Fixpoint matchSpecialFolders (sanitized : jsstring) (asDirectory : bool)
    (folders : list SpecialFolder) : option Resolved :=
  match folders with
  | [] => None
  | folder :: rest =>
      match matchSpecialFolder sanitized asDirectory folder with
      | Some r => Some r
      | None => matchSpecialFolders sanitized asDirectory rest
      end
  end.

(** [span] of the units that are not a slash: the greedy [[^/]+]. *)
Fixpoint spanNotSlash (s : jsstring) : jsstring * jsstring :=
  match s with
  | [] => ([], [])
  | c :: r =>
      if c =? SLASH then ([], s)
      else let '(a, b) := spanNotSlash r in (c :: a, b)
  end.

(** The regular expression of the drive pattern, matched against
    [sanitized]: the anchored prefix [local://This PC/], a first group of
    one or more units other than a slash, an optional slash, and a second
    group of any units but line terminators up to the end of the input.
    The first group is greedy and cannot cross a slash; the second must
    reach the end of the input, so a line terminator after the first slash
    makes the match fail whatever the backtracking.  Returns the two
    groups. *)
Definition matchDrivePath (sanitized : jsstring) : option (jsstring * jsstring) :=
  let pre := js "local://This PC/" in
  if startsWith pre sanitized then
    let '(displayName, rest) := spanNotSlash (sliceFrom (length pre) sanitized) in
    if isEmpty displayName then None
    else
      let remainder := match rest with
                       | c :: t => if c =? SLASH then t else rest
                       | [] => []
                       end in
      if existsb isLineTerminator remainder then None
      else Some (displayName, remainder)
  else None.

Definition resolveLocalVirtualPath (virtualPath : jsstring)
    (aliases : gmap jsstring jsstring)
  : result Resolved * gmap jsstring jsstring :=
  let sanitized := sanitizeVirtualPath virtualPath in
  if negb (startsWith (js "local://") sanitized)
  then (Err (UnsupportedScheme virtualPath), aliases)
  else if jseq sanitized (js "local://") then (Ok Root, aliases)
  else if jseq sanitized (js "local://This PC/")
          || jseq sanitized (js "local://This PC")
  then (Ok Drives, aliases)
  else
    let asDirectory := endsWith [SLASH] sanitized in
    match matchSpecialFolders sanitized asDirectory specialFolders with
    | Some r => (Ok r, aliases)
    | None =>
        match matchDrivePath sanitized with
        | Some (displayName, remainder) =>
            match ensureDriveLetter displayName aliases with
            | (Some (c :: l), aliases') =>
                let driveLetter := c :: l in
                let segments := filterBoolean (split SLASH remainder) in
                (Ok (Entry (path_join (driveLetter ++ [path_sep]) segments)
                           (asDirectory || isEmpty segments)
                           (js "local://This PC/" ++ displayName ++ [SLASH])),
                 aliases')
            | (_, aliases') => (Err (UnknownDrive displayName), aliases')
            end
        | None => (Err (UnsupportedLocalPath virtualPath), aliases)
        end
    end.

End Resolver.

(** ** Identifiers: SHA-1 of the UTF-8 bytes, in hexadecimal

    [crypto.createHash('sha1').update(virtualPath).digest('hex')].  The hash
    is the Node runtime's; it is written out here (FIPS 180-4) so that
    identifiers compute. *)

Module Sha1.

Definition w32 (x : N) : N := x mod 2 ^ 32.
Definition rotl (n x : N) : N :=
  w32 (N.lor (N.shiftl x n) (N.shiftr x (32 - n))).
Definition not32 (x : N) : N := N.lxor x 4294967295.

(** The [n] low bytes of [v], most significant first. *)
Definition beBytes (n : nat) (v : N) : list N :=
  List.map (fun i => (v / 256 ^ N.of_nat i) mod 256) (rev (seq 0 n)).

(** The message followed by the bit [1], zeros up to 56 modulo 64, and the
    bit length on eight bytes. *)
Definition pad (msg : list N) : list N :=
  let len := length msg in
  let zeros := ((64 - ((len + 9) mod 64)) mod 64)%nat in
  msg ++ [128] ++ repeat 0 zeros ++ beBytes 8 (8 * N.of_nat len).

(** The number a byte sequence writes, most significant byte first. *)
Fixpoint beWord (bs : list N) : N :=
  match bs with
  | [] => 0
  | b :: r => b * 256 ^ N.of_nat (length r) + beWord r
  end.

(** The big-endian 32-bit words of a byte sequence, [n] of them. *)
Fixpoint wordsOf (n : nat) (bs : list N) : list N :=
  match n with
  | O => []
  | S n' => beWord (take 4 bs) :: wordsOf n' (drop 4 bs)
  end.

(** The message schedule, most recent word first. *)
Fixpoint expand (n : nat) (ws : list N) : list N :=
  match n with
  | O => ws
  | S n' =>
      let w := rotl 1 (N.lxor (N.lxor (nth 2 ws 0) (nth 7 ws 0))
                              (N.lxor (nth 13 ws 0) (nth 15 ws 0))) in
      expand n' (w :: ws)
  end.

Definition round (t : nat) (st : N * N * N * N * N) (w : N)
  : N * N * N * N * N :=
  let '(a, b, c, d, e) := st in
  let '(f, k) :=
    if (t <? 20)%nat then (N.lor (N.land b c) (N.land (not32 b) d), 1518500249)
    else if (t <? 40)%nat then (N.lxor (N.lxor b c) d, 1859775393)
    else if (t <? 60)%nat
    then (N.lor (N.lor (N.land b c) (N.land b d)) (N.land c d), 2400959708)
    else (N.lxor (N.lxor b c) d, 3395469782) in
  (w32 (rotl 5 a + f + e + k + w), a, rotl 30 b, c, d).

Fixpoint rounds (t : nat) (ws : list N) (st : N * N * N * N * N)
  : N * N * N * N * N :=
  match ws with
  | [] => st
  | w :: r => rounds (S t) r (round t st w)
  end.

Definition block (h : N * N * N * N * N) (bs : list N) : N * N * N * N * N :=
  let ws := rev (expand 64 (rev (wordsOf 16 bs))) in
  let '(h0, h1, h2, h3, h4) := h in
  let '(a, b, c, d, e) := rounds 0 ws h in
  (w32 (h0 + a), w32 (h1 + b), w32 (h2 + c), w32 (h3 + d), w32 (h4 + e)).

Fixpoint blocks (n : nat) (h : N * N * N * N * N) (bs : list N)
  : N * N * N * N * N :=
  match n with
  | O => h
  | S n' => blocks n' (block h (take 64 bs)) (drop 64 bs)
  end.

Definition initial : N * N * N * N * N :=
  (1732584193, 4023233417, 2562383102, 271733878, 3285377520).

(** The digest as one 160-bit number. *)
Definition digest (msg : list N) : N :=
  let p := pad msg in
  let '(h0, h1, h2, h3, h4) := blocks (length p / 64) initial p in
  (((h0 * 2 ^ 32 + h1) * 2 ^ 32 + h2) * 2 ^ 32 + h3) * 2 ^ 32 + h4.

End Sha1.

(** The UTF-8 encoding the runtime applies to a string handed to
    [hash.update]: surrogate pairs are combined, and a surrogate without
    its partner is encoded as U+FFFD. *)
Definition utf8CodePoint (c : N) : list N :=
  if c <? 128 then [c]
  else if c <? 2048 then [192 + c / 64; 128 + c mod 64]
  else if c <? 65536 then [224 + c / 4096; 128 + (c / 64) mod 64; 128 + c mod 64]
  else [240 + c / 262144; 128 + (c / 4096) mod 64;
        128 + (c / 64) mod 64; 128 + c mod 64].

Definition isHighSurrogate (c : N) : bool := (55296 <=? c) && (c <=? 56319).
Definition isLowSurrogate (c : N) : bool := (56320 <=? c) && (c <=? 57343).

Fixpoint utf8 (s : jsstring) : list N :=
  match s with
  | [] => []
  | c :: r =>
      if isHighSurrogate c then
        match r with
        | d :: r' =>
            if isLowSurrogate d
            then utf8CodePoint (65536 + (c - 55296) * 1024 + (d - 56320)) ++ utf8 r'
            else [239; 191; 189] ++ utf8 r
        | [] => [239; 191; 189]
        end
      else if isLowSurrogate c then [239; 191; 189] ++ utf8 r
      else utf8CodePoint c ++ utf8 r
  end.

Definition hexDigit (d : N) : N :=
  if d <? 10 then 48 + d else 87 + d.

(** The [n] hexadecimal digits of [v], most significant first. *)
Fixpoint hexDigits (n : nat) (v : N) : jsstring :=
  match n with
  | O => []
  | S n' => hexDigit ((v / 16 ^ N.of_nat n') mod 16) :: hexDigits n' v
  end.

Definition createIdForPath (virtualPath : jsstring) : jsstring :=
  hexDigits 40 (Sha1.digest (utf8 virtualPath)).

(** ** File categories *)

Inductive FileType :=
| T_folder | T_document | T_spreadsheet | T_presentation | T_image
| T_video | T_archive | T_audio | T_pdf | T_file.

Definition isFolder (t : FileType) : bool :=
  match t with T_folder => true | _ => false end.

(** [case] labels of a [switch]: is [x] one of [xs]? *)
Definition oneOf (x : jsstring) (xs : list jsstring) : bool :=
  existsb (jseq x) xs.

Definition inferFileType `{NP : NodePath} (name : jsstring) (isDirectory : bool)
  : FileType :=
  if isDirectory then T_folder
  else
    let ext := toLowerCase (path_extname name) in
    if oneOf ext [js ".doc"; js ".docx"; js ".md"; js ".txt"] then T_document
    else if oneOf ext [js ".xlsx"; js ".csv"; js ".tsv"] then T_spreadsheet
    else if oneOf ext [js ".ppt"; js ".pptx"] then T_presentation
    else if oneOf ext [js ".jpg"; js ".jpeg"; js ".png"; js ".gif";
                       js ".webp"; js ".svg"] then T_image
    else if oneOf ext [js ".mp4"; js ".mkv"; js ".mov"; js ".avi"] then T_video
    else if oneOf ext [js ".zip"; js ".rar"; js ".7z"] then T_archive
    else if oneOf ext [js ".mp3"; js ".wav"; js ".flac"] then T_audio
    else if oneOf ext [js ".pdf"] then T_pdf
    else T_file.

(** ** [Array.prototype.sort] with a comparator

    The language requires the sort to be stable; for a consistent comparator
    every stable sort returns the same array.  It is modelled by insertion,
    where an element goes before the first one it does not compare greater
    than. *)

Section Sort.
Context {A : Type} (cmp : A -> A -> Z).

Fixpoint insertSorted (x : A) (l : list A) : list A :=
  match l with
  | [] => [x]
  | y :: r => if (cmp x y <=? 0)%Z then x :: y :: r else y :: insertSorted x r
  end.

Fixpoint sortWith (l : list A) : list A :=
  match l with
  | [] => []
  | x :: r => insertSorted x (sortWith r)
  end.

End Sort.

(** ** The filesystem interface: [node:fs/promises] and the clock *)

(** [fs.Stats], as far as the module reads it; [st_mtime] is
    [stats.mtime.toISOString()]. *)
Record Stats := {
  st_isDirectory : bool;
  st_size : N;
  st_mtime : jsstring
}.

(** [fs.Dirent] of [readdir(..., {withFileTypes: true})]. *)
Record Dirent := {
  d_name : jsstring;
  d_isDirectory : bool
}.

(** Reads leave the filesystem as it is; writes return the new filesystem
    and the error they rejected with, if any. *)
Class NodeFs := {
  World : Type;
  fs_access : jsstring -> World -> bool;          (* access(p, R_OK) resolves *)
  fs_stat : jsstring -> World -> NodeError + Stats;
  fs_readdir : jsstring -> World -> NodeError + list Dirent;
  fs_mkdir : jsstring -> World -> option NodeError * World;   (* recursive *)
  fs_cp : jsstring -> jsstring -> World -> option NodeError * World;
                                                  (* recursive, force *)
  fs_copyFile : jsstring -> jsstring -> World -> option NodeError * World;
  fs_rename : jsstring -> jsstring -> World -> option NodeError * World;
  fs_rm : jsstring -> World -> option NodeError * World;      (* recursive, force *)
  date_now : World -> jsstring                    (* new Date().toISOString() *)
}.

(** The listing record. *)
Record FileEntry := {
  fe_id : jsstring;
  fe_name : jsstring;
  fe_type : FileType;
  fe_size : option N;
  fe_modified : jsstring;
  fe_path : jsstring;
  fe_service : jsstring
}.

Record Shortcut := { sc_name : jsstring; sc_path : jsstring }.

(** An element of [items] in the result of a copy or move. *)
Record CopiedItem := { source : jsstring; destination : jsstring }.

(** The payload of a copy or move, [{sources, destination, move}]; [dest]
    is its [destination], and an absent [move] is [false]. *)
Record CopyPayload := {
  sources : list jsstring;
  dest : jsstring;
  move : bool
}.

(** ** The module *)

Section Main.
Context `{NP : NodePath} `{FS : NodeFs}.

(** The state the module runs in: its [driveAliasMap] and the filesystem. *)
Record State := {
  driveAliasMap : gmap jsstring jsstring;
  world : World
}.

(** An [async] function: it runs on the state, and returns or throws. *)
Definition IO (A : Type) : Type := State -> result A * State.

Definition ret {A} (a : A) : IO A := fun s => (Ok a, s).
Definition throw {A} (e : error) : IO A := fun s => (Err e, s).
Definition bind {A B} (m : IO A) (k : A -> IO B) : IO B :=
  fun s => match m s with
           | (Ok a, s') => k a s'
           | (Err e, s') => (Err e, s')
           end.

Notation "x <- m ;; k" := (bind m (fun x => k))
  (at level 100, m at next level, right associativity).
Notation "m ;;; k" := (bind m (fun _ => k))
  (at level 100, right associativity).

(** A read of the filesystem that cannot fail. *)
Definition readFs {A} (f : World -> A) : IO A :=
  fun s => (Ok (f (world s)), s).

(** An awaited read: its rejection is thrown. *)
Definition awaitRead {A} (f : World -> NodeError + A) : IO A :=
  fun s => match f (world s) with
           | inr a => (Ok a, s)
           | inl e => (Err (FsError e), s)
           end.

(** An awaited write. *)
Definition awaitWrite (f : World -> option NodeError * World) : IO unit :=
  fun s => let '(r, w) := f (world s) in
           let s' := {| driveAliasMap := driveAliasMap s; world := w |} in
           match r with
           | None => (Ok tt, s')
           | Some e => (Err (FsError e), s')
           end.

(** A call of the resolver, which reads and extends [driveAliasMap]. *)
Definition resolve (virtualPath : jsstring) : IO Resolved :=
  fun s => let '(r, m) := resolveLocalVirtualPath virtualPath (driveAliasMap s) in
           (r, {| driveAliasMap := m; world := world s |}).

(** [try { await fs.access(p, R_OK); return true } catch { return false }] *)
Definition pathExists (p : jsstring) : IO bool := readFs (fs_access p).

Definition ensureDirectory (p : jsstring) : IO unit := awaitWrite (fs_mkdir p).

(** A directory is copied with [fs.cp], a file with [fs.copyFile] once the
    directory of the destination is there. *)
Definition copyEntry (sourceFs destinationFs : jsstring) : IO unit :=
  stats <- awaitRead (fs_stat sourceFs) ;;
  if st_isDirectory stats
  then awaitWrite (fs_cp sourceFs destinationFs)
  else ensureDirectory (path_dirname destinationFs) ;;;
       awaitWrite (fs_copyFile sourceFs destinationFs).

Definition deleteEntry (targetFs : jsstring) : IO unit :=
  awaitWrite (fs_rm targetFs).

(** The rename is tried first; the [catch] falls back to copy and delete
    when [error.code === 'EXDEV'], and throws the error again otherwise. *)
Definition moveEntry (sourceFs destinationFs : jsstring) : IO unit :=
  ensureDirectory (path_dirname destinationFs) ;;;
  fun s =>
    let '(r, w) := fs_rename sourceFs destinationFs (world s) in
    let s' := {| driveAliasMap := driveAliasMap s; world := w |} in
    match r with
    | None => (Ok tt, s')
    | Some e =>
        if jseq (code e) (js "EXDEV")
        then (copyEntry sourceFs destinationFs ;;; deleteEntry sourceFs) s'
        else (Err (FsError e), s')
    end.

(** The comparator of a listing. *)
Definition compareEntries (a b : FileEntry) : Z :=
  if isFolder (fe_type a) && negb (isFolder (fe_type b)) then (-1)%Z
  else if negb (isFolder (fe_type a)) && isFolder (fe_type b) then 1%Z
  else localeCompare (fe_name a) (fe_name b).

(** The callback of [dirEntries.map]: [None] is the [null] of a child whose
    [stat] was rejected. *)
Definition entryOfDirent (fsPath baseWithSlash : jsstring) (w : World)
    (entry : Dirent) : option FileEntry :=
  let entryFsPath := path_join fsPath [d_name entry] in
  match fs_stat entryFsPath w with
  | inl _ => None
  | inr stats =>
      let isDirectory := d_isDirectory entry in
      let virtualPath :=
        baseWithSlash ++ d_name entry ++ (if isDirectory then [SLASH] else []) in
      Some {| fe_id := createIdForPath virtualPath;
              fe_name := d_name entry;
              fe_type := inferFileType (d_name entry) isDirectory;
              fe_size := if isDirectory then None else Some (st_size stats);
              fe_modified := st_mtime stats;
              fe_path := virtualPath;
              fe_service := js "local" |}
  end.

(** The whole body is in a [try] whose [catch] returns the empty array.
    The [stat] calls of the children are issued together and read the one
    filesystem. *)
Definition readDirectory (fsPath virtualBase : jsstring) : IO (list FileEntry) :=
  let baseWithSlash := normalizeVirtualFolder virtualBase in
  readFs (fun w =>
    match fs_readdir fsPath w with
    | inr dirEntries =>
        let items := List.map (entryOfDirent fsPath baseWithSlash w) dirEntries in
        sortWith compareEntries (filterNulls items)
    | inl _ => []
    end).

(** The entry of a folder: [type: 'folder'], [size: null]. *)
Definition folderEntry (id name modified path : jsstring) : FileEntry :=
  {| fe_id := id; fe_name := name; fe_type := T_folder; fe_size := None;
     fe_modified := modified; fe_path := path; fe_service := js "local" |}.

Fixpoint listSpecialFolders (folders : list SpecialFolder) (w : World)
  : list FileEntry :=
  match folders with
  | [] => []
  | folder :: rest =>
      if fs_access (fsPath folder) w
      then folderEntry (createIdForPath (virtual folder)) (label folder)
             (date_now w) (normalizeVirtualFolder (virtual folder))
           :: listSpecialFolders rest w
      else listSpecialFolders rest w
  end.

(** One folder entry per special folder that can be read, then the entry
    of the drive container. *)
Definition listSpecialDirectories : IO (list FileEntry) :=
  readFs (fun w =>
    listSpecialFolders specialFolders w
    ++ [folderEntry (createIdForPath (js "local://This PC/")) (js "This PC")
          (date_now w) (js "local://This PC/")]).

(** The probing loop of [listDriveRoots] over the letter codes; [drives] is
    the [Set], in insertion order. *)
Fixpoint probeDrives (codes : list N) (drives : list jsstring) (w : World)
  : list jsstring :=
  match codes with
  | [] => drives
  | c :: rest =>
      let candidate := [c; 58] in
      if existsb (jseq candidate) drives then probeDrives rest drives w
      else if fs_access (candidate ++ [BACKSLASH]) w
      then probeDrives rest (drives ++ [candidate]) w
      else probeDrives rest drives w
  end.

Definition letterCodes : list N := List.map N.of_nat (seq 65 26).

Definition driveDisplayName (drive : jsstring) : jsstring :=
  if jseq drive systemDrive then systemDriveDisplayName
  else js "Drive (" ++ drive ++ js ")".

(** One folder entry per drive found, each drive recorded in
    [driveAliasMap] under its display name; sorted by name. *)
Definition listDriveRoots : IO (list FileEntry) :=
  fun s =>
    let w := world s in
    let drives := probeDrives letterCodes [systemDrive] w in
    let now := date_now w in
    let aliases :=
      fold_left (fun m drive => <[driveDisplayName drive := drive]> m)
                drives (driveAliasMap s) in
    let items :=
      List.map (fun drive =>
             let displayName := driveDisplayName drive in
             let p := js "local://This PC/" ++ displayName ++ [SLASH] in
             folderEntry (createIdForPath p) displayName now p) drives in
    (Ok (sortWith (fun a b => localeCompare (fe_name a) (fe_name b)) items),
     {| driveAliasMap := aliases; world := w |}).

(** The channel [filesystem:listDirectory]. *)
Definition handleListDirectory (virtualPath : jsstring) : IO (list FileEntry) :=
  info <- resolve virtualPath ;;
  match info with
  | Root => listSpecialDirectories
  | Drives => listDriveRoots
  | Entry fsPath isDirectory baseVirtual =>
      if negb isDirectory then throw CannotListFile
      else readDirectory fsPath baseVirtual
  end.

(** The channel [filesystem:getLocalShortcuts]. *)
Definition handleGetLocalShortcuts : IO (list Shortcut) :=
  entries <- listSpecialDirectories ;;
  ret (List.map (fun e => {| sc_name := fe_name e; sc_path := fe_path e |})
         (List.filter (fun e => negb (jseq (fe_path e) (js "local://This PC/")))
            entries)
       ++ [{| sc_name := js "This PC"; sc_path := js "local://This PC/" |}]).

Definition normalizeDestinationVirtual (destination : jsstring) : jsstring :=
  if endsWith [SLASH] destination then destination else destination ++ [SLASH].

(** One iteration of the loop over [sources]: the new value of [results]. *)
Definition processSource (isMove : bool) (destVirtual destFsPath : jsstring)
    (results : list CopiedItem) (sourceVirtual : jsstring)
  : IO (list CopiedItem) :=
  sourceInfo <- resolve sourceVirtual ;;
  match sourceInfo with
  | Entry sourceFsPath _ _ =>
      sourceStats <- awaitRead (fs_stat sourceFsPath) ;;
      let basename := path_basename sourceFsPath in
      let targetFsPath := path_join destFsPath [basename] in
      let resolvedSource := path_resolve sourceFsPath in
      let resolvedDestination := path_resolve targetFsPath in
      if jseq resolvedSource resolvedDestination then ret results
      else if startsWith (resolvedSource ++ [path_sep]) resolvedDestination
      then throw SelfContainment
      else
        (if isMove then moveEntry sourceFsPath targetFsPath
         else copyEntry sourceFsPath targetFsPath) ;;;
        ret (results ++
             [{| source := sourceVirtual;
                 destination :=
                   destVirtual ++ basename ++
                   (if st_isDirectory sourceStats then [SLASH] else []) |}])
  | _ => throw (UnsupportedSource sourceVirtual)
  end.

(** The loop over [sources], from the items gathered so far. *)
Fixpoint processSources (isMove : bool) (destVirtual destFsPath : jsstring)
    (results : list CopiedItem) (srcs : list jsstring) : IO (list CopiedItem) :=
  match srcs with
  | [] => ret results
  | sourceVirtual :: rest =>
      results' <- processSource isMove destVirtual destFsPath results sourceVirtual ;;
      processSources isMove destVirtual destFsPath results' rest
  end.

(** Returns [items] of [{success: true, items}]. *)
Definition performCopyOrMove (payload : CopyPayload) : IO (list CopiedItem) :=
  if isEmpty (sources payload) then throw NoSourceItems
  else
    let destVirtual := normalizeDestinationVirtual (dest payload) in
    destInfo <- resolve destVirtual ;;
    match destInfo with
    | Entry destFsPath true _ =>
        exists_ <- pathExists destFsPath ;;
        (if negb exists_ then ensureDirectory destFsPath else ret tt) ;;;
        processSources (move payload) destVirtual destFsPath [] (sources payload)
    | _ => throw DestinationNotDirectory
    end.

(** The loop of [handleDeleteItems] over [targets]. *)
Fixpoint deleteTargets (targets : list jsstring) : IO unit :=
  match targets with
  | [] => ret tt
  | target :: rest =>
      info <- resolve target ;;
      match info with
      | Entry fsPath _ _ => deleteEntry fsPath ;;; deleteTargets rest
      | _ => throw (UnsupportedTarget target)
      end
  end.

(** The channel [filesystem:deleteItems]. *)
Definition handleDeleteItems (targets : list jsstring) : IO unit :=
  if isEmpty targets then throw NoTargets else deleteTargets targets.

(** The channels [filesystem:copyItems] and [filesystem:moveItems]. *)
Definition copyItems (payload : CopyPayload) : IO (list CopiedItem) :=
  performCopyOrMove payload.
Definition moveItems (payload : CopyPayload) : IO (list CopiedItem) :=
  performCopyOrMove {| sources := sources payload; dest := dest payload;
                       move := true |}.

End Main.

(** * A reference runtime

    An implementation of the two interfaces on which the module can be run:
    the Windows flavour of [node:path] for drive-absolute paths, and an
    in-memory filesystem with one tree per drive.  It follows the
    documented behaviour of the Node API the module relies on. *)

Module Win32.

Definition isSeparator (c : N) : bool := (c =? BACKSLASH) || (c =? SLASH).

(** The pieces of a path between separators, either slash counting. *)
Fixpoint splitSeparators (s : jsstring) : list jsstring :=
  match s with
  | [] => [[]]
  | x :: r =>
      if isSeparator x then [] :: splitSeparators r
      else match splitSeparators r with
           | h :: t => (x :: h) :: t
           | [] => [[x]]
           end
  end.

(** Resolution of [.] and [..]; [acc] holds the components so far, last
    first. *)
Fixpoint normalizeParts (acc parts : list jsstring) : list jsstring :=
  match parts with
  | [] => rev acc
  | x :: r =>
      if jseq x (js ".") then normalizeParts acc r
      else if jseq x (js "..")
      then normalizeParts (match acc with
                           | _ :: ((_ :: _) as up) => up
                           | _ => acc
                           end) r
      else normalizeParts (x :: acc) r
  end.

(** The drive followed by the directory names down to the entry. *)
Definition components (p : jsstring) : list jsstring :=
  normalizeParts [] (filterBoolean (splitSeparators p)).

Fixpoint joinNames (names : list jsstring) : jsstring :=
  match names with
  | [] => []
  | [x] => x
  | x :: r => x ++ [BACKSLASH] ++ joinNames r
  end.

Definition render (cs : list jsstring) : jsstring :=
  match cs with
  | [] => js "."
  | drive :: names => drive ++ [BACKSLASH] ++ joinNames names
  end.

Definition resolve (p : jsstring) : jsstring := render (components p).

Definition join (a : jsstring) (rest : list jsstring) : jsstring :=
  render (components (a ++ concat (List.map (fun r => BACKSLASH :: r) rest))).

Definition basename (p : jsstring) : jsstring :=
  match components p with
  | _ :: ((_ :: _) as names) => List.last names []
  | _ => []
  end.

Definition dirname (p : jsstring) : jsstring :=
  match components p with
  | (_ :: _ :: _) as cs => render (removelast cs)
  | cs => render cs
  end.

(** The extension: from the last dot of the name, unless the name has no
    dot or only a leading one. *)
Fixpoint lastDot (s : jsstring) : option jsstring :=
  match s with
  | [] => None
  | c :: r =>
      match lastDot r with
      | Some e => Some e
      | None => if c =? 46 then Some (c :: r) else None
      end
  end.

Definition extname (p : jsstring) : jsstring :=
  match List.last (filterBoolean (splitSeparators p)) [] with
  | c :: r => match lastDot r with Some e => e | None => [] end
  | [] => []
  end.

Definition lowerUnit (c : N) : N := if isAsciiUpper c then c + 32 else c.

(** Comparison of strings by code unit, letters of either case alike. *)
Fixpoint compareFolded (a b : jsstring) : Z :=
  match a, b with
  | [], [] => 0%Z
  | [], _ :: _ => (-1)%Z
  | _ :: _, [] => 1%Z
  | x :: a', y :: b' =>
      if lowerUnit x <? lowerUnit y then (-1)%Z
      else if lowerUnit y <? lowerUnit x then 1%Z
      else compareFolded a' b'
  end.

End Win32.

#[export] Instance win32Path : NodePath := {|
  path_sep := BACKSLASH;
  path_join := Win32.join;
  path_basename := Win32.basename;
  path_dirname := Win32.dirname;
  path_resolve := Win32.resolve;
  path_extname := Win32.extname;
  os_homedir := js "C:\Users\me";
  env_SystemDrive := Some (js "C:");
  toLowerCase := List.map Win32.lowerUnit;
  localeCompare := Win32.compareFolded
|}.

Module MemFs.

(** A file with its bytes, or a directory with its named children in
    listing order. *)
#[warnings="-register-all"]
Inductive Node :=
| File (data : list N)
| Dir (children : list (jsstring * Node)).

Definition isDir (n : Node) : bool :=
  match n with Dir _ => true | File _ => false end.

Fixpoint getChild (name : jsstring) (cs : list (jsstring * Node)) : option Node :=
  match cs with
  | [] => None
  | (n, c) :: r => if jseq n name then Some c else getChild name r
  end.

Fixpoint setChild (name : jsstring) (new : Node) (cs : list (jsstring * Node))
  : list (jsstring * Node) :=
  match cs with
  | [] => [(name, new)]
  | (n, c) :: r =>
      if jseq n name then (n, new) :: r else (n, c) :: setChild name new r
  end.

Fixpoint delChild (name : jsstring) (cs : list (jsstring * Node))
  : list (jsstring * Node) :=
  match cs with
  | [] => []
  | (n, c) :: r =>
      if jseq n name then delChild name r else (n, c) :: delChild name r
  end.

Fixpoint lookupNode (p : list jsstring) (n : Node) : option Node :=
  match p with
  | [] => Some n
  | x :: r =>
      match n with
      | Dir cs => match getChild x cs with
                  | Some c => lookupNode r c
                  | None => None
                  end
      | File _ => None
      end
  end.

(** Places [new] at [p]; the parent of [p] must be a directory. *)
Fixpoint putNode (p : list jsstring) (new : Node) (n : Node) : option Node :=
  match p with
  | [] => Some new
  | x :: r =>
      match n with
      | Dir cs =>
          match r with
          | [] => Some (Dir (setChild x new cs))
          | _ :: _ =>
              match getChild x cs with
              | Some c => match putNode r new c with
                          | Some c' => Some (Dir (setChild x c' cs))
                          | None => None
                          end
              | None => None
              end
          end
      | File _ => None
      end
  end.

(** Removes the entry at [p] with all it contains, if it is there. *)
Fixpoint removeNode (p : list jsstring) (n : Node) : Node :=
  match p with
  | [] => n
  | x :: r =>
      match n with
      | Dir cs =>
          match r with
          | [] => Dir (delChild x cs)
          | _ :: _ =>
              match getChild x cs with
              | Some c => Dir (setChild x (removeNode r c) cs)
              | None => n
              end
          end
      | File _ => n
      end
  end.

(** Creates the directories of [p] that are missing; fails on a file. *)
Fixpoint mkdirp (p : list jsstring) (n : Node) : option Node :=
  match n with
  | File _ => None
  | Dir cs =>
      match p with
      | [] => Some n
      | x :: r =>
          match mkdirp r (match getChild x cs with
                          | Some c => c
                          | None => Dir []
                          end) with
          | Some c' => Some (Dir (setChild x c' cs))
          | None => None
          end
      end
  end.

(** Copy of the tree [src] over an existing [dst]: files are overwritten,
    directories are merged, and a file never replaces a directory nor a
    directory a file. *)
Fixpoint merge (src dst : Node) {struct src} : option Node :=
  match src, dst with
  | File d, File _ => Some (File d)
  | File _, Dir _ => None
  | Dir _, File _ => None
  | Dir cs, Dir ds =>
      (fix go (cs : list (jsstring * Node)) (ds : list (jsstring * Node))
         : option Node :=
         match cs with
         | [] => Some (Dir ds)
         | (name, c) :: rest =>
             match (match getChild name ds with
                    | Some d => merge c d
                    | None => Some c
                    end) with
             | Some c' => go rest (setChild name c' ds)
             | None => None
             end
         end) cs ds
  end.

Fixpoint isPrefix (a b : list jsstring) : bool :=
  match a, b with
  | [], _ => true
  | x :: a', y :: b' => jseq x y && isPrefix a' b'
  | _ :: _, [] => false
  end.

(** The filesystem: one tree per drive, and the time of day. *)
Record disk := {
  drives : gmap jsstring Node;
  clock : jsstring
}.

Definition withDrives (w : disk) (m : gmap jsstring Node) : disk :=
  {| drives := m; clock := clock w |}.

Definition failure (c : string) : NodeError :=
  {| code := js c; message := [] |}.

(** The drive and the names below it that a path denotes. *)
Definition locate (p : jsstring) : option (jsstring * list jsstring) :=
  match Win32.components p with
  | drive :: names => Some (drive, names)
  | [] => None
  end.

Definition findAt (d : jsstring) (names : list jsstring) (w : disk)
  : option Node :=
  match drives w !! d with
  | Some root => lookupNode names root
  | None => None
  end.

Definition find (p : jsstring) (w : disk) : option Node :=
  match locate p with
  | Some (d, names) => findAt d names w
  | None => None
  end.

Definition putAt (d : jsstring) (names : list jsstring) (n : Node) (w : disk)
  : option disk :=
  match drives w !! d with
  | Some root =>
      match putNode names n root with
      | Some root' => Some (withDrives w (<[d := root']> (drives w)))
      | None => None
      end
  | None => None
  end.

Definition removeAt (d : jsstring) (names : list jsstring) (w : disk) : disk :=
  match drives w !! d with
  | Some root => withDrives w (<[d := removeNode names root]> (drives w))
  | None => w
  end.

Definition mkdirAt (d : jsstring) (names : list jsstring) (w : disk)
  : option disk :=
  match drives w !! d with
  | Some root =>
      match mkdirp names root with
      | Some root' => Some (withDrives w (<[d := root']> (drives w)))
      | None => None
      end
  | None => None
  end.

Definition access (p : jsstring) (w : disk) : bool :=
  match find p w with Some _ => true | None => false end.

Definition stat (p : jsstring) (w : disk) : NodeError + Stats :=
  match find p w with
  | Some (File data) =>
      inr {| st_isDirectory := false; st_size := N.of_nat (length data);
             st_mtime := clock w |}
  | Some (Dir _) =>
      inr {| st_isDirectory := true; st_size := 0; st_mtime := clock w |}
  | None => inl (failure "ENOENT")
  end.

Definition readdir (p : jsstring) (w : disk) : NodeError + list Dirent :=
  match find p w with
  | Some (Dir cs) =>
      inr (List.map (fun nc => {| d_name := fst nc; d_isDirectory := isDir (snd nc) |}) cs)
  | Some (File _) => inl (failure "ENOTDIR")
  | None => inl (failure "ENOENT")
  end.

(** [mkdir(p, {recursive: true})] *)
Definition mkdir (p : jsstring) (w : disk) : option NodeError * disk :=
  match locate p with
  | Some (d, names) =>
      match drives w !! d with
      | Some _ =>
          match mkdirAt d names w with
          | Some w' => (None, w')
          | None => (Some (failure "EEXIST"), w)
          end
      | None => (Some (failure "ENOENT"), w)
      end
  | None => (Some (failure "ENOENT"), w)
  end.

(** [cp(src, dst, {recursive: true, force: true})]: the parent of the
    destination is created, an existing destination is merged into, and
    a directory is not copied into itself. *)
Definition cp (src dst : jsstring) (w : disk) : option NodeError * disk :=
  match locate src, locate dst with
  | Some (d1, s1), Some (d2, s2) =>
      match findAt d1 s1 w with
      | None => (Some (failure "ENOENT"), w)
      | Some n =>
          if jseq d1 d2 && isPrefix s1 s2
          then (Some (failure "ERR_FS_CP_EINVAL"), w)
          else
            match mkdirAt d2 (removelast s2) w with
            | None => (Some (failure "ENOENT"), w)
            | Some w1 =>
                match (match findAt d2 s2 w1 with
                       | Some old => merge n old
                       | None => Some n
                       end) with
                | None => (Some (failure "ERR_FS_CP_DIR_TO_NON_DIR"), w)
                | Some n' =>
                    match putAt d2 s2 n' w1 with
                    | Some w2 => (None, w2)
                    | None => (Some (failure "ENOENT"), w)
                    end
                end
            end
      end
  | _, _ => (Some (failure "ENOENT"), w)
  end.

Definition copyFile (src dst : jsstring) (w : disk) : option NodeError * disk :=
  match locate src, locate dst with
  | Some (d1, s1), Some (d2, s2) =>
      match findAt d1 s1 w with
      | Some (File data) =>
          match findAt d2 s2 w with
          | Some (Dir _) => (Some (failure "EISDIR"), w)
          | _ =>
              match putAt d2 s2 (File data) w with
              | Some w' => (None, w')
              | None => (Some (failure "ENOENT"), w)
              end
          end
      | Some (Dir _) => (Some (failure "EISDIR"), w)
      | None => (Some (failure "ENOENT"), w)
      end
  | _, _ => (Some (failure "ENOENT"), w)
  end.

(** What a rename does once it is allowed: the entry leaves its place and
    appears at the destination. *)
Definition relocate (d1 : jsstring) (s1 : list jsstring)
    (d2 : jsstring) (s2 : list jsstring) (n : Node) (w : disk) : option disk :=
  putAt d2 s2 n (removeAt d1 s1 w).

(** [rename(src, dst)]: within one drive only; a drive root does not move,
    a directory does not move into itself, and only a file or an empty
    directory of the same kind is replaced. *)
Definition rename (src dst : jsstring) (w : disk) : option NodeError * disk :=
  match locate src, locate dst with
  | Some (d1, s1), Some (d2, s2) =>
      match findAt d1 s1 w with
      | None => (Some (failure "ENOENT"), w)
      | Some n =>
          if isEmpty s1 then (Some (failure "EPERM"), w)
          else if negb (jseq d1 d2) then (Some (failure "EXDEV"), w)
          else if isPrefix s1 s2 && isPrefix s2 s1 then (None, w)
          else if isPrefix s1 s2 then (Some (failure "EINVAL"), w)
          else
            match findAt d2 s2 w, n with
            | Some (Dir (_ :: _)), _ => (Some (failure "ENOTEMPTY"), w)
            | Some (Dir []), File _ => (Some (failure "EISDIR"), w)
            | Some (File _), Dir _ => (Some (failure "ENOTDIR"), w)
            | _, _ =>
                match relocate d1 s1 d2 s2 n w with
                | Some w' => (None, w')
                | None => (Some (failure "ENOENT"), w)
                end
            end
      end
  | _, _ => (Some (failure "ENOENT"), w)
  end.

(** [rm(p, {recursive: true, force: true})]: an absent target is not an
    error; a drive root is not removed. *)
Definition rm (p : jsstring) (w : disk) : option NodeError * disk :=
  match locate p with
  | Some (d, names) =>
      if isEmpty names then
        match drives w !! d with
        | Some _ => (Some (failure "EPERM"), w)
        | None => (None, w)
        end
      else (None, removeAt d names w)
  | None => (None, w)
  end.

End MemFs.

#[export] Instance memFs : NodeFs := {|
  World := MemFs.disk;
  fs_access := MemFs.access;
  fs_stat := MemFs.stat;
  fs_readdir := MemFs.readdir;
  fs_mkdir := MemFs.mkdir;
  fs_cp := MemFs.cp;
  fs_copyFile := MemFs.copyFile;
  fs_rename := MemFs.rename;
  fs_rm := MemFs.rm;
  date_now := MemFs.clock
|}.

(** A small disk to run the module on.  On [C:], the desktop holds the
    file [a.txt] of two bytes and the empty folder [sub], and the documents
    folder holds the folder [backup] with the file [notes.txt]; on [D:],
    the folder [backup] holds the file [old.txt]. *)
Definition sampleWorld : MemFs.disk :=
  {| MemFs.drives :=
       {[ js "C:" :=
            MemFs.Dir
              [(js "Users",
                MemFs.Dir
                  [(js "me",
                    MemFs.Dir
                      [(js "Desktop",
                        MemFs.Dir [(js "a.txt", MemFs.File [104; 105]);
                                   (js "sub", MemFs.Dir [])]);
                       (js "Documents",
                        MemFs.Dir
                          [(js "backup",
                            MemFs.Dir [(js "notes.txt", MemFs.File [110])])])])])];
          js "D:" :=
            MemFs.Dir
              [(js "backup", MemFs.Dir [(js "old.txt", MemFs.File [111])])] ]};
     MemFs.clock := js "2025-09-19T00:00:00.000Z" |}.

Definition sampleState : State :=
  {| driveAliasMap := initialAliases; world := sampleWorld |}.

(** * Notions the statements are written with *)

(** A path segment: not empty, and free of both kinds of slash. *)
Definition isSegment (x : jsstring) : Prop :=
  x <> [] /\ Forall (fun c => c <> SLASH /\ c <> BACKSLASH) x.

(** The segments written one after the other, with [1 + g] slashes between
    two neighbours, [g] taken from [gaps] in order (none left: [0]). *)
Fixpoint spaced (gaps : list nat) (segs : list jsstring) : jsstring :=
  match segs with
  | [] => []
  | [x] => x
  | x :: r => x ++ repeat SLASH (S (hd O gaps)) ++ spaced (tl gaps) r
  end.

(** The segments with exactly one slash between neighbours. *)
Definition joined (segs : list jsstring) : jsstring := spaced [] segs.

(** What the resolver returns on a path below a drive of the container. *)
Definition driveResolution `{NP : NodePath} (name rel p : jsstring)
    (m : gmap jsstring jsstring)
  : result Resolved * gmap jsstring jsstring :=
  if existsb isLineTerminator rel then (Err (UnsupportedLocalPath p), m)
  else
    match ensureDriveLetter name m with
    | (Some (c :: l), m') =>
        (Ok (Entry (path_join ((c :: l) ++ [path_sep])
                      (filterBoolean (split SLASH rel)))
               (endsWith [SLASH] p || isEmpty (filterBoolean (split SLASH rel)))
               (js "local://This PC/" ++ name ++ [SLASH])), m')
    | (_, m') => (Err (UnknownDrive name), m')
    end.

(** [a] may stand before [b] for the comparator. *)
Definition before {A : Type} (cmp : A -> A -> Z) (a b : A) : Prop :=
  (cmp a b <= 0)%Z.

(** The [stat] of a child resolves. *)
Definition statSucceeds `{NP : NodePath} `{FS : NodeFs}
    (fsPath : jsstring) (w : World) (entry : Dirent) : bool :=
  match fs_stat (path_join fsPath [d_name entry]) w with
  | inr _ => true
  | inl _ => false
  end.

(** The names of two entries are in order. *)
Definition byName `{NP : NodePath} (a b : FileEntry) : Prop :=
  (localeCompare (fe_name a) (fe_name b) <= 0)%Z.

(** The errors of resolution and validation, as opposed to those of the
    filesystem. *)
Definition isValidationError (e : error) : bool :=
  match e with
  | FsError _ => false
  | _ => true
  end.

(** The state with another alias map, or with another filesystem. *)
Definition withAliases `{FS : NodeFs} (s : State)
    (m : gmap jsstring jsstring) : State :=
  {| driveAliasMap := m; world := world s |}.

Definition withWorld `{FS : NodeFs} (s : State) (w : World) : State :=
  {| driveAliasMap := driveAliasMap s; world := w |}.

(** The real target of a source below the destination directory. *)
Definition targetOf `{NP : NodePath} (destFsPath sourceFsPath : jsstring)
  : jsstring :=
  path_join destFsPath [path_basename sourceFsPath].

(** The state in which the loop over the sources starts: the destination
    resolved to the directory [destFsPath], which was found or created. *)
Definition destinationPrepared `{NP : NodePath} `{FS : NodeFs}
    (payload : CopyPayload) (s0 : State)
    (destFsPath : jsstring) (s1 : State) : Prop :=
  sources payload <> []
  /\ exists b,
       resolveLocalVirtualPath (normalizeDestinationVirtual (dest payload))
         (driveAliasMap s0)
       = (Ok (Entry destFsPath true b), driveAliasMap s1)
       /\ ((fs_access destFsPath (world s0) = true /\ world s1 = world s0)
           \/ (fs_access destFsPath (world s0) = false
               /\ fs_mkdir destFsPath (world s0) = (None, world s1))).

(** Five 32-bit words. *)
Definition word5 (h : N * N * N * N * N) : Prop :=
  let '(a, b, c, d, e) := h in
  a < 2 ^ 32 /\ b < 2 ^ 32 /\ c < 2 ^ 32 /\ d < 2 ^ 32 /\ e < 2 ^ 32.

(** A digit or a letter from [a] to [f]. *)
Definition isHexDigit (c : N) : bool :=
  ((48 <=? c) && (c <=? 57)) || ((97 <=? c) && (c <=? 102)).

(** No unit of the string is a path separator. *)
Definition separatorFree (x : jsstring) : Prop :=
  Forall (fun c => Win32.isSeparator c = false) x.

(** A name of a normalized path. *)
Definition isName (x : jsstring) : Prop :=
  x <> [] /\ separatorFree x /\ x <> js "." /\ x <> js "..".

(** * Further notions *)

(** The aliases the module itself can have set: the system drive under its
    display name, or a letter drive under a name that holds the letter
    between parentheses. *)
Definition aliasSound `{NP : NodePath} (m : gmap jsstring jsstring) : Prop :=
  m !! systemDriveDisplayName = Some systemDrive
  /\ forall name d,
       m !! name = Some d ->
       (name = systemDriveDisplayName /\ d = systemDrive)
       \/ (name <> systemDriveDisplayName
           /\ exists c, matchDriveLetter name = Some c
                        /\ d = [upperLetter c; 58]).

(** An operation keeps the aliases: run from a sound alias map, it ends
    with a sound alias map in which every alias there was has kept its
    value. *)
Definition keepsAliases `{NP : NodePath} `{FS : NodeFs} {A : Type}
    (op : IO A) : Prop :=
  forall s r s',
    op s = (r, s') -> aliasSound (driveAliasMap s) ->
    aliasSound (driveAliasMap s') /\ driveAliasMap s ⊆ driveAliasMap s'.

(** A unit is an ASCII letter. *)
Definition isAsciiLetter (c : N) : bool := isAsciiUpper c || isAsciiLower c.

(** An operation leaves the alias map as it is. *)
Definition aliasesFixed `{NP : NodePath} `{FS : NodeFs} {A : Type}
    (op : IO A) : Prop :=
  forall s r s', op s = (r, s') -> driveAliasMap s' = driveAliasMap s.

(** A drive of a listing: the system drive, or an upper-case letter and a
    colon. *)
Definition isListedDrive `{NP : NodePath} (d : jsstring) : Prop :=
  d = systemDrive \/ exists c, isAsciiUpper c = true /\ d = [c; 58].

(** The segments with runs of slashes before the first one, between two
    neighbours and after the last one. *)
Definition padded (lead : nat) (gaps : list nat) (trail : nat)
    (segs : list jsstring) : jsstring :=
  repeat SLASH lead ++ spaced gaps segs ++ repeat SLASH trail.


(** * The laws the end state of a move rests on *)

Section Laws.
Context `{NP : NodePath} `{FS : NodeFs}.

(** What [node:fs] is taken to do, for an observation [contentsAt] of what
    a path holds in a filesystem (a tree, which is a directory or is not)
    and a relation [apart] between a source and a destination on two
    devices: a rename that fails changes nothing, and fails for crossing
    devices only between a source that is there and a destination apart
    from it; [mkdir] of a directory it has made changes nothing; [stat]
    tells what is there; [cp] of a directory to a free place and
    [copyFile] of a file to a place that is free or holds a file put there
    what the source holds, the parent directory being there, and keep the
    source; [rm] removes the source and keeps the destination. *)
Record FsLaws {Tree : Type} (isDirectoryTree : Tree -> bool)
    (contentsAt : jsstring -> World -> option Tree)
    (apart : jsstring -> jsstring -> Prop) : Prop := {
  law_rename_failure :
    forall src dst w e w',
      fs_rename src dst w = (Some e, w') -> w' = w;
  law_rename_exdev :
    forall src dst w e w',
      fs_rename src dst w = (Some e, w') -> code e = js "EXDEV" ->
      apart src dst /\ exists n, contentsAt src w = Some n;
  law_mkdir_again :
    forall p w w', fs_mkdir p w = (None, w') -> fs_mkdir p w' = (None, w');
  law_stat :
    forall p w n,
      contentsAt p w = Some n ->
      exists stats,
        fs_stat p w = inr stats /\ st_isDirectory stats = isDirectoryTree n;
  law_cp :
    forall src dst w n,
      apart src dst -> fs_mkdir (path_dirname dst) w = (None, w) ->
      contentsAt src w = Some n -> isDirectoryTree n = true ->
      contentsAt dst w = None ->
      exists w',
        fs_cp src dst w = (None, w')
        /\ contentsAt src w' = Some n /\ contentsAt dst w' = Some n;
  law_copyFile :
    forall src dst w n,
      apart src dst -> fs_mkdir (path_dirname dst) w = (None, w) ->
      contentsAt src w = Some n -> isDirectoryTree n = false ->
      (forall o, contentsAt dst w = Some o -> isDirectoryTree o = false) ->
      exists w',
        fs_copyFile src dst w = (None, w')
        /\ contentsAt src w' = Some n /\ contentsAt dst w' = Some n;
  law_rm :
    forall src dst w n,
      apart src dst -> contentsAt src w = Some n ->
      exists w',
        fs_rm src w = (None, w')
        /\ contentsAt src w' = None /\ contentsAt dst w' = contentsAt dst w
}.

End Laws.

(** On the reference filesystem: two paths on two drives, the first below
    the root of its drive. *)
Definition onOtherDrive (src dst : jsstring) : Prop :=
  exists d1 n1 d2 n2,
    MemFs.locate src = Some (d1, n1) /\ MemFs.locate dst = Some (d2, n2)
    /\ d1 <> d2 /\ n1 <> [].


(** * Verification *)

(** ** Strings *)

Lemma jseq_eq (a b : jsstring) : jseq a b = true <-> a = b.
Proof.
  revert b. induction a as [|x a IH]; intros [|y b]; simpl; try easy.
  rewrite andb_true_iff, N.eqb_eq, IH. split.
  - intros [-> ->]. reflexivity.
  - intros [= -> ->]. easy.
Qed.

Lemma jseq_refl (a : jsstring) : jseq a a = true.
Proof. apply jseq_eq. reflexivity. Qed.

Lemma jseq_neq (a b : jsstring) : jseq a b = false <-> a <> b.
Proof.
  rewrite <- jseq_eq. destruct (jseq a b); split; congruence.
Qed.

Lemma startsWith_spec (p s : jsstring) :
  startsWith p s = true <-> exists r, s = p ++ r.
Proof.
  revert s. induction p as [|x p IH]; intros s; simpl.
  - split; [intros _; exists s; reflexivity | easy].
  - destruct s as [|y s].
    + split; [easy | intros [r [=]]].
    + rewrite andb_true_iff, N.eqb_eq, IH. split.
      * intros [-> [r ->]]. exists r. reflexivity.
      * intros [r [= -> ->]]. split; [reflexivity | exists r; reflexivity].
Qed.

Lemma startsWith_app (p r : jsstring) : startsWith p (p ++ r) = true.
Proof. apply startsWith_spec. exists r. reflexivity. Qed.

(** A string without backslashes is its own sanitized form. *)
Lemma sanitizeFrom_clean (b : bool) (s : jsstring) :
  Forall (fun c => c <> BACKSLASH) s -> sanitizeFrom b s = s.
Proof.
  intros H. revert b. induction H as [|c s Hc _ IH]; intros b; simpl.
  - reflexivity.
  - apply N.eqb_neq in Hc. rewrite Hc, IH. reflexivity.
Qed.

(** ** Test vectors of the identifier scheme *)

Example sha1_abc :
  createIdForPath (js "abc") = js "a9993e364706816aba3e25717850c26c9cd0d89d".
Proof. vm_compute. reflexivity. Qed.

Example sha1_empty :
  createIdForPath [] = js "da39a3ee5e6b4b0d3255bfef95601890afd80709".
Proof. vm_compute. reflexivity. Qed.

Example sha1_two_blocks :
  createIdForPath (js "abcdbcdecdefdefgefghfghighijhijkijkljklmklmnlmnomnopnopq")
  = js "84983e441c3bd26ebaae4aa1f95129e5e54670f1".
Proof. vm_compute. reflexivity. Qed.

Example utf8_samples :
  utf8 [233] = [195; 169]
  /\ utf8 [8364] = [226; 130; 172]
  /\ utf8 [55357; 56832] = [240; 159; 152; 128]
  /\ utf8 [56832; 55357] = [239; 191; 189; 239; 191; 189].
Proof. repeat split; reflexivity. Qed.

(** ** The resolver: schemes *)

Section ResolverFacts.
Context `{NP : NodePath}.

(** The one place the resolver rejects a scheme. *)
Lemma resolve_scheme_error (p : jsstring) (m : gmap jsstring jsstring) :
  (exists q, fst (resolveLocalVirtualPath p m) = Err (UnsupportedScheme q))
  <-> startsWith (js "local://") (sanitizeVirtualPath p) = false.
Proof.
  unfold resolveLocalVirtualPath.
  destruct (startsWith (js "local://") (sanitizeVirtualPath p)) eqn:Hs;
    cbn [negb].
  - split; [|easy]. intros [q Hq]. exfalso. revert Hq.
    repeat case_match; simpl; congruence.
  - split; [easy|]. intros _. exists p. reflexivity.
Qed.

End ResolverFacts.

(** C3, as the specification states it, fails: [gdrive] is one of the five
    schemes of the grammar, and a [gdrive] path is rejected for its
    scheme. *)
Lemma scheme_gdrive_rejected :
  startsWith (js "gdrive://") (js "gdrive://files/") = true
  /\ fst (resolveLocalVirtualPath (js "gdrive://files/") initialAliases)
     = Err (UnsupportedScheme (js "gdrive://files/")).
Proof. split; reflexivity. Qed.

Lemma sanitize_keeps_local (p : jsstring) :
  startsWith (js "local://") p = true ->
  startsWith (js "local://") (sanitizeVirtualPath p) = true.
Proof.
  intros [r ->]%startsWith_spec. reflexivity.
Qed.

(** C3 (amended): the resolver fails with the unsupported-scheme error if
    and only if the path, once every run of backslashes is replaced by a
    slash, does not start with [local://]; the error then carries the path
    as it was given, and the alias map is left as it was.  A path that
    starts with [local://] is never rejected for its scheme. *)
Theorem resolve_rejects_exactly_non_local `{NP : NodePath}
    (p : jsstring) (m : gmap jsstring jsstring) :
  ((exists q, fst (resolveLocalVirtualPath p m) = Err (UnsupportedScheme q))
   <-> startsWith (js "local://") (sanitizeVirtualPath p) = false)
  /\ (resolveLocalVirtualPath p m = (Err (UnsupportedScheme p), m)
      <-> startsWith (js "local://") (sanitizeVirtualPath p) = false)
  /\ (startsWith (js "local://") p = true ->
      forall q, fst (resolveLocalVirtualPath p m) <> Err (UnsupportedScheme q)).
Proof.
  split; [apply resolve_scheme_error|]. split; [split|].
  - intros H. apply (resolve_scheme_error p m). exists p. rewrite H. reflexivity.
  - intros H. unfold resolveLocalVirtualPath. rewrite H. reflexivity.
  - intros H%sanitize_keeps_local q Hq.
    assert (startsWith (js "local://") (sanitizeVirtualPath p) = false) as E.
    { apply (resolve_scheme_error p m). exists q. exact Hq. }
    congruence.
Qed.

Lemma resolve_rejects_exactly_non_local_witness :
  fst (resolveLocalVirtualPath (js "local://Music/") initialAliases)
  <> Err (UnsupportedScheme (js "local://Music/")).
Proof.
  exact (proj2 (proj2 (resolve_rejects_exactly_non_local
                         (js "local://Music/") initialAliases)) eq_refl
           (js "local://Music/")).
Defined.

(** ** The resolver: segments *)

Lemma split_clean (x : jsstring) :
  Forall (fun c => c <> SLASH) x -> split SLASH x = [x].
Proof.
  induction 1 as [|c x Hc _ IH]; simpl; [reflexivity|].
  apply N.eqb_neq in Hc. rewrite Hc, IH. reflexivity.
Qed.

Lemma split_app_slash (x r : jsstring) :
  Forall (fun c => c <> SLASH) x ->
  split SLASH (x ++ SLASH :: r) = x :: split SLASH r.
Proof.
  induction 1 as [|c x Hc _ IH]; simpl; [reflexivity|].
  apply N.eqb_neq in Hc. rewrite Hc, IH. reflexivity.
Qed.

Lemma filterBoolean_split_slashes (n : nat) (r : jsstring) :
  filterBoolean (split SLASH (repeat SLASH n ++ r))
  = filterBoolean (split SLASH r).
Proof. induction n as [|n IH]; simpl; [reflexivity | exact IH]. Qed.

Lemma isSegment_no_slash (x : jsstring) :
  isSegment x -> Forall (fun c => c <> SLASH) x.
Proof. intros [_ H]. eapply Forall_impl; [exact H|]. simpl. tauto. Qed.

Lemma isSegment_no_backslash (x : jsstring) :
  isSegment x -> Forall (fun c => c <> BACKSLASH) x.
Proof. intros [_ H]. eapply Forall_impl; [exact H|]. simpl. tauto. Qed.

(** Splitting on slashes and dropping the empty pieces gives back the
    segments, however many slashes separate them. *)
Lemma segments_of_spaced (segs : list jsstring) (gaps : list nat) :
  Forall isSegment segs ->
  filterBoolean (split SLASH (spaced gaps segs)) = segs.
Proof.
  intros H. revert gaps. induction H as [|x r Hx Hr IH]; intros gaps.
  - reflexivity.
  - pose proof (isSegment_no_slash x Hx) as Hs.
    destruct r as [|y r].
    + simpl. rewrite split_clean by exact Hs.
      destruct x; [destruct Hx as [[] _]; reflexivity | reflexivity].
    + change (spaced gaps (x :: y :: r))
        with (x ++ SLASH :: (repeat SLASH (hd O gaps) ++ spaced (tl gaps) (y :: r))).
      rewrite split_app_slash by exact Hs.
      unfold filterBoolean at 1. simpl List.filter.
      destruct x as [|c x]; [destruct Hx as [[] _]; reflexivity|].
      simpl. f_equal.
      change (filterBoolean (split SLASH
                (repeat SLASH (hd O gaps) ++ spaced (tl gaps) (y :: r))) = y :: r).
      rewrite filterBoolean_split_slashes. apply IH.
Qed.

Lemma spaced_clean (segs : list jsstring) (gaps : list nat) :
  Forall isSegment segs ->
  Forall (fun c => c <> BACKSLASH) (spaced gaps segs).
Proof.
  intros H. revert gaps. induction H as [|x r Hx Hr IH]; intros gaps.
  - constructor.
  - destruct r as [|y r]; [exact (isSegment_no_backslash x Hx)|].
    change (spaced gaps (x :: y :: r))
      with (x ++ repeat SLASH (S (hd O gaps)) ++ spaced (tl gaps) (y :: r)).
    apply Forall_app. split; [exact (isSegment_no_backslash x Hx)|].
    apply Forall_app. split; [|apply IH].
    apply Forall_forall. intros c Hc%list_elem_of_In%repeat_spec. subst c.
    discriminate.
Qed.

Lemma spaced_nonempty (segs : list jsstring) (gaps : list nat) :
  Forall isSegment segs -> segs <> [] -> spaced gaps segs <> [].
Proof.
  intros H Hn. destruct H as [|x r Hx Hr]; [congruence|].
  destruct x as [|c x]; [destruct Hx as [[] _]; reflexivity|].
  destruct r; discriminate.
Qed.

(** The last unit of the spaced segments is the last unit of the last
    segment: never a slash. *)
Lemma spaced_last (segs : list jsstring) (gaps : list nat) :
  Forall isSegment segs -> segs <> [] ->
  exists s c, spaced gaps segs = s ++ [c] /\ c <> SLASH.
Proof.
  intros H. revert gaps. induction H as [|x r Hx Hr IH]; intros gaps Hn;
    [congruence|].
  destruct r as [|y r].
  - destruct Hx as [Hne Hx]. destruct (exists_last Hne) as [s [c ->]].
    exists s, c. split; [reflexivity|].
    apply Forall_app in Hx as [_ Hc]. inversion Hc as [|? ? [Hc' _] _]; subst.
    exact Hc'.
  - destruct (IH (tl gaps)) as [s [c [E Hc]]]; [discriminate|].
    change (spaced gaps (x :: y :: r))
      with (x ++ repeat SLASH (S (hd O gaps)) ++ spaced (tl gaps) (y :: r)).
    rewrite E. exists (x ++ repeat SLASH (S (hd O gaps)) ++ s), c.
    split; [|exact Hc]. rewrite <- !app_assoc. reflexivity.
Qed.

Lemma endsWith_snoc (c d : N) (s : jsstring) :
  endsWith [c] (s ++ [d]) = (c =? d).
Proof.
  unfold endsWith. rewrite rev_app_distr. simpl. apply andb_true_r.
Qed.

Lemma endsWith_spaced (a : jsstring) (segs : list jsstring) (gaps : list nat) :
  Forall isSegment segs -> segs <> [] ->
  endsWith [SLASH] (a ++ spaced gaps segs) = false.
Proof.
  intros H Hn. destruct (spaced_last segs gaps H Hn) as [s [c [-> Hc]]].
  rewrite app_assoc, endsWith_snoc. apply N.eqb_neq. congruence.
Qed.

Section SegmentResolution.
Context `{NP : NodePath}.

Lemma sliceInit_prefix (b : jsstring) : exists t, b = sliceInit b ++ t.
Proof.
  destruct b as [|c b]; [exists []; reflexivity|].
  exists [List.last (c :: b) 0]. apply app_removelast_last. discriminate.
Qed.

Lemma startsWith_sliceInit (b r : jsstring) :
  startsWith (sliceInit b) (b ++ r) = true.
Proof.
  destruct (sliceInit_prefix b) as [t Ht]. apply startsWith_spec.
  exists (t ++ r). rewrite app_assoc, <- Ht. reflexivity.
Qed.

Lemma startsWith_refl (b : jsstring) : startsWith b b = true.
Proof. apply startsWith_spec. exists []. symmetry. apply app_nil_r. Qed.

(** A folder whose prefix, less its final slash, does not start the path
    is passed over by the loop. *)
Lemma matchSpecialFolder_miss (folder : SpecialFolder) (p : jsstring) (d : bool) :
  startsWith (sliceInit (normalizeVirtualFolder (virtual folder))) p = false ->
  matchSpecialFolder p d folder = None.
Proof.
  intros H. unfold matchSpecialFolder.
  set (base := normalizeVirtualFolder (virtual folder)) in *. cbv zeta.
  assert (jseq p base = false) as ->.
  { apply jseq_neq. intros ->.
    pose proof (startsWith_sliceInit base []) as E.
    rewrite app_nil_r in E. congruence. }
  assert (jseq p (sliceInit base) = false) as ->.
  { apply jseq_neq. intros ->. rewrite startsWith_refl in H. discriminate. }
  assert (startsWith base p = false) as ->; [|reflexivity].
  destruct (startsWith base p) eqn:E; [|reflexivity].
  apply startsWith_spec in E as [r ->].
  rewrite startsWith_sliceInit in H. discriminate.
Qed.

(** A path strictly below a folder's prefix is mapped onto the folder. *)
Lemma matchSpecialFolder_nested (folder : SpecialFolder) (rel : jsstring) (d : bool) :
  endsWith [SLASH] (virtual folder) = true -> rel <> [] ->
  matchSpecialFolder (virtual folder ++ rel) d folder
  = Some (Entry (path_join (fsPath folder) (filterBoolean (split SLASH rel)))
                (d || isEmpty (filterBoolean (split SLASH rel)))
                (virtual folder)).
Proof.
  intros He Hrel. unfold matchSpecialFolder, normalizeVirtualFolder.
  rewrite He. cbv zeta.
  destruct (sliceInit_prefix (virtual folder)) as [t Ht].
  assert (jseq (virtual folder ++ rel) (virtual folder) = false) as ->.
  { apply jseq_neq. intros E.
    rewrite <- (app_nil_r (virtual folder)) in E at 2.
    apply app_inv_head in E. contradiction. }
  assert (jseq (virtual folder ++ rel) (sliceInit (virtual folder)) = false) as ->.
  { apply jseq_neq. intros E. apply (f_equal (@length N)) in E.
    apply (f_equal (@length N)) in Ht. rewrite length_app in E, Ht.
    destruct rel; [contradiction|]. simpl in E. lia. }
  rewrite startsWith_app. unfold sliceFrom. rewrite drop_app_length.
  reflexivity.
Qed.

Lemma matchSpecialFolders_nested (folder : SpecialFolder) (rel : jsstring) (d : bool) :
  In folder specialFolders -> rel <> [] ->
  matchSpecialFolders (virtual folder ++ rel) d specialFolders
  = Some (Entry (path_join (fsPath folder) (filterBoolean (split SLASH rel)))
                (d || isEmpty (filterBoolean (split SLASH rel)))
                (virtual folder)).
Proof.
  intros Hin Hrel. unfold specialFolders in *.
  cbn [In] in Hin.
  repeat (destruct Hin as [<-|Hin]; [|]); try contradiction;
    cbn [matchSpecialFolders];
    repeat (first
      [ rewrite matchSpecialFolder_nested by (reflexivity || exact Hrel);
        reflexivity
      | rewrite matchSpecialFolder_miss by reflexivity ]).
Qed.

(** No special folder starts a path of the drive container. *)
Lemma matchSpecialFolders_thisPC (rest : jsstring) (d : bool) :
  matchSpecialFolders (js "local://This PC/" ++ rest) d specialFolders = None.
Proof.
  unfold specialFolders. cbn [matchSpecialFolders].
  repeat rewrite matchSpecialFolder_miss by reflexivity. reflexivity.
Qed.

Lemma spanNotSlash_segment (name rest : jsstring) :
  Forall (fun c => c <> SLASH) name ->
  spanNotSlash (name ++ SLASH :: rest) = (name, SLASH :: rest).
Proof.
  induction 1 as [|c x Hc _ IH]; [reflexivity|].
  simpl. apply N.eqb_neq in Hc. rewrite Hc.
  change (x ++ SLASH :: rest) with (x ++ SLASH :: rest) in IH.
  simpl in IH. rewrite IH. reflexivity.
Qed.

Lemma matchDrivePath_segment (name rel : jsstring) :
  isSegment name ->
  matchDrivePath (js "local://This PC/" ++ name ++ SLASH :: rel)
  = if existsb isLineTerminator rel then None else Some (name, rel).
Proof.
  intros Hn. unfold matchDrivePath. rewrite startsWith_app.
  unfold sliceFrom. rewrite drop_app_length.
  rewrite spanNotSlash_segment by (apply isSegment_no_slash; exact Hn).
  destruct name as [|c name]; [destruct Hn as [[] _]; reflexivity|].
  reflexivity.
Qed.

Lemma resolve_drive_path (name rel : jsstring) (m : gmap jsstring jsstring) :
  isSegment name -> Forall (fun c => c <> BACKSLASH) rel ->
  let p := js "local://This PC/" ++ name ++ SLASH :: rel in
  resolveLocalVirtualPath p m = driveResolution name rel p m.
Proof.
  intros Hn Hrel p. unfold resolveLocalVirtualPath, sanitizeVirtualPath.
  assert (Forall (fun c => c <> BACKSLASH) p) as Hp.
  { unfold p. apply Forall_app. split.
    - repeat constructor; discriminate.
    - apply Forall_app. split; [apply isSegment_no_backslash; exact Hn|].
      constructor; [discriminate | exact Hrel]. }
  rewrite (sanitizeFrom_clean false p Hp).
  assert (exists c t, name = c :: t) as [c [t Hname]].
  { destruct name as [|c t]; [destruct Hn as [[] _]; reflexivity | eauto]. }
  assert (startsWith (js "local://") p = true) as -> by reflexivity.
  assert (jseq p (js "local://") = false) as -> by reflexivity.
  assert (jseq p (js "local://This PC/") = false) as ->.
  { unfold p. rewrite Hname. reflexivity. }
  assert (jseq p (js "local://This PC") = false) as ->.
  { unfold p. rewrite Hname. reflexivity. }
  cbn [negb orb]. subst p. rewrite matchSpecialFolders_thisPC.
  rewrite matchDrivePath_segment by exact Hn.
  unfold driveResolution.
  destruct (existsb isLineTerminator rel); [reflexivity|].
  destruct (ensureDriveLetter name m) as [[[|c' l]|] m']; reflexivity.
Qed.

Lemma resolve_folder_path (folder : SpecialFolder) (rel : jsstring)
    (m : gmap jsstring jsstring) :
  In folder specialFolders -> rel <> [] ->
  Forall (fun c => c <> BACKSLASH) rel ->
  let p := virtual folder ++ rel in
  resolveLocalVirtualPath p m
  = (Ok (Entry (path_join (fsPath folder) (filterBoolean (split SLASH rel)))
               (endsWith [SLASH] p || isEmpty (filterBoolean (split SLASH rel)))
               (virtual folder)), m).
Proof.
  intros Hin Hne Hrel p. unfold resolveLocalVirtualPath, sanitizeVirtualPath.
  assert (exists c t, rel = c :: t) as [c [t Hc]].
  { destruct rel as [|c t]; [contradiction | eauto]. }
  assert (Forall (fun c => c <> BACKSLASH) p) as Hp.
  { unfold p. apply Forall_app. split; [|exact Hrel].
    unfold specialFolders in Hin. cbn [In] in Hin.
    repeat (destruct Hin as [<-|Hin]; [repeat constructor; discriminate|]).
    contradiction. }
  rewrite (sanitizeFrom_clean false p Hp).
  assert (startsWith (js "local://") p = true
          /\ jseq p (js "local://") = false
          /\ jseq p (js "local://This PC/") = false
          /\ jseq p (js "local://This PC") = false) as (-> & -> & -> & ->).
  { unfold p, specialFolders in *. cbn [In] in Hin. rewrite Hc.
    repeat (destruct Hin as [<-|Hin]; [repeat split; reflexivity|]).
    contradiction. }
  cbn [negb orb]. subst p.
  rewrite matchSpecialFolders_nested by assumption. reflexivity.
Qed.

End SegmentResolution.

Lemma endsWith_spaced_cons (a b : jsstring) (segs : list jsstring) (gaps : list nat) :
  Forall isSegment segs -> segs <> [] ->
  endsWith [SLASH] (a ++ b ++ SLASH :: spaced gaps segs) = false.
Proof.
  intros H Hn.
  replace (a ++ b ++ SLASH :: spaced gaps segs)
    with ((a ++ b ++ [SLASH]) ++ spaced gaps segs)
    by (rewrite <- !app_assoc; reflexivity).
  apply endsWith_spaced; assumption.
Qed.

Lemma existsb_spaced (f : N -> bool) (segs : list jsstring) (gaps : list nat) :
  f SLASH = false ->
  existsb f (spaced gaps segs) = existsb f (concat segs).
Proof.
  intros Hf. revert gaps. induction segs as [|x r IH]; intros gaps.
  - reflexivity.
  - destruct r as [|y r].
    + simpl. rewrite app_nil_r. reflexivity.
    + change (spaced gaps (x :: y :: r))
        with (x ++ repeat SLASH (S (hd O gaps)) ++ spaced (tl gaps) (y :: r)).
      change (concat (x :: y :: r)) with (x ++ concat (y :: r)).
      rewrite !existsb_app, IH. f_equal.
      assert (existsb f (repeat SLASH (S (hd O gaps))) = false) as ->;
        [|reflexivity].
      induction (S (hd O gaps)) as [|n IHn]; simpl; [reflexivity|].
      rewrite Hf. exact IHn.
Qed.

(** Below a special folder, the spaced segments resolve to the join of
    the segments onto the folder. *)
Lemma resolve_spaced_folder `{NP : NodePath}
    (m : gmap jsstring jsstring) (segs : list jsstring) (gaps : list nat)
    (folder : SpecialFolder) :
  Forall isSegment segs -> segs <> [] -> In folder specialFolders ->
  resolveLocalVirtualPath (virtual folder ++ spaced gaps segs) m
  = (Ok (Entry (path_join (fsPath folder) segs) false (virtual folder)), m).
Proof.
  intros Hsegs Hne Hin.
  rewrite resolve_folder_path;
    [|exact Hin | apply spaced_nonempty; assumption
     | apply spaced_clean; assumption].
  rewrite segments_of_spaced, endsWith_spaced by assumption.
  destruct segs; [contradiction | reflexivity].
Qed.

(** Below a drive of the container, the spaced segments resolve to the
    join of the segments onto the root of the drive, when the drive is
    known and no segment holds a line terminator. *)
Lemma resolve_spaced_drive `{NP : NodePath}
    (m : gmap jsstring jsstring) (segs : list jsstring) (gaps : list nat)
    (name : jsstring) :
  Forall isSegment segs -> segs <> [] -> isSegment name ->
  let p := js "local://This PC/" ++ name ++ SLASH :: spaced gaps segs in
  resolveLocalVirtualPath p m
  = if existsb isLineTerminator (concat segs)
    then (Err (UnsupportedLocalPath p), m)
    else match ensureDriveLetter name m with
         | (Some (c :: l), m') =>
             (Ok (Entry (path_join ((c :: l) ++ [path_sep]) segs) false
                    (js "local://This PC/" ++ name ++ [SLASH])), m')
         | (_, m') => (Err (UnknownDrive name), m')
         end.
Proof.
  intros Hsegs Hne Hname p. subst p.
  rewrite resolve_drive_path by (try apply spaced_clean; assumption).
  unfold driveResolution.
  rewrite existsb_spaced by reflexivity.
  rewrite segments_of_spaced by assumption.
  rewrite endsWith_spaced_cons by assumption.
  destruct segs; [contradiction | reflexivity].
Qed.

Lemma repeat_slash_clean (n : nat) :
  Forall (fun c => c <> BACKSLASH) (repeat SLASH n).
Proof.
  apply Forall_forall. intros c Hc%list_elem_of_In%repeat_spec. subst c.
  discriminate.
Qed.

Lemma split_slashes (n : nat) :
  filterBoolean (split SLASH (repeat SLASH n)) = [].
Proof.
  rewrite <- (app_nil_r (repeat SLASH n)), filterBoolean_split_slashes.
  reflexivity.
Qed.

Lemma segments_then_slashes (x : jsstring) (n : nat) (r : jsstring) :
  isSegment x ->
  filterBoolean (split SLASH (x ++ repeat SLASH (S n) ++ r))
  = x :: filterBoolean (split SLASH r).
Proof.
  intros Hx. pose proof (isSegment_no_slash x Hx) as Hs.
  change (x ++ repeat SLASH (S n) ++ r) with (x ++ SLASH :: (repeat SLASH n ++ r)).
  rewrite split_app_slash by exact Hs.
  destruct x as [|c x]; [destruct Hx as [[] _]; reflexivity|].
  unfold filterBoolean at 1. cbn [List.filter isEmpty negb]. f_equal.
  apply filterBoolean_split_slashes.
Qed.

(** Splitting on slashes and dropping the empty pieces gives back the
    segments, whatever the runs of slashes before, between and after. *)
Lemma segments_of_padded (segs : list jsstring) :
  forall (lead : nat) (gaps : list nat) (trail : nat),
    Forall isSegment segs ->
    filterBoolean (split SLASH (padded lead gaps trail segs)) = segs.
Proof.
  intros lead gaps trail H. unfold padded.
  rewrite filterBoolean_split_slashes. revert gaps.
  induction H as [|x r Hx Hr IH]; intros gaps.
  - apply split_slashes.
  - destruct r as [|y r].
    + cbn [spaced]. destruct trail as [|k].
      * cbn [repeat]. rewrite app_nil_r.
        rewrite split_clean by (apply isSegment_no_slash; exact Hx).
        destruct x; [destruct Hx as [[] _]; reflexivity | reflexivity].
      * rewrite <- (app_nil_r (repeat SLASH (S k))).
        rewrite segments_then_slashes by exact Hx. reflexivity.
    + change (spaced gaps (x :: y :: r))
        with (x ++ repeat SLASH (S (hd O gaps)) ++ spaced (tl gaps) (y :: r)).
      rewrite <- !app_assoc.
      rewrite segments_then_slashes by exact Hx. f_equal. apply IH.
Qed.

Lemma padded_clean (segs : list jsstring) (lead : nat) (gaps : list nat)
    (trail : nat) :
  Forall isSegment segs ->
  Forall (fun c => c <> BACKSLASH) (padded lead gaps trail segs).
Proof.
  intros H. unfold padded.
  apply Forall_app. split; [apply repeat_slash_clean|].
  apply Forall_app. split; [apply spaced_clean; exact H | apply repeat_slash_clean].
Qed.

(** A path with segments ends with a slash exactly when slashes follow the
    last segment. *)
Lemma endsWith_padded (a : jsstring) (segs : list jsstring) (lead : nat)
    (gaps : list nat) (trail : nat) :
  Forall isSegment segs -> segs <> [] ->
  endsWith [SLASH] (a ++ padded lead gaps trail segs) = negb (Nat.eqb trail 0).
Proof.
  intros H Hn. unfold padded. destruct trail as [|k].
  - cbn [repeat Nat.eqb negb]. rewrite app_nil_r, app_assoc.
    apply endsWith_spaced; assumption.
  - cbn [Nat.eqb negb]. change (repeat SLASH (S k)) with (SLASH :: repeat SLASH k).
    rewrite repeat_cons, !app_assoc. apply endsWith_snoc.
Qed.

Lemma existsb_repeat_slash (f : N -> bool) (n : nat) :
  f SLASH = false -> existsb f (repeat SLASH n) = false.
Proof.
  intros Hf. induction n as [|n IH]; cbn [repeat existsb]; [reflexivity|].
  rewrite Hf. exact IH.
Qed.

Lemma existsb_padded (f : N -> bool) (segs : list jsstring) (lead : nat)
    (gaps : list nat) (trail : nat) :
  f SLASH = false ->
  existsb f (padded lead gaps trail segs) = existsb f (concat segs).
Proof.
  intros Hf. unfold padded.
  rewrite !existsb_app, !existsb_repeat_slash by exact Hf.
  rewrite existsb_spaced by exact Hf. cbn [orb]. apply orb_false_r.
Qed.

Lemma padded_nonempty (segs : list jsstring) (lead : nat) (gaps : list nat)
    (trail : nat) :
  Forall isSegment segs -> segs <> [] -> padded lead gaps trail segs <> [].
Proof.
  intros H Hn E. unfold padded in E.
  apply app_eq_nil in E as [_ E]. apply app_eq_nil in E as [E _].
  exact (spaced_nonempty segs gaps H Hn E).
Qed.

(** Below a special folder, whatever the runs of slashes. *)
Lemma resolve_padded_folder `{NP : NodePath}
    (m : gmap jsstring jsstring) (segs : list jsstring)
    (lead : nat) (gaps : list nat) (trail : nat) (folder : SpecialFolder) :
  Forall isSegment segs -> segs <> [] -> In folder specialFolders ->
  resolveLocalVirtualPath (virtual folder ++ padded lead gaps trail segs) m
  = (Ok (Entry (path_join (fsPath folder) segs) (negb (Nat.eqb trail 0))
           (virtual folder)), m).
Proof.
  intros Hsegs Hne Hin.
  rewrite resolve_folder_path;
    [|exact Hin | apply padded_nonempty; assumption
     | apply padded_clean; assumption].
  rewrite segments_of_padded, endsWith_padded by assumption.
  destruct segs; [contradiction|]. cbn [isEmpty]. rewrite orb_false_r.
  reflexivity.
Qed.

(** Below a drive of the container, whatever the runs of slashes after the
    slash that ends the name of the drive. *)
Lemma resolve_padded_drive `{NP : NodePath}
    (m : gmap jsstring jsstring) (segs : list jsstring)
    (lead : nat) (gaps : list nat) (trail : nat) (name : jsstring) :
  Forall isSegment segs -> segs <> [] -> isSegment name ->
  let p := js "local://This PC/" ++ name ++ SLASH :: padded lead gaps trail segs in
  resolveLocalVirtualPath p m
  = if existsb isLineTerminator (concat segs)
    then (Err (UnsupportedLocalPath p), m)
    else match ensureDriveLetter name m with
         | (Some (c :: l), m') =>
             (Ok (Entry (path_join ((c :: l) ++ [path_sep]) segs)
                    (negb (Nat.eqb trail 0))
                    (js "local://This PC/" ++ name ++ [SLASH])), m')
         | (_, m') => (Err (UnknownDrive name), m')
         end.
Proof.
  intros Hsegs Hne Hname p. subst p.
  rewrite resolve_drive_path by (try apply padded_clean; assumption).
  unfold driveResolution.
  rewrite existsb_padded by reflexivity.
  rewrite segments_of_padded by assumption.
  replace (js "local://This PC/" ++ name ++ SLASH :: padded lead gaps trail segs)
    with ((js "local://This PC/" ++ name ++ [SLASH]) ++ padded lead gaps trail segs)
    by (rewrite <- !app_assoc; reflexivity).
  rewrite endsWith_padded by assumption.
  destruct segs; [contradiction|]. cbn [isEmpty]. rewrite orb_false_r.
  reflexivity.
Qed.

(** The scenario: a folder of the system drive, through its alias. *)
Example resolve_users :
  fst (resolveLocalVirtualPath (js "local://This PC/Local Disk (C:)/Users/")
         initialAliases)
  = Ok (Entry (js "C:\Users") true (js "local://This PC/Local Disk (C:)/")).
Proof. vm_compute. reflexivity. Qed.




(** ** Listing *)

Section Listing.
Context `{NP : NodePath} `{FS : NodeFs}.

Lemma handleListDirectory_file (p : jsstring) (s : State) f b m' :
  resolveLocalVirtualPath p (driveAliasMap s) = (Ok (Entry f false b), m') ->
  handleListDirectory p s
  = (Err CannotListFile, {| driveAliasMap := m'; world := world s |}).
Proof.
  intros H. unfold handleListDirectory, bind, resolve. rewrite H. reflexivity.
Qed.

End Listing.

(** C9: a path that resolves to an entry classified as a file cannot be
    listed: [handleListDirectory] throws, and does so in particular for
    every path with at least one segment and no final slash below a special
    folder or below a drive of the container; a call that returns a list
    was given the root, the drive container or an entry classified as a
    directory. *)
Theorem listing_a_file_path_throws `{NP : NodePath} `{FS : NodeFs}
    (p : jsstring) (s : State) :
  (forall f b m',
     resolveLocalVirtualPath p (driveAliasMap s) = (Ok (Entry f false b), m') ->
     fst (handleListDirectory p s) = Err CannotListFile)
  /\ (forall segs folder, Forall isSegment segs -> segs <> [] ->
        In folder specialFolders -> p = virtual folder ++ joined segs ->
        fst (handleListDirectory p s) = Err CannotListFile)
  /\ (forall segs name r m', Forall isSegment segs -> segs <> [] ->
        isSegment name ->
        p = js "local://This PC/" ++ name ++ SLASH :: joined segs ->
        resolveLocalVirtualPath p (driveAliasMap s) = (Ok r, m') ->
        fst (handleListDirectory p s) = Err CannotListFile)
  /\ (forall l s', handleListDirectory p s = (Ok l, s') ->
        exists r, fst (resolveLocalVirtualPath p (driveAliasMap s)) = Ok r
                  /\ (r = Root \/ r = Drives \/ exists f b, r = Entry f true b)).
Proof.
  repeat split.
  - intros f b m' H. rewrite (handleListDirectory_file p s f b m' H). reflexivity.
  - intros segs folder Hs Hne Hin ->. unfold joined.
    rewrite (handleListDirectory_file _ s _ _ _
               (resolve_spaced_folder (driveAliasMap s) segs [] folder Hs Hne Hin)).
    reflexivity.
  - intros segs name r m' Hs Hne Hname -> Hr.
    assert (exists f b, r = Entry f false b) as (f & b & ->).
    { unfold joined in Hr.
      rewrite (resolve_spaced_drive (driveAliasMap s) segs [] name Hs Hne Hname)
        in Hr.
      destruct (existsb isLineTerminator (concat segs)); [discriminate|].
      destruct (ensureDriveLetter name (driveAliasMap s)) as [[[|c l]|] m1];
        try discriminate.
      injection Hr as <- <-. eauto. }
    rewrite (handleListDirectory_file _ s _ _ _ Hr). reflexivity.
  - intros l s'. unfold handleListDirectory, bind, resolve.
    destruct (resolveLocalVirtualPath p (driveAliasMap s)) as [[r|e] m'];
      [|discriminate].
    intros H. exists r. split; [reflexivity|].
    destruct r as [| |f [|] b]; eauto. discriminate.
Qed.

Lemma listing_a_file_path_throws_witness :
  fst (handleListDirectory (js "local://Desktop/a.txt") sampleState)
  = Err CannotListFile.
Proof.
  refine (proj1 (proj2 (listing_a_file_path_throws
                          (js "local://Desktop/a.txt") sampleState))
            [js "a.txt"]
            {| label := js "Desktop"; virtual := js "local://Desktop/";
               fsPath := path_join os_homedir [js "Desktop"] |} _ _ _ _).
  - repeat constructor; discriminate.
  - discriminate.
  - left. reflexivity.
  - reflexivity.
Defined.

(** ** Sorting with a comparator *)

Section SortFacts.
Context {A : Type} (cmp : A -> A -> Z).

Lemma insertSorted_perm (x : A) (l : list A) :
  Permutation (insertSorted cmp x l) (x :: l).
Proof.
  induction l as [|y r IH]; simpl; [reflexivity|].
  destruct (cmp x y <=? 0)%Z; [reflexivity|].
  rewrite IH. apply perm_swap.
Qed.

Lemma sortWith_perm (l : list A) : Permutation (sortWith cmp l) l.
Proof.
  induction l as [|x r IH]; simpl; [reflexivity|].
  rewrite insertSorted_perm, IH. reflexivity.
Qed.

Hypothesis before_total : forall a b, before cmp a b \/ before cmp b a.
Hypothesis before_trans :
  forall a b c, before cmp a b -> before cmp b c -> before cmp a c.

Lemma insertSorted_sorted (x : A) (l : list A) :
  StronglySorted (before cmp) l -> StronglySorted (before cmp) (insertSorted cmp x l).
Proof.
  induction 1 as [|y r Hr IH Hy]; simpl.
  - repeat constructor.
  - destruct (cmp x y <=? 0)%Z eqn:E.
    + apply Z.leb_le in E. constructor; [constructor; assumption|].
      constructor; [exact E|].
      eapply Forall_impl; [exact Hy|]. intros z. simpl. apply before_trans, E.
    + apply Z.leb_gt in E. constructor; [exact IH|].
      rewrite insertSorted_perm. constructor; [|exact Hy].
      destruct (before_total y x) as [H|H]; [exact H|].
      unfold before in H. lia.
Qed.

Lemma sortWith_sorted (l : list A) : StronglySorted (before cmp) (sortWith cmp l).
Proof.
  induction l as [|x r IH]; simpl; [constructor|].
  apply insertSorted_sorted, IH.
Qed.

End SortFacts.

(** ** Directory listings *)

Section ReadDirectory.
Context `{NP : NodePath} `{FS : NodeFs}.

Lemma readDirectory_unfold (fsPath virtualBase : jsstring) (s : State) :
  readDirectory fsPath virtualBase s
  = (Ok match fs_readdir fsPath (world s) with
        | inr dirEntries =>
            sortWith compareEntries
              (filterNulls
                 (List.map (entryOfDirent fsPath
                              (normalizeVirtualFolder virtualBase) (world s))
                    dirEntries))
        | inl _ => []
        end, s).
Proof.
  reflexivity.
Qed.

Lemma kept_names (fsPath base : jsstring) (w : World) (ds : list Dirent) :
  List.map fe_name (filterNulls (List.map (entryOfDirent fsPath base w) ds))
  = List.map d_name (List.filter (statSucceeds fsPath w) ds).
Proof.
  induction ds as [|d ds IH]; [reflexivity|].
  cbn [List.map List.filter filterNulls].
  unfold entryOfDirent at 1, statSucceeds at 1.
  destruct (fs_stat (path_join fsPath [d_name d]) w);
    cbn [List.map]; rewrite IH; reflexivity.
Qed.

(** An entry is folder-typed exactly when its directory entry is a
    directory. *)
Lemma inferFileType_folder (name : jsstring) (isDirectory : bool) :
  isFolder (inferFileType name isDirectory) = isDirectory.
Proof.
  unfold inferFileType. destruct isDirectory; [reflexivity|].
  repeat case_match; reflexivity.
Qed.

End ReadDirectory.

(** C7: [readDirectory] never throws and never changes the state.  When
    reading the directory itself fails it returns the empty list; otherwise
    the names it lists are those of the children whose [stat] succeeded, a
    child whose [stat] failed being left out without an error. *)
Theorem readDirectory_tolerates_failures `{NP : NodePath} `{FS : NodeFs}
    (fsPath virtualBase : jsstring) (s : State) :
  exists l,
    readDirectory fsPath virtualBase s = (Ok l, s)
    /\ match fs_readdir fsPath (world s) with
       | inl _ => l = []
       | inr dirEntries =>
           Permutation (List.map fe_name l)
             (List.map d_name
                (List.filter (statSucceeds fsPath (world s)) dirEntries))
       end.
Proof.
  rewrite readDirectory_unfold. eexists. split; [reflexivity|].
  destruct (fs_readdir fsPath (world s)) as [e|ds]; [reflexivity|].
  rewrite <- (kept_names fsPath (normalizeVirtualFolder virtualBase)).
  apply Permutation_map, sortWith_perm.
Qed.

Section ListingOrder.
Context `{NP : NodePath}.

Hypothesis compare_total :
  forall a b : jsstring, (localeCompare a b <= 0 \/ localeCompare b a <= 0)%Z.
Hypothesis compare_trans :
  forall a b c : jsstring,
    (localeCompare a b <= 0 -> localeCompare b c <= 0 -> localeCompare a c <= 0)%Z.

Lemma compareEntries_total (a b : FileEntry) :
  before compareEntries a b \/ before compareEntries b a.
Proof.
  unfold before, compareEntries.
  destruct (isFolder (fe_type a)), (isFolder (fe_type b)); simpl;
    try (left; lia); try (right; lia); apply compare_total.
Qed.

Lemma compareEntries_trans (a b c : FileEntry) :
  before compareEntries a b -> before compareEntries b c ->
  before compareEntries a c.
Proof.
  unfold before, compareEntries.
  destruct (isFolder (fe_type a)), (isFolder (fe_type b)),
    (isFolder (fe_type c)); simpl; try lia; apply compare_trans.
Qed.

(** A list in the order of the comparator is its folders, by name, followed
    by its other entries, by name. *)
Lemma sorted_folders_first (l : list FileEntry) :
  StronglySorted (before compareEntries) l ->
  exists folders files,
    l = folders ++ files
    /\ Forall (fun e => isFolder (fe_type e) = true) folders
    /\ Forall (fun e => isFolder (fe_type e) = false) files
    /\ StronglySorted byName folders
    /\ StronglySorted byName files.
Proof.
  induction 1 as [|x r Hr IH Hx].
  - exists [], []. repeat split; constructor.
  - destruct IH as (fo & fi & -> & Hfo & Hfi & Sfo & Sfi).
    apply Forall_app in Hx as [Hxo Hxi].
    destruct (isFolder (fe_type x)) eqn:Ex.
    + exists (x :: fo), fi. repeat split; try assumption.
      * constructor; assumption.
      * constructor; [exact Sfo|].
        apply Forall_forall. intros y Hy.
        rewrite Forall_forall in Hxo, Hfo.
        specialize (Hxo y Hy). specialize (Hfo y Hy).
        unfold before, compareEntries in Hxo. rewrite Ex, Hfo in Hxo.
        exact Hxo.
    + assert (fo = []) as ->.
      { destruct fo as [|y fo]; [reflexivity|]. exfalso.
        inversion Hxo as [|? ? Hy _]; subst.
        inversion Hfo as [|? ? Ey _]; subst.
        unfold before, compareEntries in Hy. rewrite Ex, Ey in Hy.
        simpl in Hy. lia. }
      exists [], (x :: fi). repeat split; try assumption.
      * constructor; assumption.
      * constructor; [exact Sfi|].
        apply Forall_forall. intros y Hy.
        rewrite Forall_forall in Hxi, Hfi.
        specialize (Hxi y Hy). specialize (Hfi y Hy).
        unfold before, compareEntries in Hxi. rewrite Ex, Hfi in Hxi.
        exact Hxi.
Qed.

End ListingOrder.

(** C6: provided [localeCompare] is a consistent comparator (any two names
    are comparable, and the comparison is transitive), the list
    [readDirectory] returns is its folder-typed entries, sorted by name,
    followed by its other entries, sorted by name; and it holds exactly the
    children that were kept, so the order is that of the list after
    filtering. *)
Theorem readDirectory_folders_first `{NP : NodePath} `{FS : NodeFs}
    (fsPath virtualBase : jsstring) (s : State) :
  (forall a b : jsstring, (localeCompare a b <= 0 \/ localeCompare b a <= 0)%Z) ->
  (forall a b c : jsstring,
     (localeCompare a b <= 0 -> localeCompare b c <= 0 -> localeCompare a c <= 0)%Z) ->
  exists folders files,
    readDirectory fsPath virtualBase s = (Ok (folders ++ files), s)
    /\ Forall (fun e => fe_type e = T_folder) folders
    /\ Forall (fun e => fe_type e <> T_folder) files
    /\ StronglySorted byName folders
    /\ StronglySorted byName files
    /\ Permutation (folders ++ files)
         (match fs_readdir fsPath (world s) with
          | inr dirEntries =>
              filterNulls
                (List.map (entryOfDirent fsPath
                             (normalizeVirtualFolder virtualBase) (world s))
                   dirEntries)
          | inl _ => []
          end).
Proof.
  intros Htotal Htrans. rewrite readDirectory_unfold.
  set (kept := match fs_readdir fsPath (world s) with
               | inr dirEntries =>
                   filterNulls
                     (List.map (entryOfDirent fsPath
                                  (normalizeVirtualFolder virtualBase) (world s))
                        dirEntries)
               | inl _ => []
               end).
  assert (match fs_readdir fsPath (world s) with
          | inr dirEntries =>
              sortWith compareEntries
                (filterNulls
                   (List.map (entryOfDirent fsPath
                                (normalizeVirtualFolder virtualBase) (world s))
                      dirEntries))
          | inl _ => []
          end = sortWith compareEntries kept) as ->.
  { unfold kept. destruct (fs_readdir fsPath (world s)); reflexivity. }
  destruct (sorted_folders_first (sortWith compareEntries kept))
    as (fo & fi & E & Hfo & Hfi & Sfo & Sfi).
  { apply sortWith_sorted.
    - apply compareEntries_total, Htotal.
    - apply compareEntries_trans, Htrans. }
  exists fo, fi. rewrite <- E. repeat split; try assumption.
  - eapply Forall_impl; [exact Hfo|]. intros e. simpl.
    destruct (fe_type e); simpl; congruence.
  - eapply Forall_impl; [exact Hfi|]. intros e. simpl.
    destruct (fe_type e); simpl; congruence.
  - apply sortWith_perm.
Qed.

Lemma compareFolded_total (a b : jsstring) :
  (Win32.compareFolded a b <= 0 \/ Win32.compareFolded b a <= 0)%Z.
Proof.
  revert b. induction a as [|x a IH]; intros [|y b]; simpl; try (left; lia);
    try (right; lia).
  destruct (Win32.lowerUnit x <? Win32.lowerUnit y) eqn:E1;
    destruct (Win32.lowerUnit y <? Win32.lowerUnit x) eqn:E2;
    try (left; lia); try (right; lia).
  apply IH.
Qed.

Lemma compareFolded_trans (a b c : jsstring) :
  (Win32.compareFolded a b <= 0 -> Win32.compareFolded b c <= 0 ->
   Win32.compareFolded a c <= 0)%Z.
Proof.
  revert b c. induction a as [|x a IH]; intros [|y b] [|z c]; simpl; try lia.
  destruct (Win32.lowerUnit x <? Win32.lowerUnit y) eqn:E1;
    destruct (Win32.lowerUnit y <? Win32.lowerUnit x) eqn:E2;
    destruct (Win32.lowerUnit y <? Win32.lowerUnit z) eqn:E3;
    destruct (Win32.lowerUnit z <? Win32.lowerUnit y) eqn:E4;
    destruct (Win32.lowerUnit x <? Win32.lowerUnit z) eqn:E5;
    destruct (Win32.lowerUnit z <? Win32.lowerUnit x) eqn:E6;
    try lia;
    rewrite ?N.ltb_lt, ?N.ltb_ge in *; try lia.
  apply IH.
Qed.

Lemma readDirectory_folders_first_witness :
  exists folders files,
    readDirectory (js "C:\Users\me\Desktop") (js "local://Desktop/") sampleState
    = (Ok (folders ++ files), sampleState)
    /\ Forall (fun e => fe_type e = T_folder) folders
    /\ Forall (fun e => fe_type e <> T_folder) files
    /\ StronglySorted byName folders
    /\ StronglySorted byName files
    /\ Permutation (folders ++ files)
         (match fs_readdir (js "C:\Users\me\Desktop") (world sampleState) with
          | inr dirEntries =>
              filterNulls
                (List.map (entryOfDirent (js "C:\Users\me\Desktop")
                             (normalizeVirtualFolder (js "local://Desktop/"))
                             (world sampleState))
                   dirEntries)
          | inl _ => []
          end).
Proof.
  exact (readDirectory_folders_first (js "C:\Users\me\Desktop")
           (js "local://Desktop/") sampleState
           compareFolded_total compareFolded_trans).
Defined.

(** The scenario of the specification: the desktop lists its folder before
    its file. *)
Example listDirectory_desktop :
  List.map (fun e => (fe_name e, fe_type e, fe_size e))
    (match handleListDirectory (js "local://Desktop/") sampleState with
     | (Ok l, _) => l
     | (Err _, _) => []
     end)
  = [(js "sub", T_folder, None); (js "a.txt", T_document, Some 2)].
Proof. vm_compute. reflexivity. Qed.

(** ** Copy and move *)

Section CopyMove.
Context `{NP : NodePath} `{FS : NodeFs}.

Lemma awaitWrite_error f (s s' : State) e :
  awaitWrite f s = (Err e, s') -> isValidationError e = false.
Proof.
  unfold awaitWrite. destruct (f (world s)) as [[ne|] w]; intros [= <- <-];
    reflexivity.
Qed.

Lemma awaitRead_error {A} (f : World -> NodeError + A) (s s' : State) e :
  awaitRead f s = (Err e, s') -> isValidationError e = false.
Proof.
  unfold awaitRead. destruct (f (world s)) as [ne|a]; intros [= <- <-];
    reflexivity.
Qed.

Lemma bind_error {A B} (m : IO A) (k : A -> IO B) (s s' : State) e :
  bind m k s = (Err e, s') ->
  m s = (Err e, s') \/ exists a s1, m s = (Ok a, s1) /\ k a s1 = (Err e, s').
Proof.
  unfold bind. destruct (m s) as [[a|e1] s1]; intros H.
  - right. eauto.
  - left. injection H as -> ->. reflexivity.
Qed.

Lemma copyEntry_error a b (s s' : State) e :
  copyEntry a b s = (Err e, s') -> isValidationError e = false.
Proof.
  unfold copyEntry. intros [H|(st & s1 & _ & H)]%bind_error.
  - eapply awaitRead_error, H.
  - destruct (st_isDirectory st).
    + eapply awaitWrite_error, H.
    + apply bind_error in H as [H|(? & ? & _ & H)];
        eapply awaitWrite_error, H.
Qed.

Lemma moveEntry_error a b (s s' : State) e :
  moveEntry a b s = (Err e, s') -> isValidationError e = false.
Proof.
  unfold moveEntry. intros [H|(? & s1 & _ & H)]%bind_error.
  - eapply awaitWrite_error, H.
  - destruct (fs_rename a b (world s1)) as [[ne|] w]; [|discriminate].
    destruct (jseq (code ne) (js "EXDEV")).
    + apply bind_error in H as [H|(? & ? & _ & H)].
      * eapply copyEntry_error, H.
      * eapply awaitWrite_error, H.
    + injection H as <- <-. reflexivity.
Qed.

(** One iteration on a source that resolves to an entry whose [stat]
    succeeds. *)
Lemma processSource_entry isMove destVirtual destFsPath results src
    (s : State) f d b m' stats :
  resolveLocalVirtualPath src (driveAliasMap s) = (Ok (Entry f d b), m') ->
  fs_stat f (world s) = inr stats ->
  processSource isMove destVirtual destFsPath results src s
  = if jseq (path_resolve f) (path_resolve (targetOf destFsPath f))
    then (Ok results, withAliases s m')
    else if startsWith (path_resolve f ++ [path_sep])
              (path_resolve (targetOf destFsPath f))
    then (Err SelfContainment, withAliases s m')
    else bind (if isMove then moveEntry f (targetOf destFsPath f)
               else copyEntry f (targetOf destFsPath f))
           (fun _ => ret (results ++
              [{| source := src;
                  destination :=
                    destVirtual ++ path_basename f ++
                    (if st_isDirectory stats then [SLASH] else []) |}]))
           (withAliases s m').
Proof.
  intros Hr Hs. unfold processSource, bind at 1, resolve. rewrite Hr.
  unfold bind at 1, awaitRead. cbn [world]. rewrite Hs.
  unfold targetOf.
  destruct (jseq _ _); [reflexivity|].
  destruct (startsWith _ _); reflexivity.
Qed.

(** A source that does not resolve to an entry stops the iteration before
    the filesystem is touched. *)
Lemma processSource_unresolved isMove destVirtual destFsPath results src
    (s s' : State) e :
  processSource isMove destVirtual destFsPath results src s = (Err e, s') ->
  isValidationError e = true -> world s' = world s.
Proof.
  unfold processSource, bind at 1, resolve.
  destruct (resolveLocalVirtualPath src (driveAliasMap s)) as [[r|e0] m'].
  - destruct r as [| |f d b]; try (intros [= <- <-]; reflexivity).
    unfold bind at 1, awaitRead. cbn [world].
    destruct (fs_stat f (world s)) as [ne|stats].
    + intros [= <- <-]. reflexivity.
    + destruct (jseq _ _); [discriminate|].
      destruct (startsWith _ _); [intros [= <- <-]; reflexivity|].
      intros [H|(? & ? & _ & [=])]%bind_error Hv.
      destruct isMove.
      * apply moveEntry_error in H. congruence.
      * apply copyEntry_error in H. congruence.
  - intros [= <- <-]. reflexivity.
Qed.

(** The loop stops at the first source whose iteration throws. *)
Lemma processSources_error isMove destVirtual destFsPath srcs :
  forall results (s s' : State) e,
  processSources isMove destVirtual destFsPath results srcs s = (Err e, s') ->
  exists pre src post results' s1,
    srcs = pre ++ src :: post
    /\ processSources isMove destVirtual destFsPath results pre s = (Ok results', s1)
    /\ processSource isMove destVirtual destFsPath results' src s1 = (Err e, s').
Proof.
  induction srcs as [|src rest IH]; intros results s s' e; simpl.
  - discriminate.
  - intros [H|(r1 & s1 & H1 & H)]%bind_error.
    + exists [], src, rest, results, s.
      split; [reflexivity|]. split; [reflexivity | exact H].
    + destruct (IH _ _ _ _ H) as (pre & x & post & r' & s2 & -> & Hpre & Hx).
      exists (src :: pre), x, post, r', s2.
      split; [reflexivity|]. split; [|exact Hx].
      simpl. unfold bind. rewrite H1. exact Hpre.
Qed.

Lemma processSources_app isMove destVirtual destFsPath pre :
  forall rest results (s : State) results' s1,
  processSources isMove destVirtual destFsPath results pre s = (Ok results', s1) ->
  processSources isMove destVirtual destFsPath results (pre ++ rest) s
  = processSources isMove destVirtual destFsPath results' rest s1.
Proof.
  induction pre as [|x pre IH]; intros rest results s results' s1; simpl.
  - intros [= <- <-]. reflexivity.
  - unfold bind.
    destruct (processSource isMove destVirtual destFsPath results x s)
      as [[r|e] s2]; [|discriminate].
    apply IH.
Qed.

(** Once the destination is prepared, the call is the loop. *)
Lemma performCopyOrMove_prepared (payload : CopyPayload) (s0 s1 : State) df :
  destinationPrepared payload s0 df s1 ->
  performCopyOrMove payload s0
  = processSources (move payload) (normalizeDestinationVirtual (dest payload))
      df [] (sources payload) s1.
Proof.
  intros (Hne & b & Hr & Hw). unfold performCopyOrMove.
  destruct (sources payload) as [|x xs] eqn:Es; [contradiction|]. cbn [isEmpty].
  unfold bind at 1, resolve. rewrite Hr.
  unfold bind at 1, pathExists, readFs. cbn [world].
  destruct s1 as [m1 w1]. cbn [driveAliasMap world] in *.
  destruct Hw as [[Ha ->]|[Ha Hm]]; rewrite Ha; cbn [negb].
  - unfold bind at 1, ret. reflexivity.
  - unfold bind at 1, ensureDirectory, awaitWrite. cbn [world driveAliasMap].
    rewrite Hm. reflexivity.
Qed.

(** What a call does before the loop: it fails on its input without
    touching the filesystem, or fails creating the destination, or enters
    the loop with the destination prepared. *)
Lemma performCopyOrMove_cases (payload : CopyPayload) (s0 s' : State) r :
  performCopyOrMove payload s0 = (r, s') ->
  (exists e, r = Err e /\ isValidationError e = true /\ world s' = world s0)
  \/ (exists e, r = Err e /\ isValidationError e = false)
  \/ (exists df s1, destinationPrepared payload s0 df s1
        /\ processSources (move payload)
             (normalizeDestinationVirtual (dest payload)) df []
             (sources payload) s1 = (r, s')).
Proof.
  unfold performCopyOrMove.
  destruct (sources payload) as [|x xs] eqn:Es; cbn [isEmpty].
  { intros [= <- <-]. left. eexists. repeat split. }
  unfold bind at 1, resolve.
  destruct (resolveLocalVirtualPath _ (driveAliasMap s0)) as [[ri|e] m1] eqn:Hr.
  2:{ intros [= <- <-]. left. exists e. repeat split.
      unfold resolveLocalVirtualPath in Hr. revert Hr.
      repeat case_match; intros [= <- <-]; reflexivity. }
  destruct ri as [| |df [|] b];
    try (intros [= <- <-]; left; eexists; repeat split).
  unfold bind at 1, pathExists, readFs. cbn [world].
  destruct (fs_access df (world s0)) eqn:Ha; cbn [negb].
  - unfold bind at 1, ret. intros H. right. right.
    exists df, {| driveAliasMap := m1; world := world s0 |}.
    split; [|exact H]. split; [rewrite Es; discriminate|].
    exists b. split; [exact Hr|]. left. split; [exact Ha | reflexivity].
  - unfold bind at 1, ensureDirectory, awaitWrite. cbn [world driveAliasMap].
    destruct (fs_mkdir df (world s0)) as [[ne|] w1] eqn:Hm.
    + intros [= <- <-]. right. left. eexists. split; reflexivity.
    + intros H. right. right.
      exists df, {| driveAliasMap := m1; world := w1 |}.
      split; [|exact H]. split; [rewrite Es; discriminate|].
      exists b. split; [exact Hr|]. right. split; [exact Ha | exact Hm].
Qed.

End CopyMove.

Lemma startsWith_longer (a : jsstring) (c : N) (b : jsstring) :
  startsWith (a ++ [c]) b = true -> jseq a b = false.
Proof.
  intros [r ->]%startsWith_spec. apply jseq_neq. intros E.
  apply (f_equal (@length N)) in E. rewrite !length_app in E. simpl in E. lia.
Qed.

(** The errors of the resolver. *)
Lemma resolve_errors `{NP : NodePath} (p : jsstring)
    (m m' : gmap jsstring jsstring) (e : error) :
  resolveLocalVirtualPath p m = (Err e, m') ->
  (exists q, e = UnsupportedScheme q) \/ (exists n, e = UnknownDrive n)
  \/ (exists q, e = UnsupportedLocalPath q).
Proof.
  unfold resolveLocalVirtualPath.
  repeat case_match; intros [= <- <-]; eauto.
Qed.

(** The self-containment error comes from the test of the two resolved
    paths only. *)
Lemma self_containment_only_if `{NP : NodePath} `{FS : NodeFs}
    (isMove : bool) (destVirtual destFsPath : jsstring)
    (results : list CopiedItem) (src : jsstring) (s : State) :
  fst (processSource isMove destVirtual destFsPath results src s)
    = Err SelfContainment ->
  exists f d b m',
    resolveLocalVirtualPath src (driveAliasMap s) = (Ok (Entry f d b), m')
    /\ startsWith (path_resolve f ++ [path_sep])
         (path_resolve (targetOf destFsPath f)) = true.
Proof.
  unfold processSource, bind at 1, resolve.
  destruct (resolveLocalVirtualPath src (driveAliasMap s)) as [[r|e0] m']
    eqn:Hr.
  - destruct r as [| |f d b]; try discriminate.
    unfold bind at 1, awaitRead. cbn [world].
    destruct (fs_stat f (world s)) as [ne|stats]; [discriminate|].
    fold (targetOf destFsPath f).
    destruct (jseq _ _); [discriminate|].
    destruct (startsWith _ _) eqn:E; [intros _; exists f, d, b, m'; eauto|].
    unfold bind.
    destruct ((if isMove then moveEntry f (targetOf destFsPath f)
               else copyEntry f (targetOf destFsPath f)) _)
      as [[[]|e] s2] eqn:Em; [discriminate|].
    simpl. intros [= ->]. exfalso.
    destruct isMove.
    + apply moveEntry_error in Em. discriminate.
    + apply copyEntry_error in Em. discriminate.
  - simpl. intros [= ->]. exfalso.
    destruct (resolve_errors _ _ _ _ Hr) as [[q H]|[[n H]|[q H]]];
      discriminate.
Qed.

(** C2: for a source the loop processes (it resolved to an entry and its
    [stat] succeeded), the iteration throws the self-containment error if
    and only if the resolved target path (the destination directory joined
    with the basename of the source) starts with the resolved source path
    followed by the path separator; and when it does, the whole call fails
    with that error, in the state the iteration was entered in: nothing is
    copied or moved for this source, and no later source is processed.
    No iteration throws that error otherwise. *)
Theorem self_containment_iff `{NP : NodePath} `{FS : NodeFs}
    (isMove : bool) (destVirtual destFsPath : jsstring)
    (results : list CopiedItem) (src : jsstring) (s : State)
    (f : jsstring) (d : bool) (b : jsstring) (m' : gmap jsstring jsstring)
    (stats : Stats) :
  resolveLocalVirtualPath src (driveAliasMap s) = (Ok (Entry f d b), m') ->
  fs_stat f (world s) = inr stats ->
  (fst (processSource isMove destVirtual destFsPath results src s)
     = Err SelfContainment
   <-> startsWith (path_resolve f ++ [path_sep])
         (path_resolve (targetOf destFsPath f)) = true)
  /\ (forall payload s0 s1 pre post,
        startsWith (path_resolve f ++ [path_sep])
          (path_resolve (targetOf destFsPath f)) = true ->
        destinationPrepared payload s0 destFsPath s1 ->
        sources payload = pre ++ src :: post ->
        isMove = move payload ->
        destVirtual = normalizeDestinationVirtual (dest payload) ->
        processSources isMove destVirtual destFsPath [] pre s1 = (Ok results, s) ->
        performCopyOrMove payload s0 = (Err SelfContainment, withAliases s m'))
  /\ (forall results' src' (s2 : State),
        fst (processSource isMove destVirtual destFsPath results' src' s2)
          = Err SelfContainment ->
        exists f' d' b' m2,
          resolveLocalVirtualPath src' (driveAliasMap s2)
            = (Ok (Entry f' d' b'), m2)
          /\ startsWith (path_resolve f' ++ [path_sep])
               (path_resolve (targetOf destFsPath f')) = true).
Proof.
  intros Hr Hs.
  pose proof (processSource_entry isMove destVirtual destFsPath results src s
                f d b m' stats Hr Hs) as E.
  split.
  - rewrite E. split.
    + destruct (jseq _ _); [discriminate|].
      destruct (startsWith _ _); [reflexivity|].
      unfold bind.
      destruct ((if isMove then moveEntry f (targetOf destFsPath f)
                 else copyEntry f (targetOf destFsPath f)) (withAliases s m'))
        as [[[]|e] s2] eqn:Em; [discriminate|].
      simpl. intros [= ->]. exfalso.
      destruct isMove.
      * apply moveEntry_error in Em. discriminate.
      * apply copyEntry_error in Em. discriminate.
    + intros H. rewrite (startsWith_longer _ _ _ H), H. reflexivity.
  - split; [|intros results' src' s2; apply self_containment_only_if].
    intros payload s0 s1 pre post H Hprep Hsrc -> -> Hpre.
    rewrite (performCopyOrMove_prepared payload s0 s1 destFsPath Hprep), Hsrc.
    rewrite (processSources_app _ _ _ pre (src :: post) [] s1 results s Hpre).
    simpl. unfold bind. rewrite E, (startsWith_longer _ _ _ H), H.
    reflexivity.
Qed.

Lemma self_containment_iff_witness :
  fst (processSource true (js "local://Desktop/sub/")
         (js "C:\Users\me\Desktop\sub") [] (js "local://Desktop/") sampleState)
  = Err SelfContainment
  <-> startsWith (path_resolve (js "C:\Users\me\Desktop") ++ [path_sep])
        (path_resolve (targetOf (js "C:\Users\me\Desktop\sub")
                         (js "C:\Users\me\Desktop"))) = true.
Proof.
  refine (proj1 (self_containment_iff true (js "local://Desktop/sub/")
                   (js "C:\Users\me\Desktop\sub") [] (js "local://Desktop/")
                   sampleState (js "C:\Users\me\Desktop") true
                   (js "local://Desktop/") initialAliases
                   {| st_isDirectory := true; st_size := 0;
                      st_mtime := js "2025-09-19T00:00:00.000Z" |} _ _)).
  - vm_compute. reflexivity.
  - vm_compute. reflexivity.
Defined.

(** The scenario: copying [a.txt] to the downloads folder, which is not
    there yet, creates the folder and reports the copy. *)
Example copy_creates_destination :
  fs_access (js "C:\Users\me\Downloads") sampleWorld = false
  /\ fst (copyItems {| sources := [js "local://Desktop/a.txt"];
                       dest := js "local://Downloads/"; move := false |}
            sampleState)
     = Ok [{| source := js "local://Desktop/a.txt";
              destination := js "local://Downloads/a.txt" |}]
  /\ MemFs.find (js "C:\Users\me\Downloads\a.txt")
       (world (snd (copyItems {| sources := [js "local://Desktop/a.txt"];
                                 dest := js "local://Downloads/";
                                 move := false |} sampleState)))
     = Some (MemFs.File [104; 105]).
Proof. repeat split; vm_compute; reflexivity. Qed.

(** The scenario: deleting nothing is refused. *)
Example delete_nothing : fst (handleDeleteItems [] sampleState) = Err NoTargets.
Proof. reflexivity. Qed.

(** The scenario: moving the desktop into its own folder [sub] fails. *)
Example move_into_itself :
  fst (moveItems {| sources := [js "local://Desktop/"];
                    dest := js "local://Desktop/sub"; move := false |}
         sampleState)
  = Err SelfContainment.
Proof. vm_compute. reflexivity. Qed.

(** C5, as the specification states it, fails: [ghost.txt] does not exist
    on the desktop; copied onto the desktop, its resolved source and target
    paths are the same, yet the call fails with the error of [stat]. *)
Lemma skip_fails_on_missing_source :
  fst (resolveLocalVirtualPath (js "local://Desktop/ghost.txt") initialAliases)
  = Ok (Entry (js "C:\Users\me\Desktop\ghost.txt") false (js "local://Desktop/"))
  /\ path_resolve (js "C:\Users\me\Desktop\ghost.txt")
     = path_resolve (targetOf (js "C:\Users\me\Desktop")
                       (js "C:\Users\me\Desktop\ghost.txt"))
  /\ fst (copyItems {| sources := [js "local://Desktop/ghost.txt"];
                       dest := js "local://Desktop/"; move := false |}
            sampleState)
     = Err (FsError (MemFs.failure "ENOENT")).
Proof. repeat split; vm_compute; reflexivity. Qed.

Section SkipOrFail.
Context `{NP : NodePath} `{FS : NodeFs}.

(** A source whose [stat] is rejected makes its iteration throw. *)
Lemma processSource_stat_fails isMove destVirtual destFsPath results src
    (s : State) f d b m' (err : NodeError) :
  resolveLocalVirtualPath src (driveAliasMap s) = (Ok (Entry f d b), m') ->
  fs_stat f (world s) = inl err ->
  processSource isMove destVirtual destFsPath results src s
  = (Err (FsError err), withAliases s m').
Proof.
  intros Hr Hs. unfold processSource, bind at 1, resolve. rewrite Hr.
  unfold bind at 1, awaitRead. cbn [world]. rewrite Hs. reflexivity.
Qed.

End SkipOrFail.

(** C5 (amended): for a source that resolves to an entry, the [stat] of
    the entry comes first.  When it succeeds and the resolved source path
    equals the resolved target path, the source is skipped: the iteration
    returns without error, leaves the filesystem as it is and adds nothing
    to the items, so that the loop goes on with the next source, wherever
    the source stands in the batch; and a call whose only source is such a
    one, the destination directory being there, returns no items and
    leaves the filesystem unchanged.  When the [stat] fails, the iteration,
    the loop and the call fail with the error of [stat], whatever the two
    paths are, the filesystem being as the sources before left it. *)
Theorem skip_source_at_destination `{NP : NodePath} `{FS : NodeFs}
    (isMove : bool) (destVirtual destFsPath : jsstring)
    (results : list CopiedItem) (src : jsstring) (s : State)
    (f : jsstring) (d : bool) (b : jsstring) (m' : gmap jsstring jsstring) :
  resolveLocalVirtualPath src (driveAliasMap s) = (Ok (Entry f d b), m') ->
  (forall stats,
     fs_stat f (world s) = inr stats ->
     path_resolve f = path_resolve (targetOf destFsPath f) ->
     processSource isMove destVirtual destFsPath results src s
       = (Ok results, withAliases s m')
     /\ world (withAliases s m') = world s
     /\ (forall post,
           processSources isMove destVirtual destFsPath results (src :: post) s
           = processSources isMove destVirtual destFsPath results post
               (withAliases s m'))
     /\ (forall payload s0 s1 pre post,
           sources payload = pre ++ src :: post -> isMove = move payload ->
           destVirtual = normalizeDestinationVirtual (dest payload) ->
           destinationPrepared payload s0 destFsPath s1 ->
           processSources isMove destVirtual destFsPath [] pre s1
           = (Ok results, s) ->
           performCopyOrMove payload s0
           = processSources isMove destVirtual destFsPath results post
               (withAliases s m'))
     /\ (forall payload s0,
           sources payload = [src] -> isMove = move payload ->
           destVirtual = normalizeDestinationVirtual (dest payload) ->
           results = [] ->
           destinationPrepared payload s0 destFsPath s ->
           fs_access destFsPath (world s0) = true ->
           performCopyOrMove payload s0 = (Ok [], withAliases s m')
           /\ world (withAliases s m') = world s0))
  /\ (forall err,
        fs_stat f (world s) = inl err ->
        processSource isMove destVirtual destFsPath results src s
          = (Err (FsError err), withAliases s m')
        /\ world (withAliases s m') = world s
        /\ (forall post,
              processSources isMove destVirtual destFsPath results (src :: post) s
              = (Err (FsError err), withAliases s m'))
        /\ (forall payload s0 s1 pre post,
              sources payload = pre ++ src :: post -> isMove = move payload ->
              destVirtual = normalizeDestinationVirtual (dest payload) ->
              destinationPrepared payload s0 destFsPath s1 ->
              processSources isMove destVirtual destFsPath [] pre s1
              = (Ok results, s) ->
              performCopyOrMove payload s0
              = (Err (FsError err), withAliases s m'))).
Proof.
  intros Hr. split.
  - intros stats Hs Heq.
    assert (processSource isMove destVirtual destFsPath results src s
            = (Ok results, withAliases s m')) as E.
    { rewrite (processSource_entry _ _ _ _ _ _ f d b m' stats Hr Hs).
      rewrite <- Heq, jseq_refl. reflexivity. }
    assert (forall post,
              processSources isMove destVirtual destFsPath results (src :: post) s
              = processSources isMove destVirtual destFsPath results post
                  (withAliases s m')) as Eloop.
    { intros post. cbn [processSources]. unfold bind. rewrite E. reflexivity. }
    split; [exact E|]. split; [reflexivity|]. split; [exact Eloop|]. split.
    + intros payload s0 s1 pre post Hsrc -> -> Hprep Hpre.
      rewrite (performCopyOrMove_prepared payload s0 s1 destFsPath Hprep), Hsrc.
      rewrite (processSources_app _ _ _ pre (src :: post) [] s1 results s Hpre).
      apply Eloop.
    + intros payload s0 Hsrc -> -> -> Hprep Ha.
      rewrite (performCopyOrMove_prepared payload s0 s destFsPath Hprep), Hsrc.
      rewrite Eloop. split; [reflexivity|].
      destruct Hprep as (_ & b' & _ & [[_ Hw]|[Hf _]]); [exact Hw | congruence].
  - intros err Hs.
    pose proof (processSource_stat_fails isMove destVirtual destFsPath results
                  src s f d b m' err Hr Hs) as E.
    assert (forall post,
              processSources isMove destVirtual destFsPath results (src :: post) s
              = (Err (FsError err), withAliases s m')) as Eloop.
    { intros post. cbn [processSources]. unfold bind. rewrite E. reflexivity. }
    split; [exact E|]. split; [reflexivity|]. split; [exact Eloop|].
    intros payload s0 s1 pre post Hsrc -> -> Hprep Hpre.
    rewrite (performCopyOrMove_prepared payload s0 s1 destFsPath Hprep), Hsrc.
    rewrite (processSources_app _ _ _ pre (src :: post) [] s1 results s Hpre).
    apply Eloop.
Qed.

Lemma skip_source_at_destination_witness :
  processSource false (js "local://Desktop/") (js "C:\Users\me\Desktop") []
    (js "local://Desktop/a.txt") sampleState
  = (Ok [], withAliases sampleState initialAliases)
  /\ processSource false (js "local://Documents/")
       (js "C:\Users\me\Documents") [] (js "local://Desktop/ghost.txt")
       sampleState
     = (Err (FsError (MemFs.failure "ENOENT")),
        withAliases sampleState initialAliases).
Proof.
  split.
  - refine (proj1 (proj1 (skip_source_at_destination false
                     (js "local://Desktop/") (js "C:\Users\me\Desktop") []
                     (js "local://Desktop/a.txt") sampleState
                     (js "C:\Users\me\Desktop\a.txt") false
                     (js "local://Desktop/") initialAliases _)
                   {| st_isDirectory := false; st_size := 2;
                      st_mtime := js "2025-09-19T00:00:00.000Z" |} _ _)).
    + vm_compute. reflexivity.
    + vm_compute. reflexivity.
    + vm_compute. reflexivity.
  - refine (proj1 (proj2 (skip_source_at_destination false
                     (js "local://Documents/") (js "C:\Users\me\Documents") []
                     (js "local://Desktop/ghost.txt") sampleState
                     (js "C:\Users\me\Desktop\ghost.txt") false
                     (js "local://Desktop/") initialAliases _)
                   (MemFs.failure "ENOENT") _)).
    + vm_compute. reflexivity.
    + vm_compute. reflexivity.
Defined.

(** The scenario: copying [a.txt] onto the desktop that holds it returns
    no items and changes nothing. *)
Example copy_onto_own_folder :
  copyItems {| sources := [js "local://Desktop/a.txt"];
               dest := js "local://Desktop/"; move := false |} sampleState
  = (Ok [], sampleState).
Proof. vm_compute. reflexivity. Qed.

(** C1, as the specification states it, fails: the second source of this
    batch is the root, which is not an entry; the call fails with the
    unsupported-source error after the first source has been copied. *)
Lemma validation_failure_after_copy :
  fst (copyItems {| sources := [js "local://Desktop/a.txt"; js "local://"];
                    dest := js "local://Documents/"; move := false |}
         sampleState)
  = Err (UnsupportedSource (js "local://"))
  /\ MemFs.find (js "C:\Users\me\Documents\a.txt") sampleWorld = None
  /\ MemFs.find (js "C:\Users\me\Documents\a.txt")
       (world (snd (copyItems
                      {| sources := [js "local://Desktop/a.txt"; js "local://"];
                         dest := js "local://Documents/"; move := false |}
                      sampleState)))
     = Some (MemFs.File [104; 105]).
Proof. repeat split; vm_compute; reflexivity. Qed.

(** C1 (amended): when a copy or move fails with a resolution or validation
    error, either the error was raised before the loop and the filesystem
    is as it was, or it was raised by the iteration of one source, and the
    filesystem is as the preparation of the destination directory and the
    iterations of the earlier sources of the batch left it: the failing
    source changed nothing, the earlier ones are not undone. *)
Theorem validation_error_filesystem `{NP : NodePath} `{FS : NodeFs}
    (payload : CopyPayload) (s0 s' : State) (e : error) :
  performCopyOrMove payload s0 = (Err e, s') ->
  isValidationError e = true ->
  world s' = world s0
  \/ exists df s1 pre src post results s2,
       destinationPrepared payload s0 df s1
       /\ sources payload = pre ++ src :: post
       /\ processSources (move payload)
            (normalizeDestinationVirtual (dest payload)) df [] pre s1
          = (Ok results, s2)
       /\ processSource (move payload)
            (normalizeDestinationVirtual (dest payload)) df results src s2
          = (Err e, s')
       /\ world s' = world s2.
Proof.
  intros H Hv.
  destruct (performCopyOrMove_cases payload s0 s' _ H)
    as [(e1 & [= <-] & _ & Hw)|[(e1 & [= <-] & He)|(df & s1 & Hprep & Hloop)]].
  - left. exact Hw.
  - congruence.
  - right.
    destruct (processSources_error _ _ _ _ _ _ _ _ Hloop)
      as (pre & src & post & results & s2 & Hsrc & Hpre & Hstep).
    exists df, s1, pre, src, post, results, s2.
    split; [exact Hprep|]. split; [exact Hsrc|]. split; [exact Hpre|].
    split; [exact Hstep|].
    eapply processSource_unresolved; eassumption.
Qed.

Lemma validation_error_filesystem_witness :
  world (snd (copyItems {| sources := [js "local://"];
                           dest := js "local://Documents/"; move := false |}
                sampleState)) = world sampleState
  \/ exists df s1 pre src post results s2,
       destinationPrepared
         {| sources := [js "local://"]; dest := js "local://Documents/";
            move := false |} sampleState df s1
       /\ [js "local://"] = pre ++ src :: post
       /\ processSources false
            (normalizeDestinationVirtual (js "local://Documents/")) df [] pre s1
          = (Ok results, s2)
       /\ processSource false
            (normalizeDestinationVirtual (js "local://Documents/")) df results
            src s2
          = (Err (UnsupportedSource (js "local://")),
             snd (copyItems {| sources := [js "local://"];
                               dest := js "local://Documents/"; move := false |}
                    sampleState))
       /\ world (snd (copyItems {| sources := [js "local://"];
                                   dest := js "local://Documents/";
                                   move := false |} sampleState))
          = world s2.
Proof.
  refine (validation_error_filesystem
            {| sources := [js "local://"]; dest := js "local://Documents/";
               move := false |} sampleState _
            (UnsupportedSource (js "local://")) _ _).
  - vm_compute. reflexivity.
  - reflexivity.
Defined.

(** ** Identifiers *)

Module Sha1Facts.
Import Sha1.

Lemma w32_bound (x : N) : w32 x < 2 ^ 32.
Proof. unfold w32. apply N.mod_lt. discriminate. Qed.

Lemma block_word5 (h : N * N * N * N * N) (bs : list N) : word5 (block h bs).
Proof.
  unfold block. destruct h as [[[[h0 h1] h2] h3] h4].
  destruct (rounds 0 _ _) as [[[[a b] c] d] e].
  unfold word5. repeat split; apply w32_bound.
Qed.

Lemma blocks_word5 (n : nat) (h : N * N * N * N * N) (bs : list N) :
  word5 h -> word5 (blocks n h bs).
Proof.
  revert h bs. induction n as [|n IH]; intros h bs Hh; simpl; [exact Hh|].
  apply IH, block_word5.
Qed.

Lemma digest_bound (msg : list N) : digest msg < 2 ^ 160.
Proof.
  unfold digest.
  pose proof (blocks_word5 (length (pad msg) / 64) initial (pad msg)) as H.
  destruct (blocks _ _ _) as [[[[h0 h1] h2] h3] h4].
  assert (word5 initial) as Hi by (repeat split; reflexivity).
  specialize (H Hi). unfold word5 in H.
  change (2 ^ 32) with 4294967296 in *.
  change (2 ^ 160) with 1461501637330902918203684832716283019655932542976.
  lia.
Qed.

End Sha1Facts.

Lemma hexDigit_inj (a b : N) :
  a < 16 -> b < 16 -> hexDigit a = hexDigit b -> a = b.
Proof.
  unfold hexDigit. intros Ha Hb.
  destruct (a <? 10) eqn:Ea; destruct (b <? 10) eqn:Eb;
    rewrite ?N.ltb_lt, ?N.ltb_ge in *; lia.
Qed.

Lemma hexDigits_length (n : nat) (v : N) : length (hexDigits n v) = n.
Proof.
  induction n as [|n IH]; cbn [hexDigits length];
    [reflexivity | rewrite IH; reflexivity].
Qed.

(** The digits written determine the number below [16 ^ n]. *)
Lemma hexDigits_inj (n : nat) (v v' : N) :
  hexDigits n v = hexDigits n v' ->
  v mod 16 ^ N.of_nat n = v' mod 16 ^ N.of_nat n.
Proof.
  induction n as [|n IH]; intros H.
  - simpl. rewrite !N.mod_1_r. reflexivity.
  - cbn [hexDigits] in H. injection H as Hd Hr.
    apply hexDigit_inj in Hd; try (apply N.mod_lt; discriminate).
    specialize (IH Hr).
    rewrite Nat2N.inj_succ, N.pow_succ_r', (N.mul_comm 16).
    assert (16 ^ N.of_nat n <> 0) as Hp by (apply N.pow_nonzero; discriminate).
    rewrite !N.Div0.mod_mul_r. rewrite IH, Hd. reflexivity.
Qed.

Lemma hexDigits_hex (n : nat) (v : N) :
  Forall (fun c => isHexDigit c = true) (hexDigits n v).
Proof.
  induction n as [|n IH]; cbn [hexDigits]; constructor; [|exact IH].
  assert ((v / 16 ^ N.of_nat n) mod 16 < 16) as H by (apply N.mod_lt; discriminate).
  set (d := (v / 16 ^ N.of_nat n) mod 16) in *.
  unfold hexDigit, isHexDigit.
  destruct (d <? 10) eqn:E; rewrite ?N.ltb_lt, ?N.ltb_ge in E.
  - apply orb_true_iff. left. apply andb_true_iff.
    rewrite !N.leb_le. lia.
  - apply orb_true_iff. right. apply andb_true_iff.
    rewrite !N.leb_le. lia.
Qed.

(** ** Paths with the same encoding *)

Lemma high_not_low (c : N) : isHighSurrogate c = true -> isLowSurrogate c = false.
Proof.
  unfold isHighSurrogate, isLowSurrogate. intros [H1 H2]%andb_true_iff.
  apply N.leb_le in H1, H2. apply andb_false_iff. left. apply N.leb_gt. lia.
Qed.

(** An unpaired high surrogate is encoded as U+FFFD, whichever it is: the
    encoding of a string does not tell which high surrogate stood at a
    place where no low surrogate follows. *)
Lemma utf8_unpaired_high (h1 h2 : N) (b : jsstring) :
  isHighSurrogate h1 = true -> isHighSurrogate h2 = true ->
  (forall d r, b = d :: r -> isLowSurrogate d = false) ->
  forall (n : nat) (a : jsstring),
    (length a <= n)%nat -> utf8 (a ++ h1 :: b) = utf8 (a ++ h2 :: b).
Proof.
  intros H1 H2 Hb. induction n as [|n IH]; intros a Ha.
  - destruct a as [|c a]; [|cbn in Ha; lia].
    cbn [app utf8]. rewrite H1, H2.
    destruct b as [|d r]; [reflexivity|].
    rewrite (Hb d r eq_refl). reflexivity.
  - destruct a as [|c a]; [apply IH; cbn; lia|].
    cbn [length] in Ha. cbn [app utf8].
    destruct (isHighSurrogate c) eqn:Ec.
    + destruct a as [|d a].
      * pose proof (IH [] ltac:(cbn; lia)) as E. cbn [app] in E |- *.
        rewrite (high_not_low _ H1), (high_not_low _ H2), E. reflexivity.
      * cbn [app]. destruct (isLowSurrogate d).
        -- rewrite (IH a) by (cbn in Ha; lia). reflexivity.
        -- pose proof (IH (d :: a) ltac:(cbn in Ha |- *; lia)) as E.
           cbn [app] in E. rewrite E. reflexivity.
    + rewrite (IH a) by lia. reflexivity.
Qed.

(** C8, as the specification states it, fails: two paths that are each one
    unpaired surrogate, and different ones, have the same identifier, their
    UTF-8 encodings being both that of U+FFFD. *)
Lemma id_collision :
  [55296] <> [55297] /\ createIdForPath [55296] = createIdForPath [55297].
Proof. split; [discriminate | vm_compute; reflexivity]. Qed.

(** C8 (amended): the identifier is a function of the path: the forty
    hexadecimal digits, in lower case, of the SHA-1 digest of the UTF-8
    encoding of the path.  Two paths have the same identifier exactly when
    those digests are the same, hence whenever their encodings are the
    same; and the scheme is not free of collisions: two paths that differ
    in one place only, where each has a high surrogate that no low
    surrogate follows, are different paths with the same identifier. *)
Theorem id_equal_iff_digest_equal (p1 p2 : jsstring) :
  (createIdForPath p1 = createIdForPath p2
   <-> Sha1.digest (utf8 p1) = Sha1.digest (utf8 p2))
  /\ (utf8 p1 = utf8 p2 -> createIdForPath p1 = createIdForPath p2)
  /\ length (createIdForPath p1) = 40%nat
  /\ Forall (fun c => isHexDigit c = true) (createIdForPath p1)
  /\ (forall h1 h2,
        isHighSurrogate h1 = true -> isHighSurrogate h2 = true -> h1 <> h2 ->
        match p2 with d :: _ => isLowSurrogate d = false | [] => True end ->
        p1 ++ h1 :: p2 <> p1 ++ h2 :: p2
        /\ createIdForPath (p1 ++ h1 :: p2) = createIdForPath (p1 ++ h2 :: p2)).
Proof.
  unfold createIdForPath. split; [|split; [|split; [|split]]].
  - split; [|intros ->; reflexivity].
    intros H%hexDigits_inj.
    change (16 ^ N.of_nat 40) with (2 ^ 160) in H.
    rewrite !N.mod_small in H by apply Sha1Facts.digest_bound. exact H.
  - intros ->. reflexivity.
  - apply hexDigits_length.
  - apply hexDigits_hex.
  - intros h1 h2 H1 H2 Hne Hp2. split.
    + intros E. apply app_inv_head in E. congruence.
    + rewrite (utf8_unpaired_high h1 h2 p2 H1 H2) with (n := length p1);
        [reflexivity | | lia].
      intros d r ->. exact Hp2.
Qed.

(** The scenario: two names of drives that differ in an unpaired
    surrogate give two paths with the same identifier. *)
Example drive_paths_collide :
  js "local://This PC/" ++ [55296] ++ js "(C:)/Users/"
  <> js "local://This PC/" ++ [55297] ++ js "(C:)/Users/"
  /\ createIdForPath (js "local://This PC/" ++ [55296] ++ js "(C:)/Users/")
     = createIdForPath (js "local://This PC/" ++ [55297] ++ js "(C:)/Users/")
  /\ fst (resolveLocalVirtualPath
            (js "local://This PC/" ++ [55296] ++ js "(C:)/Users/") initialAliases)
     = Ok (Entry (js "C:\Users") true
             (js "local://This PC/" ++ [55296] ++ js "(C:)/"))
  /\ fst (resolveLocalVirtualPath
            (js "local://This PC/" ++ [55297] ++ js "(C:)/Users/") initialAliases)
     = Ok (Entry (js "C:\Users") true
             (js "local://This PC/" ++ [55297] ++ js "(C:)/")).
Proof.
  split; [intros H; apply app_inv_head in H; discriminate|].
  split; [vm_compute; reflexivity|].
  split; vm_compute; reflexivity.
Qed.

(** Among more values than there are digests, two coincide. *)
Lemma bounded_search (P : nat -> Prop) (m : nat) :
  (forall i, P i \/ ~ P i) ->
  (exists i, (i <= m)%nat /\ P i) \/ (forall i, (i <= m)%nat -> ~ P i).
Proof.
  intros Hdec. induction m as [|m IH].
  - destruct (Hdec O) as [H|H].
    + left. exists O. split; [lia | exact H].
    + right. intros i Hi. replace i with O by lia. exact H.
  - destruct IH as [(i & Hi & H)|IH].
    + left. exists i. split; [lia | exact H].
    + destruct (Hdec (S m)) as [H|H].
      * left. exists (S m). split; [lia | exact H].
      * right. intros i Hi.
        destruct (Nat.eq_dec i (S m)) as [->|Hne]; [exact H|].
        apply IH. lia.
Qed.

Lemma pigeonhole (n : nat) :
  forall f : nat -> nat,
    (forall i, (i <= n)%nat -> (f i < n)%nat) ->
    exists i j, (i < j)%nat /\ (j <= n)%nat /\ f i = f j.
Proof.
  induction n as [|m IH]; intros f Hf.
  - specialize (Hf O). lia.
  - destruct (bounded_search (fun i => f i = f (S m)) m) as [(i & Hi & E)|Hno].
    + intros i. destruct (Nat.eq_dec (f i) (f (S m))); [left | right]; assumption.
    + exists i, (S m). repeat split; [lia | lia | exact E].
    + set (g := fun i => if (f i <? f (S m))%nat then f i else (f i - 1)%nat).
      destruct (IH g) as (i & j & Hij & Hj & E).
      * intros i Hi. unfold g.
        pose proof (Hf i ltac:(lia)). pose proof (Hf (S m) ltac:(lia)).
        pose proof (Hno i Hi).
        destruct (f i <? f (S m))%nat eqn:Ei;
          rewrite ?Nat.ltb_lt, ?Nat.ltb_ge in Ei; lia.
      * exists i, j. repeat split; [lia | lia |].
        pose proof (Hno i ltac:(lia)). pose proof (Hno j Hj).
        unfold g in E.
        destruct (f i <? f (S m))%nat eqn:Ei;
          destruct (f j <? f (S m))%nat eqn:Ej;
          rewrite ?Nat.ltb_lt, ?Nat.ltb_ge in *; lia.
Qed.

(** Identifiers being 160 bits, some two paths of plain ASCII letters have
    the same one: no sample of paths can show the scheme free of
    collisions. *)
Lemma ascii_paths_collide :
  exists p1 p2 : jsstring,
    p1 <> p2
    /\ Forall (fun c => c = 97) p1 /\ Forall (fun c => c = 97) p2
    /\ createIdForPath p1 = createIdForPath p2.
Proof.
  set (f := fun i : nat => N.to_nat (Sha1.digest (utf8 (repeat 97 i)))).
  destruct (pigeonhole (N.to_nat (2 ^ 160)) f) as (i & j & Hij & _ & E).
  - intros i _. unfold f.
    pose proof (Sha1Facts.digest_bound (utf8 (repeat 97 i))) as H.
    unfold N.lt in H. rewrite N2Nat.inj_compare in H.
    apply Nat.compare_lt_iff in H. exact H.
  - exists (repeat 97 i), (repeat 97 j). repeat split.
    + intros H. apply (f_equal (@length N)) in H.
      rewrite !repeat_length in H. lia.
    + apply Forall_forall. intros c Hc%list_elem_of_In%repeat_spec. exact Hc.
    + apply Forall_forall. intros c Hc%list_elem_of_In%repeat_spec. exact Hc.
    + unfold createIdForPath. unfold f in E. apply N2Nat.inj in E.
      rewrite E. reflexivity.
Qed.

(** ** The reference path module *)

Module Win32Facts.
Import Win32.

Lemma splitSeparators_pieces (s : jsstring) :
  Forall separatorFree (splitSeparators s).
Proof.
  induction s as [|c r IH]; simpl.
  - repeat constructor.
  - destruct (isSeparator c) eqn:E.
    + constructor; [constructor | exact IH].
    + destruct (splitSeparators r) as [|h t].
      * repeat constructor. exact E.
      * inversion IH as [|? ? Hh Ht]; subst.
        constructor; [constructor; assumption | exact Ht].
Qed.

Lemma splitSeparators_free (x : jsstring) :
  separatorFree x -> splitSeparators x = [x].
Proof.
  induction 1 as [|c x Hc _ IH]; simpl; [reflexivity|].
  rewrite Hc, IH. reflexivity.
Qed.

Lemma splitSeparators_app (x r : jsstring) :
  separatorFree x ->
  splitSeparators (x ++ BACKSLASH :: r) = x :: splitSeparators r.
Proof.
  induction 1 as [|c x Hc _ IH]; simpl; [reflexivity|].
  rewrite Hc, IH. reflexivity.
Qed.

Lemma filterBoolean_pieces (l : list jsstring) :
  Forall separatorFree l ->
  Forall (fun x => x <> [] /\ separatorFree x) (filterBoolean l).
Proof.
  induction 1 as [|x l Hx _ IH]; simpl; [constructor|].
  destruct x as [|c x]; simpl; [exact IH|].
  constructor; [|exact IH]. split; [discriminate | exact Hx].
Qed.

Lemma normalizeParts_names (parts : list jsstring) :
  forall acc,
    Forall isName acc ->
    Forall (fun x => x <> [] /\ separatorFree x) parts ->
    Forall isName (normalizeParts acc parts).
Proof.
  induction parts as [|x r IH]; intros acc Hacc Hparts; cbn [normalizeParts].
  - apply Forall_rev. exact Hacc.
  - inversion Hparts as [|? ? [Hne Hfree] Hr]; subst.
    destruct (jseq x (js ".")) eqn:E1; [apply IH; assumption|].
    destruct (jseq x (js "..")) eqn:E2.
    + apply IH; [|exact Hr].
      destruct acc as [|a [|b acc]]; try assumption.
      inversion Hacc; assumption.
    + apply IH; [|exact Hr]. constructor; [|exact Hacc].
      apply jseq_neq in E1, E2. repeat split; assumption.
Qed.

Lemma components_names (p : jsstring) : Forall isName (components p).
Proof.
  apply normalizeParts_names; [constructor|].
  apply filterBoolean_pieces, splitSeparators_pieces.
Qed.

Lemma normalizeParts_normal (l : list jsstring) :
  forall acc, Forall isName l -> normalizeParts acc l = rev acc ++ l.
Proof.
  induction l as [|x r IH]; intros acc H; cbn [normalizeParts].
  - rewrite app_nil_r. reflexivity.
  - inversion H as [|? ? (_ & _ & H1 & H2) Hr]; subst.
    apply jseq_neq in H1, H2. rewrite H1, H2, IH by exact Hr.
    cbn [rev]. rewrite <- app_assoc. reflexivity.
Qed.

Lemma filterBoolean_cons (x : jsstring) (l : list jsstring) :
  x <> [] -> filterBoolean (x :: l) = x :: filterBoolean l.
Proof. intros H. destruct x; [contradiction | reflexivity]. Qed.

Lemma pieces_joinNames (names : list jsstring) :
  Forall isName names ->
  filterBoolean (splitSeparators (joinNames names)) = names.
Proof.
  induction 1 as [|x r (Hne & Hfree & _) Hr IH]; [reflexivity|].
  destruct r as [|y r].
  - cbn [joinNames]. rewrite splitSeparators_free by exact Hfree.
    apply filterBoolean_cons. exact Hne.
  - change (joinNames (x :: y :: r)) with (x ++ BACKSLASH :: joinNames (y :: r)).
    rewrite splitSeparators_app by exact Hfree.
    rewrite filterBoolean_cons by exact Hne. rewrite IH. reflexivity.
Qed.

(** Writing the components out and reading them back gives the
    components. *)
Lemma components_render (cs : list jsstring) :
  Forall isName cs -> components (render cs) = cs.
Proof.
  intros H. destruct cs as [|d names]; [reflexivity|].
  inversion H as [|? ? (Hne & Hfree & Hd1 & Hd2) Hn]; subst.
  unfold components, render.
  change (d ++ [BACKSLASH] ++ joinNames names)
    with (d ++ BACKSLASH :: joinNames names).
  rewrite splitSeparators_app by exact Hfree.
  rewrite filterBoolean_cons by exact Hne.
  rewrite pieces_joinNames by exact Hn.
  rewrite normalizeParts_normal by exact H. reflexivity.
Qed.

Lemma Forall_removelast {A} (P : A -> Prop) (l : list A) :
  Forall P l -> Forall P (removelast l).
Proof.
  induction 1 as [|x l Hx Hl IH]; simpl; [constructor|].
  destruct l; [constructor|]. constructor; assumption.
Qed.

(** The directory of a path has the components of the path but the last
    name. *)
Lemma components_dirname (p : jsstring) :
  components (dirname p)
  = match components p with
    | d :: names => d :: removelast names
    | [] => []
    end.
Proof.
  unfold dirname. pose proof (components_names p) as H.
  destruct (components p) as [|d [|x r]].
  - reflexivity.
  - apply components_render. exact H.
  - rewrite components_render by (apply Forall_removelast; exact H).
    reflexivity.
Qed.

End Win32Facts.

(** ** The reference filesystem *)

Module MemFsFacts.
Import MemFs.

Lemma getChild_setChild (x : jsstring) (c : Node) (cs : list (jsstring * Node)) :
  getChild x (setChild x c cs) = Some c.
Proof.
  induction cs as [|[n c0] r IH]; cbn [setChild getChild].
  - rewrite jseq_refl. reflexivity.
  - destruct (jseq n x) eqn:E; cbn [getChild]; rewrite E; [reflexivity | exact IH].
Qed.

Lemma setChild_setChild (x : jsstring) (c c' : Node) (cs : list (jsstring * Node)) :
  setChild x c' (setChild x c cs) = setChild x c' cs.
Proof.
  induction cs as [|[n c0] r IH]; cbn [setChild].
  - rewrite jseq_refl. reflexivity.
  - destruct (jseq n x) eqn:E; cbn [setChild]; rewrite E; [reflexivity|].
    rewrite IH. reflexivity.
Qed.

Lemma getChild_delChild (x : jsstring) (cs : list (jsstring * Node)) :
  getChild x (delChild x cs) = None.
Proof.
  induction cs as [|[n c0] r IH]; cbn [delChild getChild]; [reflexivity|].
  destruct (jseq n x) eqn:E; [exact IH|]. cbn [getChild]. rewrite E. exact IH.
Qed.

(** What is put at a path is found there. *)
Lemma lookup_putNode (p : list jsstring) :
  forall (n root root' : Node),
    putNode p n root = Some root' -> lookupNode p root' = Some n.
Proof.
  induction p as [|x r IH]; intros n root root'; cbn [putNode].
  - intros [= <-]. reflexivity.
  - destruct root as [data|cs]; [discriminate|].
    destruct r as [|y r].
    + intros [= <-]. cbn [lookupNode]. rewrite getChild_setChild. reflexivity.
    + destruct (getChild x cs) as [c|]; [|discriminate].
      destruct (putNode (y :: r) n c) as [c'|] eqn:E; [|discriminate].
      intros [= <-]. cbn [lookupNode]. rewrite getChild_setChild.
      fold lookupNode. exact (IH n c c' E).
Qed.

(** What is removed is no longer found. *)
Lemma lookup_removeNode (p : list jsstring) :
  forall root : Node, p <> [] -> lookupNode p (removeNode p root) = None.
Proof.
  induction p as [|x r IH]; intros root Hp; [contradiction|].
  destruct root as [data|cs]; [reflexivity|].
  cbn [removeNode]. destruct r as [|y r].
  - cbn [lookupNode]. rewrite getChild_delChild. reflexivity.
  - destruct (getChild x cs) as [c|] eqn:E.
    + change (lookupNode (x :: y :: r) (Dir (setChild x (removeNode (y :: r) c) cs)))
        with (match getChild x (setChild x (removeNode (y :: r) c) cs) with
              | Some c' => lookupNode (y :: r) c'
              | None => None
              end).
      rewrite getChild_setChild. apply IH. discriminate.
    + change (lookupNode (x :: y :: r) (Dir cs))
        with (match getChild x cs with
              | Some c' => lookupNode (y :: r) c'
              | None => None
              end).
      rewrite E. reflexivity.
Qed.

(** Creating directories that are there already changes nothing. *)
Lemma mkdirp_idempotent (p : list jsstring) :
  forall root root' : Node,
    mkdirp p root = Some root' -> mkdirp p root' = Some root'.
Proof.
  induction p as [|x r IH]; intros root root' H.
  - destruct root; [discriminate|]. injection H as <-. reflexivity.
  - destruct root as [data|cs]; [discriminate|]. cbn [mkdirp] in H.
    destruct (mkdirp r _) as [c'|] eqn:E; [|discriminate].
    injection H as <-. cbn [mkdirp]. rewrite getChild_setChild.
    rewrite (IH _ _ E), setChild_setChild. reflexivity.
Qed.

Lemma lookup_empty_dir (p : list jsstring) :
  p <> [] -> lookupNode p (Dir []) = None.
Proof. destruct p; [contradiction | reflexivity]. Qed.

(** Creating the directories of [p] creates nothing below [p]. *)
Lemma lookup_mkdirp_child (p : list jsstring) (x : jsstring) :
  forall root root' : Node,
    mkdirp p root = Some root' ->
    lookupNode (p ++ [x]) root' = lookupNode (p ++ [x]) root.
Proof.
  induction p as [|y r IH]; intros root root' H.
  - destruct root; [discriminate|]. injection H as <-. reflexivity.
  - destruct root as [data|cs]; [discriminate|]. cbn [mkdirp] in H.
    destruct (mkdirp r _) as [c'|] eqn:E; [|discriminate].
    injection H as <-.
    change (lookupNode ((y :: r) ++ [x]) (Dir (setChild y c' cs)))
      with (match getChild y (setChild y c' cs) with
            | Some c => lookupNode (r ++ [x]) c
            | None => None
            end).
    change (lookupNode ((y :: r) ++ [x]) (Dir cs))
      with (match getChild y cs with
            | Some c => lookupNode (r ++ [x]) c
            | None => None
            end).
    rewrite getChild_setChild, (IH _ _ E).
    destruct (getChild y cs); [reflexivity|].
    apply lookup_empty_dir. destruct r; discriminate.
Qed.

(** An entry can be put below directories that were just created. *)
Lemma putNode_after_mkdirp (p : list jsstring) (x : jsstring) (n : Node) :
  forall root root' : Node,
    mkdirp p root = Some root' ->
    exists root'', putNode (p ++ [x]) n root' = Some root''.
Proof.
  induction p as [|y r IH]; intros root root' H.
  - destruct root as [data|cs]; [discriminate|]. injection H as <-.
    eexists. reflexivity.
  - destruct root as [data|cs]; [discriminate|]. cbn [mkdirp] in H.
    destruct (mkdirp r _) as [c'|] eqn:E; [|discriminate].
    injection H as <-.
    destruct (IH _ _ E) as [c'' Hc].
    exists (Dir (setChild y c'' (setChild y c' cs))).
    change ((y :: r) ++ [x]) with (y :: (r ++ [x])). cbn [putNode].
    destruct (r ++ [x]) as [|z t] eqn:Ert; [destruct r; discriminate|].
    rewrite getChild_setChild, Hc. reflexivity.
Qed.

Lemma removelast_snoc {A} (l : list A) :
  l <> [] -> exists x, l = removelast l ++ [x].
Proof.
  intros H. destruct l as [|a l]; [contradiction|].
  exists (List.last (a :: l) a). apply app_removelast_last. discriminate.
Qed.

Lemma mkdirAt_inv d names (w w' : disk) :
  mkdirAt d names w = Some w' ->
  exists root root',
    drives w !! d = Some root /\ mkdirp names root = Some root'
    /\ w' = withDrives w (<[d := root']> (drives w)).
Proof.
  unfold mkdirAt. destruct (drives w !! d) as [root|]; [|discriminate].
  destruct (mkdirp names root) as [root'|] eqn:E; [|discriminate].
  intros [= <-]. eauto.
Qed.

Lemma putAt_inv d names n (w w' : disk) :
  putAt d names n w = Some w' ->
  exists root root',
    drives w !! d = Some root /\ putNode names n root = Some root'
    /\ w' = withDrives w (<[d := root']> (drives w)).
Proof.
  unfold putAt. destruct (drives w !! d) as [root|]; [|discriminate].
  destruct (putNode names n root) as [root'|] eqn:E; [|discriminate].
  intros [= <-]. eauto.
Qed.

Lemma findAt_insert d names (w : disk) root :
  findAt d names (withDrives w (<[d := root]> (drives w)))
  = lookupNode names root.
Proof. unfold findAt, withDrives. cbn [drives]. rewrite lookup_insert_eq. reflexivity. Qed.

Lemma findAt_insert_ne d d' names (w : disk) root :
  d <> d' ->
  findAt d' names (withDrives w (<[d := root]> (drives w))) = findAt d' names w.
Proof.
  intros H. unfold findAt, withDrives. cbn [drives].
  rewrite lookup_insert_ne by exact H. reflexivity.
Qed.

Lemma mkdirAt_idempotent d names (w w' : disk) :
  mkdirAt d names w = Some w' -> mkdirAt d names w' = Some w'.
Proof.
  intros (root & root' & Hd & Hm & ->)%mkdirAt_inv.
  unfold mkdirAt, withDrives. cbn [drives clock].
  rewrite lookup_insert_eq, (mkdirp_idempotent _ _ _ Hm), insert_insert_eq.
  reflexivity.
Qed.

Lemma findAt_mkdirAt_child d names x (w w' : disk) :
  mkdirAt d names w = Some w' ->
  findAt d (names ++ [x]) w' = findAt d (names ++ [x]) w.
Proof.
  intros (root & root' & Hd & Hm & ->)%mkdirAt_inv.
  rewrite findAt_insert. unfold findAt. rewrite Hd.
  apply lookup_mkdirp_child. exact Hm.
Qed.

Lemma findAt_mkdirAt_ne d d' names names' (w w' : disk) :
  d <> d' -> mkdirAt d names w = Some w' ->
  findAt d' names' w' = findAt d' names' w.
Proof.
  intros H (root & root' & Hd & Hm & ->)%mkdirAt_inv.
  apply findAt_insert_ne. exact H.
Qed.

Lemma putAt_after_mkdirAt d names x n (w w' : disk) :
  mkdirAt d names w = Some w' -> exists w'', putAt d (names ++ [x]) n w' = Some w''.
Proof.
  intros (root & root' & Hd & Hm & ->)%mkdirAt_inv.
  destruct (putNode_after_mkdirp names x n _ _ Hm) as [root'' Hp].
  unfold putAt, withDrives. cbn [drives clock].
  rewrite lookup_insert_eq, Hp. eauto.
Qed.

Lemma locate_dirname (p d : jsstring) (names : list jsstring) :
  locate p = Some (d, names) ->
  locate (Win32.dirname p) = Some (d, removelast names).
Proof.
  unfold locate. rewrite Win32Facts.components_dirname.
  destruct (Win32.components p) as [|d0 n0]; [discriminate|].
  intros [= <- <-]. reflexivity.
Qed.

(** A rename is refused for crossing devices only when the source is
    there, is not a drive root, and lies on another drive than the
    destination; the filesystem is then as it was. *)
Lemma rename_exdev (src dst : jsstring) (w w2 : disk) (e : NodeError) :
  rename src dst w = (Some e, w2) -> code e = js "EXDEV" ->
  exists d1 n1 d2 n2 n,
    locate src = Some (d1, n1) /\ locate dst = Some (d2, n2)
    /\ findAt d1 n1 w = Some n /\ n1 <> [] /\ d1 <> d2 /\ w2 = w.
Proof.
  unfold rename.
  destruct (locate src) as [[d1 n1]|]; [|intros [= <- <-]; discriminate].
  destruct (locate dst) as [[d2 n2]|]; [|intros [= <- <-]; discriminate].
  destruct (findAt d1 n1 w) as [n|] eqn:Hf; [|intros [= <- <-]; discriminate].
  destruct n1 as [|x n1]; [intros [= <- <-]; discriminate|]. cbn [isEmpty].
  destruct (jseq d1 d2) eqn:Hd; cbn [negb].
  - repeat case_match; intros [= <- <-]; discriminate.
  - intros [= <- <-] _. exists d1, (x :: n1), d2, n2, n.
    apply jseq_neq in Hd. repeat split; try assumption; try reflexivity.
    discriminate.
Qed.

End MemFsFacts.

(** ** Move *)

Lemma moveEntry_rename_fails `{NP : NodePath} `{FS : NodeFs}
    (src dst : jsstring) (s s1 : State) (e : NodeError) (w2 : World) :
  ensureDirectory (path_dirname dst) s = (Ok tt, s1) ->
  fs_rename src dst (world s1) = (Some e, w2) ->
  moveEntry src dst s
  = if jseq (code e) (js "EXDEV")
    then bind (copyEntry src dst) (fun _ => deleteEntry src) (withWorld s1 w2)
    else (Err (FsError e), withWorld s1 w2).
Proof.
  intros Hm Hr. unfold moveEntry, bind at 1. rewrite Hm, Hr.
  destruct (jseq (code e) (js "EXDEV")); reflexivity.
Qed.

Section MoveByLaws.
Context `{NP : NodePath} `{FS : NodeFs}.
Context {Tree : Type} (isDirectoryTree : Tree -> bool)
        (contentsAt : jsstring -> World -> option Tree)
        (apart : jsstring -> jsstring -> Prop).
Hypothesis laws : FsLaws isDirectoryTree contentsAt apart.

Lemma ensureDirectory_inv (p : jsstring) (s s1 : State) :
  ensureDirectory p s = (Ok tt, s1) ->
  fs_mkdir p (world s) = (None, world s1) /\ s1 = withWorld s (world s1).
Proof.
  unfold ensureDirectory, awaitWrite.
  destruct (fs_mkdir p (world s)) as [[ne|] w1]; [discriminate|].
  intros [= <-]. split; reflexivity.
Qed.

Lemma withWorld_same (s : State) : withWorld s (world s) = s.
Proof. destruct s. reflexivity. Qed.

(** The copy of the fallback, when the destination is free or the source
    and the destination are files. *)
Lemma copyEntry_by_laws (src dst : jsstring) (s1 : State) (n : Tree) :
  apart src dst ->
  fs_mkdir (path_dirname dst) (world s1) = (None, world s1) ->
  contentsAt src (world s1) = Some n ->
  (forall o, contentsAt dst (world s1) = Some o ->
             isDirectoryTree n = false /\ isDirectoryTree o = false) ->
  exists w',
    copyEntry src dst s1 = (Ok tt, withWorld s1 w')
    /\ contentsAt src w' = Some n /\ contentsAt dst w' = Some n.
Proof.
  intros Hap Hmk Hsrc Hfree.
  destruct (law_stat _ _ _ laws src (world s1) n Hsrc) as (stats & Hst & Hdir).
  unfold copyEntry, bind at 1, awaitRead. rewrite Hst, Hdir.
  destruct (isDirectoryTree n) eqn:En.
  - assert (contentsAt dst (world s1) = None) as Hdst.
    { destruct (contentsAt dst (world s1)) as [o|] eqn:Eo; [|reflexivity].
      destruct (Hfree o eq_refl) as [[=] _]. }
    destruct (law_cp _ _ _ laws src dst (world s1) n Hap Hmk Hsrc En Hdst)
      as (w' & Hcp & H1 & H2).
    exists w'. unfold awaitWrite. rewrite Hcp. auto.
  - assert (forall o, contentsAt dst (world s1) = Some o ->
                      isDirectoryTree o = false) as Hdst.
    { intros o Ho. apply (Hfree o Ho). }
    destruct (law_copyFile _ _ _ laws src dst (world s1) n Hap Hmk Hsrc En Hdst)
      as (w' & Hcp & H1 & H2).
    exists w'. unfold bind, ensureDirectory, awaitWrite. rewrite Hmk.
    cbn [world driveAliasMap]. rewrite Hcp. auto.
Qed.

(** The fallback of a move ends as a rename is meant to. *)
Lemma moveEntry_by_laws (src dst : jsstring) (s s1 : State)
    (e : NodeError) (w2 : World) :
  ensureDirectory (path_dirname dst) s = (Ok tt, s1) ->
  fs_rename src dst (world s1) = (Some e, w2) ->
  code e = js "EXDEV" ->
  (forall n o,
     contentsAt src (world s1) = Some n -> contentsAt dst (world s1) = Some o ->
     isDirectoryTree n = false /\ isDirectoryTree o = false) ->
  exists (s' : State) (n : Tree),
    moveEntry src dst s = (Ok tt, s')
    /\ driveAliasMap s' = driveAliasMap s
    /\ contentsAt src (world s1) = Some n
    /\ contentsAt src (world s') = None
    /\ contentsAt dst (world s') = Some n.
Proof.
  intros Hm Hr Hc Hfree.
  pose proof (law_rename_failure _ _ _ laws _ _ _ _ _ Hr) as ->.
  destruct (law_rename_exdev _ _ _ laws _ _ _ _ _ Hr Hc) as (Hap & n & Hsrc).
  destruct (ensureDirectory_inv _ _ _ Hm) as (Hmk & Es1).
  apply (law_mkdir_again _ _ _ laws) in Hmk.
  destruct (copyEntry_by_laws src dst s1 n Hap Hmk Hsrc (fun o => Hfree n o Hsrc))
    as (w' & Hcopy & H1 & H2).
  destruct (law_rm _ _ _ laws src dst w' n Hap H1) as (w'' & Hrm & H3 & H4).
  exists (withWorld s1 w''), n.
  rewrite (moveEntry_rename_fails src dst s s1 e (world s1) Hm Hr), Hc, jseq_refl.
  rewrite withWorld_same. unfold bind. rewrite Hcopy.
  unfold deleteEntry, awaitWrite. cbn [world withWorld driveAliasMap].
  rewrite Hrm. split; [reflexivity|].
  split; [rewrite Es1; reflexivity|].
  split; [exact Hsrc|]. split; [exact H3|]. rewrite H4. exact H2.
Qed.

End MoveByLaws.

Section LawsOnReference.
Import MemFs MemFsFacts.

Lemma rename_failure_clean (src dst : jsstring) (w w' : disk) (e : NodeError) :
  rename src dst w = (Some e, w') -> w' = w.
Proof.
  unfold rename. repeat case_match; intros [= ? ?]; congruence.
Qed.

Lemma mkdir_again (p : jsstring) (w w' : disk) :
  mkdir p w = (None, w') -> mkdir p w' = (None, w').
Proof.
  unfold mkdir.
  destruct (locate p) as [[d names]|]; [|discriminate].
  destruct (drives w !! d) as [root|] eqn:Hd; [|discriminate].
  destruct (mkdirAt d names w) as [w1|] eqn:Hm; [|discriminate].
  intros [= <-].
  rewrite (mkdirAt_idempotent _ _ _ _ Hm).
  destruct (mkdirAt_inv _ _ _ _ Hm) as (r & r' & _ & _ & ->).
  unfold withDrives. cbn [drives]. rewrite lookup_insert_eq. reflexivity.
Qed.

(** The parent directory of the destination is there. *)
Lemma mkdir_parent (dst d2 : jsstring) (n2 : list jsstring) (w : disk) :
  locate dst = Some (d2, n2) ->
  mkdir (Win32.dirname dst) w = (None, w) ->
  mkdirAt d2 (removelast n2) w = Some w.
Proof.
  intros Hd. unfold mkdir. rewrite (locate_dirname _ _ _ Hd).
  destruct (drives w !! d2) as [root|]; [|discriminate].
  destruct (mkdirAt d2 (removelast n2) w) as [w1|]; [|discriminate].
  intros [= ->]. reflexivity.
Qed.

Lemma findAt_root (d : jsstring) (names : list jsstring) (w w' : disk) :
  mkdirAt d names w = Some w' -> exists cs, findAt d [] w = Some (Dir cs).
Proof.
  intros (root & root' & Hd & Hm & _)%mkdirAt_inv.
  unfold findAt. rewrite Hd. cbn [lookupNode].
  destruct root as [data|cs]; [destruct names; discriminate | eauto].
Qed.

(** Putting a tree at a place of another drive, below a directory that is
    there. *)
Lemma put_on_other_drive (d1 d2 : jsstring) (n1 n2 : list jsstring)
    (n : Node) (w : disk) :
  d1 <> d2 -> n2 <> [] ->
  mkdirAt d2 (removelast n2) w = Some w ->
  exists w',
    putAt d2 n2 n w = Some w'
    /\ findAt d1 n1 w' = findAt d1 n1 w /\ findAt d2 n2 w' = Some n.
Proof.
  intros Hne Hn2 Hmk.
  destruct (removelast_snoc n2 Hn2) as [x Hx].
  destruct (putAt_after_mkdirAt d2 (removelast n2) x n w w Hmk) as [w' Hp].
  rewrite <- Hx in Hp. exists w'. split; [exact Hp|].
  destruct (putAt_inv _ _ _ _ _ Hp) as (r & r' & _ & Hput & ->).
  split.
  - apply findAt_insert_ne. apply not_eq_sym. exact Hne.
  - rewrite findAt_insert. eapply lookup_putNode. exact Hput.
Qed.

Lemma memFs_laws : FsLaws isDir MemFs.find onOtherDrive.
Proof.
  constructor.
  - intros src dst w e w'. apply rename_failure_clean.
  - intros src dst w e w' Hr Hc.
    destruct (rename_exdev _ _ _ _ _ Hr Hc)
      as (d1 & n1 & d2 & n2 & n & Hs & Hd & Hf & Hn1 & Hne & _).
    split; [exists d1, n1, d2, n2; auto|].
    exists n. unfold find. rewrite Hs. exact Hf.
  - intros p w w'. apply mkdir_again.
  - intros p w n Hf. cbn [fs_stat memFs]. unfold stat. rewrite Hf.
    destruct n; eexists; split; reflexivity.
  - intros src dst w n (d1 & n1 & d2 & n2 & Hs & Hd & Hne & Hn1) Hmk Hsrc Hdir
           Hdst.
    cbn [fs_mkdir memFs path_dirname win32Path] in Hmk.
    pose proof (mkdir_parent _ _ _ _ Hd Hmk) as Hp.
    unfold find in Hsrc, Hdst. rewrite Hs in Hsrc. rewrite Hd in Hdst.
    assert (n2 <> []) as Hn2.
    { intros ->. destruct (findAt_root _ _ _ _ Hp) as [cs Hr]. congruence. }
    destruct (put_on_other_drive d1 d2 n1 n2 n w Hne Hn2 Hp)
      as (w' & Hput & H1 & H2).
    exists w'. cbn [fs_cp memFs]. unfold cp, find.
    rewrite Hs, Hd, Hsrc, Hp, Hdst, Hput.
    apply jseq_neq in Hne. rewrite Hne. cbn [andb].
    split; [reflexivity|]. split; [rewrite H1; exact Hsrc | exact H2].
  - intros src dst w n (d1 & n1 & d2 & n2 & Hs & Hd & Hne & Hn1) Hmk Hsrc Hdir
           Hdst.
    cbn [fs_mkdir memFs path_dirname win32Path] in Hmk.
    pose proof (mkdir_parent _ _ _ _ Hd Hmk) as Hp.
    unfold find in Hsrc, Hdst. rewrite Hs in Hsrc. rewrite Hd in Hdst.
    assert (n2 <> []) as Hn2.
    { intros ->. destruct (findAt_root _ _ _ _ Hp) as [cs Hr].
      discriminate (Hdst _ Hr). }
    destruct (put_on_other_drive d1 d2 n1 n2 n w Hne Hn2 Hp)
      as (w' & Hput & H1 & H2).
    exists w'. cbn [fs_copyFile memFs]. unfold copyFile, find.
    rewrite Hs, Hd, Hsrc.
    destruct n as [data|cs]; [|discriminate].
    split; [|split; [rewrite H1; exact Hsrc | exact H2]].
    destruct (findAt d2 n2 w) as [[old|cs]|] eqn:Eo;
      [| discriminate (Hdst _ eq_refl) |]; rewrite Hput; reflexivity.
  - intros src dst w n (d1 & n1 & d2 & n2 & Hs & Hd & Hne & Hn1) Hsrc.
    exists (removeAt d1 n1 w). cbn [fs_rm memFs]. unfold rm, find.
    rewrite Hs, Hd. destruct n1 as [|x n1]; [contradiction|]. cbn [isEmpty].
    split; [reflexivity|].
    unfold find in Hsrc. rewrite Hs in Hsrc.
    unfold removeAt, findAt in *.
    destruct (drives w !! d1) as [root|] eqn:Hr; [|discriminate].
    unfold withDrives. cbn [drives]. split.
    + rewrite lookup_insert_eq. apply lookup_removeNode. discriminate.
    + rewrite lookup_insert_ne by exact Hne. reflexivity.
Qed.

End LawsOnReference.




(** The scenario: a file moved across drives over a file ends as the
    rename is meant to. *)
Example move_file_over_file :
  let w := MemFs.withDrives sampleWorld
             (<[js "D:" := MemFs.Dir [(js "a.txt", MemFs.File [1; 2; 3])]]>
                (MemFs.drives sampleWorld)) in
  let s := {| driveAliasMap := initialAliases; world := w |} in
  fst (fs_rename (js "D:\a.txt") (js "C:\Users\me\Desktop\a.txt") w)
  = Some (MemFs.failure "EXDEV")
  /\ fst (moveEntry (js "D:\a.txt") (js "C:\Users\me\Desktop\a.txt") s) = Ok tt
  /\ MemFs.find (js "D:\a.txt")
       (world (snd (moveEntry (js "D:\a.txt") (js "C:\Users\me\Desktop\a.txt") s)))
     = None
  /\ MemFs.find (js "C:\Users\me\Desktop\a.txt")
       (world (snd (moveEntry (js "D:\a.txt") (js "C:\Users\me\Desktop\a.txt") s)))
     = Some (MemFs.File [1; 2; 3]).
Proof. repeat split; vm_compute; reflexivity. Qed.

(** * Further properties of the module *)

(** ** Sanitizing *)

Lemma sanitizeFrom_no_backslash (b : bool) (s : jsstring) :
  Forall (fun c => c <> BACKSLASH) (sanitizeFrom b s).
Proof.
  revert b. induction s as [|c s IH]; intros b; cbn [sanitizeFrom].
  - constructor.
  - destruct (c =? BACKSLASH) eqn:E.
    + destruct b; [apply IH|]. constructor; [discriminate | apply IH].
    + constructor; [apply N.eqb_neq; exact E | apply IH].
Qed.

(** X1: sanitizing leaves no backslash and is idempotent, and the resolver
    reads a path through its sanitized form only: two paths with the same
    sanitized form resolve to the same location, with the same alias
    map. *)
Theorem sanitize_normal_form `{NP : NodePath} (p q : jsstring)
    (m : gmap jsstring jsstring) :
  Forall (fun c => c <> BACKSLASH) (sanitizeVirtualPath p)
  /\ sanitizeVirtualPath (sanitizeVirtualPath p) = sanitizeVirtualPath p
  /\ (sanitizeVirtualPath p = sanitizeVirtualPath q ->
      forall r m', resolveLocalVirtualPath p m = (Ok r, m') ->
                   resolveLocalVirtualPath q m = (Ok r, m')).
Proof.
  split; [apply sanitizeFrom_no_backslash|]. split.
  - apply sanitizeFrom_clean, sanitizeFrom_no_backslash.
  - intros H r m'. unfold resolveLocalVirtualPath. rewrite H.
    repeat case_match; congruence.
Qed.

Lemma sanitize_normal_form_witness :
  resolveLocalVirtualPath (js "local://Desktop/sub/a.txt") initialAliases
  = (Ok (Entry (js "C:\Users\me\Desktop\sub\a.txt") false
           (js "local://Desktop/")), initialAliases).
Proof.
  refine (proj2 (proj2 (sanitize_normal_form (js "local://Desktop\sub\\a.txt")
                          (js "local://Desktop/sub/a.txt") initialAliases))
            _ _ _ _).
  - vm_compute. reflexivity.
  - vm_compute. reflexivity.
Defined.

(** ** Drive aliases *)

Lemma matchDriveLetter_some (s : jsstring) (c : N) :
  matchDriveLetter s = Some c ->
  exists a b, s = a ++ 40 :: c :: 58 :: 41 :: b /\ isAsciiLetter c = true.
Proof.
  induction s as [|c0 r IH]; [discriminate|].
  cbn [matchDriveLetter].
  destruct r as [|x [|c2 [|c3 t]]]; try discriminate.
  destruct ((c0 =? 40) && (isAsciiUpper x || isAsciiLower x)
            && (c2 =? 58) && (c3 =? 41)) eqn:E.
  - intros [= <-].
    apply andb_true_iff in E as [E E3]. apply andb_true_iff in E as [E E2].
    apply andb_true_iff in E as [E0 E1].
    apply N.eqb_eq in E0, E2, E3. subst.
    exists [], t. split; [reflexivity | exact E1].
  - intros H. destruct (IH H) as (a & b & -> & Hc).
    exists (c0 :: a), b. split; [reflexivity | exact Hc].
Qed.

Lemma matchDriveLetter_none (s : jsstring) :
  matchDriveLetter s = None ->
  forall a c b, s = a ++ 40 :: c :: 58 :: 41 :: b -> isAsciiLetter c = false.
Proof.
  induction s as [|c0 r IH]; intros H a c b E.
  - destruct a; discriminate.
  - cbn [matchDriveLetter] in H. destruct a as [|y a].
    + injection E as -> ->.
      change ((40 =? 40) && (isAsciiUpper c || isAsciiLower c)
              && (58 =? 58) && (41 =? 41))
        with (isAsciiLetter c && true && true) in H.
      rewrite !andb_true_r in H.
      destruct (isAsciiLetter c); [discriminate | reflexivity].
    + injection E as -> ->.
      destruct (a ++ 40 :: c :: 58 :: 41 :: b) as [|x [|c2 [|c3 t]]] eqn:Er.
      * destruct a; discriminate.
      * destruct a as [|? [|]]; discriminate.
      * destruct a as [|? [|? [|]]]; discriminate.
      * destruct ((y =? 40) && (isAsciiUpper x || isAsciiLower x)
                  && (c2 =? 58) && (c3 =? 41)); [discriminate|].
        exact (IH H a c b (eq_sym Er)).
Qed.

(** The match is the leftmost one: no letter between [(] and [:)] starts
    earlier in the name. *)
Lemma matchDriveLetter_leftmost (s : jsstring) (c : N) :
  matchDriveLetter s = Some c ->
  exists a b,
    s = a ++ 40 :: c :: 58 :: 41 :: b /\ isAsciiLetter c = true
    /\ forall a' c' b',
         s = a' ++ 40 :: c' :: 58 :: 41 :: b' -> isAsciiLetter c' = true ->
         (length a <= length a')%nat.
Proof.
  induction s as [|c0 r IH]; [discriminate|].
  cbn [matchDriveLetter].
  destruct r as [|x [|c2 [|c3 t]]]; try discriminate.
  destruct ((c0 =? 40) && (isAsciiUpper x || isAsciiLower x)
            && (c2 =? 58) && (c3 =? 41)) eqn:E.
  - intros [= <-].
    apply andb_true_iff in E as [E E3]. apply andb_true_iff in E as [E E2].
    apply andb_true_iff in E as [E0 E1].
    apply N.eqb_eq in E0, E2, E3. subst.
    exists [], t. split; [reflexivity|]. split; [exact E1|].
    intros a' c' b' _ _. cbn. lia.
  - intros H. destruct (IH H) as (a & b & Er & Hc & Hleft).
    exists (c0 :: a), b. split; [rewrite Er; reflexivity|]. split; [exact Hc|].
    intros a' c' b' E' Hc'. destruct a' as [|y a'].
    + injection E' as -> -> -> -> _.
      unfold isAsciiLetter in Hc'. rewrite Hc' in E. discriminate.
    + injection E' as _ E'. cbn [length].
      apply le_n_S. exact (Hleft a' c' b' E' Hc').
Qed.

Lemma upperLetter_upper (c : N) :
  isAsciiLetter c = true -> isAsciiUpper (upperLetter c) = true.
Proof.
  unfold isAsciiLetter, upperLetter, isAsciiUpper, isAsciiLower.
  intros H. destruct ((97 <=? c) && (c <=? 122)) eqn:E.
  - apply andb_true_iff in E as [E1 E2]. apply N.leb_le in E1, E2.
    apply andb_true_iff. rewrite !N.leb_le. lia.
  - rewrite orb_false_r in H. exact H.
Qed.

(** X2: [ensureDriveLetter] answers from the alias map when the name is
    there; otherwise it derives the letter from the leftmost [(X:)] of the
    name (no letter between [(] and [:)] starts earlier in the name), in
    upper case, and records it, so that asking again gives the same answer
    and changes nothing.  It fails, changing nothing, exactly when the name
    is unknown and holds no letter between [(] and [:)]. *)
Theorem ensureDriveLetter_cached `{NP : NodePath}
    (name : jsstring) (m : gmap jsstring jsstring) :
  match ensureDriveLetter name m with
  | (Some d, m') =>
      m' !! name = Some d
      /\ m ⊆ m'
      /\ ensureDriveLetter name m' = (Some d, m')
      /\ (forall d0, m !! name = Some d0 -> d = d0 /\ m' = m)
      /\ (m !! name = None ->
          m' = <[name := d]> m
          /\ exists a c b,
               name = a ++ 40 :: c :: 58 :: 41 :: b
               /\ isAsciiLetter c = true
               /\ (forall a' c' b',
                     name = a' ++ 40 :: c' :: 58 :: 41 :: b' ->
                     isAsciiLetter c' = true ->
                     (length a <= length a')%nat)
               /\ d = [upperLetter c; 58]
               /\ isAsciiUpper (upperLetter c) = true)
  | (None, m') =>
      m' = m /\ m !! name = None
      /\ forall a c b,
           name = a ++ 40 :: c :: 58 :: 41 :: b -> isAsciiLetter c = false
  end.
Proof.
  unfold ensureDriveLetter.
  destruct (m !! name) as [d|] eqn:Hm.
  - rewrite Hm. split; [reflexivity|]. split; [reflexivity|].
    split; [reflexivity|]. split; [|discriminate].
    intros d0 [= <-]. split; reflexivity.
  - destruct (matchDriveLetter name) as [c|] eqn:Hc.
    + rewrite lookup_insert_eq. split; [reflexivity|].
      split; [apply insert_subseteq; exact Hm|]. split; [reflexivity|].
      split; [discriminate|].
      intros _. split; [reflexivity|].
      destruct (matchDriveLetter_leftmost _ _ Hc) as (a & b & -> & Hl & Hleft).
      exists a, c, b. split; [reflexivity|]. split; [exact Hl|].
      split; [exact Hleft|]. split; [reflexivity|].
      apply upperLetter_upper, Hl.
    + split; [reflexivity|]. split; [reflexivity|].
      apply matchDriveLetter_none. exact Hc.
Qed.

(** The scenario: of two letters, the first one is taken. *)
Example ensureDriveLetter_first_letter :
  fst (ensureDriveLetter (js "Data (c:)(D:)") initialAliases) = Some (js "C:").
Proof. vm_compute. reflexivity. Qed.

Section Aliases.
Context `{NP : NodePath} `{FS : NodeFs}.

Lemma aliasSound_initial : aliasSound initialAliases.
Proof.
  unfold aliasSound, initialAliases. split.
  - apply lookup_singleton_eq.
  - intros name d [<- <-]%lookup_singleton_Some. left. split; reflexivity.
Qed.

Lemma aliasSound_insert (m : gmap jsstring jsstring) (name : jsstring) (c : N) :
  aliasSound m -> name <> systemDriveDisplayName ->
  matchDriveLetter name = Some c ->
  aliasSound (<[name := [upperLetter c; 58]]> m).
Proof.
  intros [Hs Hm] Hn Hc. split.
  - rewrite lookup_insert_ne by exact Hn. exact Hs.
  - intros k d. rewrite lookup_insert. case_decide as Hk.
    + intros [= <-]. subst k. right. split; [exact Hn|]. eauto.
    + apply Hm.
Qed.

Lemma ensureDriveLetter_sound (name : jsstring) (m : gmap jsstring jsstring) :
  aliasSound m ->
  aliasSound (snd (ensureDriveLetter name m))
  /\ m ⊆ snd (ensureDriveLetter name m).
Proof.
  intros Hm. unfold ensureDriveLetter.
  destruct (m !! name) as [d|] eqn:E; [split; [exact Hm | reflexivity]|].
  destruct (matchDriveLetter name) as [c|] eqn:Hc;
    [|split; [exact Hm | reflexivity]].
  cbn [snd]. split; [|apply insert_subseteq; exact E].
  apply aliasSound_insert; try assumption.
  intros ->. destruct Hm as [Hs _]. congruence.
Qed.

Lemma resolve_aliases (p : jsstring) (m m' : gmap jsstring jsstring) r :
  resolveLocalVirtualPath p m = (r, m') ->
  m' = m \/ exists name, m' = snd (ensureDriveLetter name m).
Proof.
  unfold resolveLocalVirtualPath.
  repeat case_match; intros [= <- <-]; eauto;
    right; eexists;
    match goal with
    | H : ensureDriveLetter ?n m = (_, ?x) |- ?x = snd (ensureDriveLetter _ m) =>
        rewrite H; reflexivity
    end.
Qed.

Lemma resolve_sound (p : jsstring) (m m' : gmap jsstring jsstring) r :
  resolveLocalVirtualPath p m = (r, m') ->
  aliasSound m -> aliasSound m' /\ m ⊆ m'.
Proof.
  intros [->|[name ->]]%resolve_aliases Hm.
  - split; [exact Hm | reflexivity].
  - apply ensureDriveLetter_sound. exact Hm.
Qed.

Lemma keeps_fixed {A} (op : IO A) : aliasesFixed op -> keepsAliases op.
Proof.
  intros H s r s' E Hs. rewrite (H s r s' E). split; [exact Hs | reflexivity].
Qed.

Lemma keeps_bind {A B} (op : IO A) (k : A -> IO B) :
  keepsAliases op -> (forall a, keepsAliases (k a)) -> keepsAliases (bind op k).
Proof.
  intros Hop Hk s r s' E Hs. unfold bind in E.
  destruct (op s) as [[a|e] s1] eqn:E1.
  - destruct (Hop s _ s1 E1 Hs) as [H1 H1'].
    destruct (Hk a s1 r s' E H1) as [H2 H2'].
    split; [exact H2 | etransitivity; eassumption].
  - injection E as <- <-. exact (Hop s _ s1 E1 Hs).
Qed.

Lemma fixed_bind {A B} (op : IO A) (k : A -> IO B) :
  aliasesFixed op -> (forall a, aliasesFixed (k a)) -> aliasesFixed (bind op k).
Proof.
  intros Hop Hk s r s' E. unfold bind in E.
  destruct (op s) as [[a|e] s1] eqn:E1.
  - rewrite (Hk a s1 r s' E). exact (Hop s _ s1 E1).
  - injection E as <- <-. exact (Hop s _ s1 E1).
Qed.

Lemma fixed_ret {A} (a : A) : aliasesFixed (ret a).
Proof. intros s r s' [= <- <-]. reflexivity. Qed.

Lemma fixed_throw {A} (e : error) : aliasesFixed (@throw _ A e).
Proof. intros s r s' [= <- <-]. reflexivity. Qed.

Lemma fixed_readFs {A} (f : World -> A) : aliasesFixed (readFs f).
Proof. intros s r s' [= <- <-]. reflexivity. Qed.

Lemma fixed_awaitRead {A} (f : World -> NodeError + A) :
  aliasesFixed (awaitRead f).
Proof.
  intros s r s'. unfold awaitRead.
  destruct (f (world s)); intros [= <- <-]; reflexivity.
Qed.

Lemma fixed_awaitWrite (f : World -> option NodeError * World) :
  aliasesFixed (awaitWrite f).
Proof.
  intros s r s'. unfold awaitWrite.
  destruct (f (world s)) as [[e|] w]; intros [= <- <-]; reflexivity.
Qed.

Lemma fixed_copyEntry a b : aliasesFixed (copyEntry a b).
Proof.
  unfold copyEntry. apply fixed_bind; [apply fixed_awaitRead|].
  intros stats. destruct (st_isDirectory stats); [apply fixed_awaitWrite|].
  apply fixed_bind; [apply fixed_awaitWrite|]. intros _. apply fixed_awaitWrite.
Qed.

Lemma fixed_deleteEntry a : aliasesFixed (deleteEntry a).
Proof. apply fixed_awaitWrite. Qed.

Lemma fixed_moveEntry a b : aliasesFixed (moveEntry a b).
Proof.
  unfold moveEntry. apply fixed_bind; [apply fixed_awaitWrite|].
  intros _ s r s'.
  destruct (fs_rename a b (world s)) as [[e|] w]; [|intros [= <- <-]; reflexivity].
  destruct (jseq (code e) (js "EXDEV")); [|intros [= <- <-]; reflexivity].
  intros E.
  assert (aliasesFixed (bind (copyEntry a b) (fun _ => deleteEntry a))) as Hf.
  { apply fixed_bind; [apply fixed_copyEntry|]. intros _. apply fixed_deleteEntry. }
  rewrite (Hf _ _ _ E). reflexivity.
Qed.

Lemma keeps_resolve (p : jsstring) : keepsAliases (resolve p).
Proof.
  intros s r s'. unfold resolve.
  destruct (resolveLocalVirtualPath p (driveAliasMap s)) as [r0 m'] eqn:E.
  intros [= <- <-]. cbn [driveAliasMap]. eapply resolve_sound. exact E.
Qed.

Lemma letterCodes_upper (c : N) : In c letterCodes -> isAsciiUpper c = true.
Proof.
  intros H. vm_compute in H.
  repeat (destruct H as [<-|H]; [reflexivity|]). contradiction.
Qed.

Lemma probeDrives_spec (codes : list N) :
  forall (init : list jsstring) (w : World) (d : jsstring),
    In d (probeDrives codes init w) ->
    In d init
    \/ exists c, In c codes /\ d = [c; 58]
                 /\ fs_access ([c; 58] ++ [BACKSLASH]) w = true.
Proof.
  induction codes as [|c rest IH]; intros init w d H; cbn [probeDrives] in H.
  - left. exact H.
  - destruct (existsb (jseq [c; 58]) init).
    + destruct (IH _ _ _ H) as [Hi|(c' & Hc & Hd & Ha)]; [left; exact Hi|].
      right. exists c'. repeat split; try assumption. right. exact Hc.
    + destruct (fs_access ([c; 58] ++ [BACKSLASH]) w) eqn:Ea.
      * destruct (IH _ _ _ H) as [Hi|(c' & Hc & Hd & Ha)].
        -- apply in_app_or in Hi as [Hi|[<-|[]]]; [left; exact Hi|].
           right. exists c. repeat split; try assumption. left. reflexivity.
        -- right. exists c'. repeat split; try assumption. right. exact Hc.
      * destruct (IH _ _ _ H) as [Hi|(c' & Hc & Hd & Ha)]; [left; exact Hi|].
        right. exists c'. repeat split; try assumption. right. exact Hc.
Qed.

Lemma probeDrives_listed (w : World) (d : jsstring) :
  In d (probeDrives letterCodes [systemDrive] w) -> isListedDrive d.
Proof.
  intros [[<-|[]]|(c & Hc & -> & _)]%probeDrives_spec.
  - left. reflexivity.
  - right. exists c. split; [apply letterCodes_upper; exact Hc | reflexivity].
Qed.

Lemma upper_not_lower (c : N) : isAsciiUpper c = true -> isAsciiLower c = false.
Proof.
  unfold isAsciiUpper, isAsciiLower. intros [H1 H2]%andb_true_iff.
  apply N.leb_le in H1, H2. apply andb_false_iff. left. apply N.leb_gt. lia.
Qed.

Lemma matchDriveLetter_drive (c : N) :
  isAsciiUpper c = true ->
  matchDriveLetter (js "Drive (" ++ [c; 58] ++ js ")") = Some c.
Proof.
  intros H.
  change (js "Drive (" ++ [c; 58] ++ js ")")
    with [68; 114; 105; 118; 101; 32; 40; c; 58; 41].
  cbn [matchDriveLetter]. cbn [N.eqb Pos.eqb andb].
  rewrite H. reflexivity.
Qed.

Lemma driveDisplayName_letter (c : N) :
  jseq [c; 58] systemDrive = false ->
  driveDisplayName [c; 58] = js "Drive (" ++ [c; 58] ++ js ")"
  /\ driveDisplayName [c; 58] <> systemDriveDisplayName.
Proof.
  intros H. unfold driveDisplayName. rewrite H. split; [reflexivity|].
  unfold systemDriveDisplayName. discriminate.
Qed.

Lemma alias_step (m : gmap jsstring jsstring) (d : jsstring) :
  aliasSound m -> isListedDrive d ->
  aliasSound (<[driveDisplayName d := d]> m)
  /\ m ⊆ <[driveDisplayName d := d]> m.
Proof.
  intros Hm Hd. destruct (jseq d systemDrive) eqn:E.
  - apply jseq_eq in E. subst d. unfold driveDisplayName. rewrite jseq_refl.
    destruct Hm as [Hs Hm]. rewrite (insert_id _ _ _ Hs).
    split; [split; assumption | reflexivity].
  - destruct Hd as [->|(c & Hc & ->)]; [rewrite jseq_refl in E; discriminate|].
    destruct (driveDisplayName_letter c E) as [-> Hne].
    pose proof (matchDriveLetter_drive c Hc) as Hl.
    assert (upperLetter c = c) as Hu.
    { unfold upperLetter. rewrite (upper_not_lower c Hc). reflexivity. }
    split.
    + rewrite <- Hu at 2. apply aliasSound_insert; assumption.
    + destruct (m !! (js "Drive (" ++ [c; 58] ++ js ")")) as [v|] eqn:Ev.
      * destruct Hm as [_ Hm]. destruct (Hm _ _ Ev) as [[Hx _]|[_ (c' & Hc' & ->)]].
        -- exfalso. exact (Hne Hx).
        -- rewrite Hl in Hc'. injection Hc' as <-. rewrite Hu in Ev.
           rewrite (insert_id _ _ _ Ev). reflexivity.
      * apply insert_subseteq. exact Ev.
Qed.

Lemma alias_fold (drives : list jsstring) :
  forall m,
    aliasSound m -> Forall isListedDrive drives ->
    aliasSound (fold_left (fun m d => <[driveDisplayName d := d]> m) drives m)
    /\ m ⊆ fold_left (fun m d => <[driveDisplayName d := d]> m) drives m.
Proof.
  induction drives as [|d rest IH]; intros m Hm Hd; cbn [fold_left].
  - split; [exact Hm | reflexivity].
  - inversion Hd as [|? ? H1 H2]; subst.
    destruct (alias_step m d Hm H1) as [Hs Hsub].
    destruct (IH _ Hs H2) as [Hs' Hsub'].
    split; [exact Hs' | etransitivity; eassumption].
Qed.

Lemma keeps_listDriveRoots : keepsAliases listDriveRoots.
Proof.
  intros s r s'. unfold listDriveRoots. cbv zeta.
  assert (Forall isListedDrive (probeDrives letterCodes [systemDrive] (world s)))
    as Hd.
  { apply Forall_forall. intros d Hd%list_elem_of_In.
    eapply probeDrives_listed, Hd. }
  revert Hd. generalize (probeDrives letterCodes [systemDrive] (world s)).
  intros drives Hd [= <- <-] Hs.
  cbn [driveAliasMap]. apply alias_fold; assumption.
Qed.

Lemma keeps_processSource isMove dv df results src :
  keepsAliases (processSource isMove dv df results src).
Proof.
  unfold processSource. apply keeps_bind; [apply keeps_resolve|].
  intros [| |f d b]; try (apply keeps_fixed, fixed_throw).
  apply keeps_fixed, fixed_bind; [apply fixed_awaitRead|]. intros stats.
  destruct (jseq _ _); [apply fixed_ret|].
  destruct (startsWith _ _); [apply fixed_throw|].
  apply fixed_bind; [|intros _; apply fixed_ret].
  destruct isMove; [apply fixed_moveEntry | apply fixed_copyEntry].
Qed.

Lemma keeps_processSources isMove dv df srcs :
  forall results, keepsAliases (processSources isMove dv df results srcs).
Proof.
  induction srcs as [|src rest IH]; intros results; cbn [processSources].
  - apply keeps_fixed, fixed_ret.
  - apply keeps_bind; [apply keeps_processSource|]. intros r. apply IH.
Qed.

Lemma keeps_deleteTargets targets : keepsAliases (deleteTargets targets).
Proof.
  induction targets as [|t rest IH]; cbn [deleteTargets].
  - apply keeps_fixed, fixed_ret.
  - apply keeps_bind; [apply keeps_resolve|].
    intros [| |f d b]; try (apply keeps_fixed, fixed_throw).
    apply keeps_bind; [apply keeps_fixed, fixed_deleteEntry|]. intros _. exact IH.
Qed.

End Aliases.

(** X3: the alias map is append-only.  The initial map is sound, and each
    handler of the module, run from a sound map, ends with a sound map in
    which every alias there was has kept its value: aliases are added,
    never removed and never changed. *)
Theorem aliases_append_only `{NP : NodePath} `{FS : NodeFs} :
  aliasSound initialAliases
  /\ (forall p, keepsAliases (handleListDirectory p))
  /\ keepsAliases handleGetLocalShortcuts
  /\ (forall payload, keepsAliases (performCopyOrMove payload))
  /\ (forall targets, keepsAliases (handleDeleteItems targets)).
Proof.
  split; [apply aliasSound_initial|]. split; [|split; [|split]].
  - intros p. unfold handleListDirectory.
    apply keeps_bind; [apply keeps_resolve|].
    intros [| |f d b].
    + apply keeps_fixed, fixed_readFs.
    + apply keeps_listDriveRoots.
    + destruct d; cbn [negb]; apply keeps_fixed;
        [apply fixed_readFs | apply fixed_throw].
  - unfold handleGetLocalShortcuts. apply keeps_fixed, fixed_bind.
    + apply fixed_readFs.
    + intros entries. apply fixed_ret.
  - intros payload. unfold performCopyOrMove.
    destruct (isEmpty (sources payload)); [apply keeps_fixed, fixed_throw|].
    apply keeps_bind; [apply keeps_resolve|].
    intros [| |f [|] b]; try (apply keeps_fixed, fixed_throw).
    apply keeps_bind; [apply keeps_fixed, fixed_readFs|]. intros ex.
    apply keeps_bind; [|intros _; apply keeps_processSources].
    destruct (negb ex); apply keeps_fixed;
      [apply fixed_awaitWrite | apply fixed_ret].
  - intros targets. unfold handleDeleteItems.
    destruct (isEmpty targets); [apply keeps_fixed, fixed_throw|].
    apply keeps_deleteTargets.
Qed.

Lemma aliases_append_only_witness :
  aliasSound
    (driveAliasMap (snd (handleListDirectory (js "local://This PC/") sampleState)))
  /\ driveAliasMap sampleState
     ⊆ driveAliasMap (snd (handleListDirectory (js "local://This PC/") sampleState)).
Proof.
  exact (proj1 (proj2 aliases_append_only) (js "local://This PC/") sampleState
           _ _ (surjective_pairing _) (proj1 aliases_append_only)).
Defined.

(** ** The shapes the resolver tells apart *)

Lemma endsWith_unit (c : N) (s : jsstring) :
  endsWith [c] s = true <-> exists l, s = l ++ [c].
Proof.
  unfold endsWith. rewrite startsWith_spec. cbn [rev app]. split.
  - intros [r Hr]. exists (rev r).
    rewrite <- (rev_involutive s), Hr. cbn [rev app]. reflexivity.
  - intros [l ->]. exists (rev l). rewrite rev_app_distr. reflexivity.
Qed.

(** A final slash stays, and a final run of backslashes becomes one. *)
Lemma sanitizeFrom_final_slash (s : jsstring) :
  forall b, exists l, sanitizeFrom b (s ++ [SLASH]) = l ++ [SLASH].
Proof.
  induction s as [|x s IH]; intros b.
  - exists []. reflexivity.
  - cbn [app sanitizeFrom]. destruct (x =? BACKSLASH).
    + destruct (IH true) as [l Hl]. rewrite Hl.
      destruct b; [exists l | exists (SLASH :: l)]; reflexivity.
    + destruct (IH false) as [l Hl]. rewrite Hl. exists (x :: l). reflexivity.
Qed.

Lemma sanitizeFrom_final_backslash (s : jsstring) :
  forall b,
    (exists l, sanitizeFrom b (s ++ [BACKSLASH]) = l ++ [SLASH])
    \/ (b = true /\ sanitizeFrom b (s ++ [BACKSLASH]) = []).
Proof.
  induction s as [|x s IH]; intros b.
  - destruct b; [right; split; reflexivity | left; exists []; reflexivity].
  - cbn [app sanitizeFrom]. destruct (x =? BACKSLASH).
    + destruct (IH true) as [[l Hl]|[_ Hl]]; rewrite Hl.
      * left. destruct b; [exists l | exists (SLASH :: l)]; reflexivity.
      * destruct b; [right; split; reflexivity | left; exists []; reflexivity].
    + destruct (IH false) as [[l Hl]|[[=] _]]. rewrite Hl.
      left. exists (x :: l). reflexivity.
Qed.

Lemma sanitize_final (p : jsstring) :
  endsWith [SLASH] p = true \/ endsWith [BACKSLASH] p = true ->
  endsWith [SLASH] (sanitizeVirtualPath p) = true.
Proof.
  unfold sanitizeVirtualPath.
  intros [[l ->]%endsWith_unit|[l ->]%endsWith_unit]; apply endsWith_unit.
  - apply sanitizeFrom_final_slash.
  - destruct (sanitizeFrom_final_backslash l false) as [H|[[=] _]]. exact H.
Qed.

Section Shapes.
Context `{NP : NodePath}.

Lemma matchSpecialFolders_entry sanitized asDirectory folders r :
  matchSpecialFolders sanitized asDirectory folders = Some r ->
  exists f d b, r = Entry f d b /\ (asDirectory = true -> d = true).
Proof.
  induction folders as [|folder rest IH]; cbn [matchSpecialFolders];
    [discriminate|].
  destruct (matchSpecialFolder sanitized asDirectory folder) as [r'|] eqn:E;
    [|exact IH].
  intros [= <-]. unfold matchSpecialFolder in E.
  destruct (_ || _); [injection E as <-; eauto|].
  destruct (startsWith _ _); [|discriminate].
  injection E as <-. do 3 eexists. split; [reflexivity|].
  intros ->. reflexivity.
Qed.

(** What the resolver returns once the path is known to be neither the
    root nor the drive container. *)
Lemma resolve_entry_or_error (p : jsstring) (m m' : gmap jsstring jsstring) r :
  resolveLocalVirtualPath p m = (Ok r, m') ->
  (r = Root /\ sanitizeVirtualPath p = js "local://" /\ m' = m)
  \/ (r = Drives /\ m' = m
      /\ (sanitizeVirtualPath p = js "local://This PC/"
          \/ sanitizeVirtualPath p = js "local://This PC"))
  \/ (exists f d b,
        r = Entry f d b
        /\ (endsWith [SLASH] (sanitizeVirtualPath p) = true -> d = true)).
Proof.
  unfold resolveLocalVirtualPath.
  destruct (startsWith _ _); cbn [negb]; [|discriminate].
  destruct (jseq (sanitizeVirtualPath p) (js "local://")) eqn:E1.
  { intros [= <- <-]. left. apply jseq_eq in E1. auto. }
  destruct (jseq (sanitizeVirtualPath p) (js "local://This PC/")) eqn:E2.
  { intros [= <- <-]. right. left. apply jseq_eq in E2. auto. }
  destruct (jseq (sanitizeVirtualPath p) (js "local://This PC")) eqn:E3.
  { intros [= <- <-]. right. left. apply jseq_eq in E3. auto. }
  cbn [orb]. right. right.
  destruct (matchSpecialFolders _ _ specialFolders) as [r0|] eqn:Em.
  { injection H as <- <-.
    destruct (matchSpecialFolders_entry _ _ _ _ Em) as (f & d & b & -> & Hd).
    eauto. }
  destruct (matchDrivePath _) as [[name rem]|]; [|discriminate].
  destruct (ensureDriveLetter name m) as [[[|c l]|] m1]; try discriminate.
  injection H as <- <-. do 3 eexists. split; [reflexivity|].
  intros ->. reflexivity.
Qed.

End Shapes.

(** X4: the resolver returns the root exactly for the sanitized path
    [local://], and the drive container exactly for [local://This PC/]
    and [local://This PC]; every other path it accepts is an entry. *)
Theorem resolve_root_and_drives `{NP : NodePath}
    (p : jsstring) (m : gmap jsstring jsstring) :
  (fst (resolveLocalVirtualPath p m) = Ok Root
   <-> sanitizeVirtualPath p = js "local://")
  /\ (fst (resolveLocalVirtualPath p m) = Ok Drives
      <-> sanitizeVirtualPath p = js "local://This PC/"
          \/ sanitizeVirtualPath p = js "local://This PC").
Proof.
  split; split.
  - destruct (resolveLocalVirtualPath p m) as [[r|e] m'] eqn:E; [|discriminate].
    cbn [fst]. intros [= ->].
    destruct (resolve_entry_or_error p m m' Root E)
      as [(_ & H & _)|[([=] & _)|(f & d & b & [=] & _)]].
    exact H.
  - intros H. unfold resolveLocalVirtualPath. rewrite H. reflexivity.
  - destruct (resolveLocalVirtualPath p m) as [[r|e] m'] eqn:E; [|discriminate].
    cbn [fst]. intros [= ->].
    destruct (resolve_entry_or_error p m m' Drives E)
      as [([=] & _)|[(_ & _ & H)|(f & d & b & [=] & _)]].
    exact H.
  - intros [H|H]; unfold resolveLocalVirtualPath; rewrite H; reflexivity.
Qed.

(** X5: a path equal to the prefix of a special folder, with or without
    its final slash, is the folder itself, as a directory. *)
Theorem special_folder_itself `{NP : NodePath}
    (folder : SpecialFolder) (m : gmap jsstring jsstring) :
  In folder specialFolders ->
  resolveLocalVirtualPath (virtual folder) m
    = (Ok (Entry (fsPath folder) true (virtual folder)), m)
  /\ resolveLocalVirtualPath (sliceInit (virtual folder)) m
     = (Ok (Entry (fsPath folder) true (virtual folder)), m).
Proof.
  intros H. unfold specialFolders in H. cbn [In] in H.
  repeat (destruct H as [<-|H]; [split; reflexivity|]). contradiction.
Qed.

Lemma special_folder_itself_witness :
  resolveLocalVirtualPath (js "local://Pictures") initialAliases
  = (Ok (Entry (js "C:\Users\me\Pictures") true (js "local://Pictures/")),
     initialAliases).
Proof.
  exact (proj2 (special_folder_itself
                  {| label := js "Pictures"; virtual := js "local://Pictures/";
                     fsPath := path_join os_homedir [js "Pictures"] |}
                  initialAliases
                  (or_intror (or_intror (or_intror (or_intror
                     (or_introl eq_refl))))))).
Defined.

(** X6: a path that ends with a slash or a backslash is never classified
    as a file: the entry it resolves to, if any, is a directory. *)
Theorem final_slash_means_directory `{NP : NodePath}
    (p : jsstring) (m : gmap jsstring jsstring) (f b : jsstring) :
  endsWith [SLASH] p = true \/ endsWith [BACKSLASH] p = true ->
  fst (resolveLocalVirtualPath p m) <> Ok (Entry f false b).
Proof.
  intros Hp%sanitize_final H.
  destruct (resolveLocalVirtualPath p m) as [[r|e] m'] eqn:E; [|discriminate].
  cbn [fst] in H. injection H as ->.
  destruct (resolve_entry_or_error p m m' _ E)
    as [([=] & _)|[([=] & _)|(f' & d' & b' & [= <- <- <-] & Hd)]].
  discriminate (Hd Hp).
Qed.

Lemma final_slash_means_directory_witness :
  fst (resolveLocalVirtualPath (js "local://Desktop/a.txt\") initialAliases)
  <> Ok (Entry (js "C:\Users\me\Desktop\a.txt") false (js "local://Desktop/")).
Proof.
  refine (final_slash_means_directory (js "local://Desktop/a.txt\")
            initialAliases (js "C:\Users\me\Desktop\a.txt")
            (js "local://Desktop/") _).
  right. vm_compute. reflexivity.
Defined.
(** ** The destination of a copy or move *)

Lemma normalizeDestinationVirtual_final (d : jsstring) :
  endsWith [SLASH] (normalizeDestinationVirtual d) = true.
Proof.
  unfold normalizeDestinationVirtual.
  destruct (endsWith [SLASH] d) eqn:E; [exact E|].
  apply endsWith_unit. eauto.
Qed.

Section Destination.
Context `{NP : NodePath} `{FS : NodeFs}.

Lemma resolve_root (p : jsstring) (m : gmap jsstring jsstring) :
  sanitizeVirtualPath p = js "local://" ->
  resolveLocalVirtualPath p m = (Ok Root, m).
Proof.
  intros H. unfold resolveLocalVirtualPath. rewrite H. reflexivity.
Qed.

Lemma resolve_drives (p : jsstring) (m : gmap jsstring jsstring) :
  sanitizeVirtualPath p = js "local://This PC/"
  \/ sanitizeVirtualPath p = js "local://This PC" ->
  resolveLocalVirtualPath p m = (Ok Drives, m).
Proof.
  intros [H|H]; unfold resolveLocalVirtualPath; rewrite H; reflexivity.
Qed.

Lemma validation_not_filesystem (e : error) :
  isValidationError e = false -> e <> DestinationNotDirectory.
Proof.
  intros H ->. discriminate.
Qed.

Lemma resolve_not_destination (p : jsstring) (s s' : State) e :
  resolve p s = (Err e, s') -> e <> DestinationNotDirectory.
Proof.
  unfold resolve.
  destruct (resolveLocalVirtualPath p (driveAliasMap s)) as [[r|e0] m'] eqn:E;
    [discriminate|].
  intros [= <- <-].
  destruct (resolve_errors _ _ _ _ E) as [[q ->]|[[n ->]|[q ->]]]; discriminate.
Qed.

Lemma processSource_not_destination isMove dv df results src (s s' : State) e :
  processSource isMove dv df results src s = (Err e, s') ->
  e <> DestinationNotDirectory.
Proof.
  unfold processSource. intros [H|(r & s1 & _ & H)]%bind_error.
  { eapply resolve_not_destination, H. }
  destruct r as [| |f d b]; try (injection H as <- <-; discriminate).
  apply bind_error in H as [H|(stats & s2 & _ & H)].
  { eapply validation_not_filesystem, awaitRead_error, H. }
  destruct (jseq _ _); [discriminate|].
  destruct (startsWith _ _); [injection H as <- <-; discriminate|].
  apply bind_error in H as [H|(? & ? & _ & [=])].
  apply validation_not_filesystem.
  destruct isMove; [eapply moveEntry_error, H | eapply copyEntry_error, H].
Qed.

Lemma processSources_not_destination isMove dv df srcs results (s s' : State) e :
  processSources isMove dv df results srcs s = (Err e, s') ->
  e <> DestinationNotDirectory.
Proof.
  intros (pre & src & post & r' & s1 & _ & _ & H)%processSources_error.
  eapply processSource_not_destination, H.
Qed.

Lemma performCopyOrMove_destination (payload : CopyPayload) (s s' : State) r :
  performCopyOrMove payload s = (r, s') ->
  (r = Err DestinationNotDirectory
   <-> sources payload <> []
       /\ (sanitizeVirtualPath (normalizeDestinationVirtual (dest payload))
           = js "local://"
           \/ sanitizeVirtualPath (normalizeDestinationVirtual (dest payload))
              = js "local://This PC/"))
  /\ (r = Err DestinationNotDirectory -> s' = s).
Proof.
  pose proof (sanitize_final _
                (or_introl (normalizeDestinationVirtual_final (dest payload))))
    as Hfin.
  unfold performCopyOrMove.
  destruct (sources payload) as [|x xs]; cbn [isEmpty].
  { intros [= <- <-].
    split; [split; [discriminate | intros [[] _]; reflexivity] | discriminate]. }
  unfold bind at 1, resolve. destruct s as [m w]. cbn [driveAliasMap world].
  destruct (resolveLocalVirtualPath _ m) as [[ri|e] m1] eqn:Hr.
  - destruct (resolve_entry_or_error _ _ _ _ Hr)
      as [(-> & Hs & ->)|[(-> & -> & Hs)|(f & d & b & -> & Hd)]].
    + intros [= <- <-]. split; [|reflexivity].
      split; [intros _; split; [discriminate | left; exact Hs] | reflexivity].
    + intros [= <- <-]. split; [|reflexivity].
      split; [intros _; split; [discriminate|] | reflexivity].
      destruct Hs as [Hs|Hs]; [right; exact Hs|].
      rewrite Hs in Hfin. discriminate.
    + rewrite (Hd Hfin). intros E.
      assert (r <> Err DestinationNotDirectory) as Hno.
      { intros ->.
        apply bind_error in E as [[=]|(ex & s1 & _ & H)].
        apply bind_error in H as [H|(? & s2 & _ & H)].
        - destruct (negb ex); [|discriminate].
          eapply validation_not_filesystem;
            [eapply awaitWrite_error, H | reflexivity].
        - eapply processSources_not_destination; [exact H | reflexivity]. }
      split; [|intros H; destruct (Hno H)].
      split; [intros H; destruct (Hno H)|].
      intros [_ [Hs|Hs]];
        [rewrite (resolve_root _ m Hs) in Hr
        | rewrite (resolve_drives _ m (or_introl Hs)) in Hr]; discriminate.
  - intros [= <- <-].
    assert (e <> DestinationNotDirectory) as Hno.
    { destruct (resolve_errors _ _ _ _ Hr) as [[q ->]|[[n ->]|[q ->]]];
        discriminate. }
    split; [|intros [= H]; destruct (Hno H)].
    split; [intros [= H]; destruct (Hno H)|].
    intros [_ [Hs|Hs]];
      [rewrite (resolve_root _ m Hs) in Hr
      | rewrite (resolve_drives _ m (or_introl Hs)) in Hr]; discriminate.
Qed.

End Destination.

(** X7: a copy or a move is refused for its destination exactly when there
    are sources and the destination, with its final slash added and its
    backslashes replaced, is [local://] or [local://This PC/]; nothing has
    been changed then.  The test of the directory flag of the destination
    never fires: with its final slash the destination is never classified
    as a file. *)
Theorem destination_not_directory_iff `{NP : NodePath} `{FS : NodeFs}
    (payload : CopyPayload) (s : State) :
  (fst (performCopyOrMove payload s) = Err DestinationNotDirectory
   <-> sources payload <> []
       /\ (sanitizeVirtualPath (normalizeDestinationVirtual (dest payload))
           = js "local://"
           \/ sanitizeVirtualPath (normalizeDestinationVirtual (dest payload))
              = js "local://This PC/"))
  /\ (fst (performCopyOrMove payload s) = Err DestinationNotDirectory ->
      snd (performCopyOrMove payload s) = s).
Proof.
  apply performCopyOrMove_destination, surjective_pairing.
Qed.
(** ** The entries of a listing *)

Lemma In_filterNulls {A : Type} (l : list (option A)) (a : A) :
  In a (filterNulls l) <-> In (Some a) l.
Proof.
  induction l as [|[b|] l IH]; cbn [filterNulls In].
  - tauto.
  - rewrite IH. split; (intros [H|H]; [left; congruence | right; exact H]).
  - rewrite IH. split; [auto | intros [[=]|H]; exact H].
Qed.

Lemma isFolder_folder (t : FileType) : isFolder t = true <-> t = T_folder.
Proof.
  destruct t; cbn; split; congruence.
Qed.

Lemma resolve_sanitized `{NP : NodePath} (p q : jsstring)
    (m m' : gmap jsstring jsstring) r :
  sanitizeVirtualPath p = sanitizeVirtualPath q ->
  resolveLocalVirtualPath q m = (Ok r, m') ->
  resolveLocalVirtualPath p m = (Ok r, m').
Proof.
  intros H. unfold resolveLocalVirtualPath. rewrite H.
  repeat case_match; congruence.
Qed.

Lemma special_folder_slash `{NP : NodePath} (folder : SpecialFolder) :
  In folder specialFolders ->
  normalizeVirtualFolder (virtual folder) = virtual folder
  /\ virtual folder <> js "local://This PC/"
  /\ (exists x, isSegment x /\ virtual folder = js "local://" ++ x ++ [SLASH]).
Proof.
  intros H. unfold specialFolders in H. cbn [In] in H.
  repeat (destruct H as [<-|H];
          [split; [reflexivity|]; split; [cbv; discriminate|];
           cbn [virtual];
           match goal with
           | |- exists x, _ /\ js ?v = _ =>
               exists (sliceInit (sliceFrom 8 (js v)))
           end;
           split; [|reflexivity];
           split; [cbv; discriminate | cbv; repeat constructor; discriminate]|]).
  contradiction.
Qed.

Section ListingFacts.
Context `{NP : NodePath} `{FS : NodeFs}.

(** Each entry of [readDirectory] comes from a child whose [stat] resolved. *)
Lemma readDirectory_In (fsPath virtualBase : jsstring) (s s' : State)
    (entries : list FileEntry) (e : FileEntry) :
  readDirectory fsPath virtualBase s = (Ok entries, s') -> In e entries ->
  s' = s
  /\ exists dirEntries d stats,
       fs_readdir fsPath (world s) = inr dirEntries /\ In d dirEntries
       /\ fs_stat (path_join fsPath [d_name d]) (world s) = inr stats
       /\ let virtualPath :=
            normalizeVirtualFolder virtualBase ++ d_name d
            ++ (if d_isDirectory d then [SLASH] else []) in
          e = {| fe_id := createIdForPath virtualPath;
                 fe_name := d_name d;
                 fe_type := inferFileType (d_name d) (d_isDirectory d);
                 fe_size := if d_isDirectory d then None
                            else Some (st_size stats);
                 fe_modified := st_mtime stats;
                 fe_path := virtualPath;
                 fe_service := js "local" |}.
Proof.
  rewrite readDirectory_unfold. intros [= <- <-] Hin. split; [reflexivity|].
  destruct (fs_readdir fsPath (world s)) as [ne|ds]; [contradiction|].
  apply (Permutation_in _ (sortWith_perm compareEntries _)) in Hin.
  apply In_filterNulls, in_map_iff in Hin as (d & Hd & Hin).
  unfold entryOfDirent in Hd.
  destruct (fs_stat (path_join fsPath [d_name d]) (world s)) as [ne|stats] eqn:Es;
    [discriminate|].
  injection Hd as <-. exists ds, d, stats. auto.
Qed.

Lemma listSpecialFolders_In (folders : list SpecialFolder) (w : World)
    (e : FileEntry) :
  In e (listSpecialFolders folders w) ->
  exists folder,
    In folder folders /\ fs_access (fsPath folder) w = true
    /\ e = folderEntry (createIdForPath (virtual folder)) (label folder)
             (date_now w) (normalizeVirtualFolder (virtual folder)).
Proof.
  induction folders as [|folder rest IH]; cbn [listSpecialFolders In];
    [contradiction|].
  destruct (fs_access (fsPath folder) w) eqn:Ea.
  - intros [<-|H].
    + exists folder. auto.
    + destruct (IH H) as (f & Hf & Hr). exists f. auto.
  - intros H. destruct (IH H) as (f & Hf & Hr). exists f. auto.
Qed.

Lemma listDriveRoots_In (s s' : State) (entries : list FileEntry)
    (e : FileEntry) :
  listDriveRoots s = (Ok entries, s') -> In e entries ->
  exists drive,
    In drive (probeDrives letterCodes [systemDrive] (world s))
    /\ e = folderEntry
             (createIdForPath
                (js "local://This PC/" ++ driveDisplayName drive ++ [SLASH]))
             (driveDisplayName drive) (date_now (world s))
             (js "local://This PC/" ++ driveDisplayName drive ++ [SLASH]).
Proof.
  unfold listDriveRoots. cbv zeta.
  generalize (probeDrives letterCodes [systemDrive] (world s)).
  intros drives [= <- <-] Hin.
  apply (Permutation_in _ (sortWith_perm _ _)) in Hin.
  apply in_map_iff in Hin as (d & <- & Hd). exists d. auto.
Qed.

(** What every entry of a listing satisfies. *)
Lemma handleListDirectory_entries (p : jsstring) (s s' : State)
    (entries : list FileEntry) :
  handleListDirectory p s = (Ok entries, s') ->
  Forall (fun e => fe_id e = createIdForPath (fe_path e)
                   /\ fe_service e = js "local"
                   /\ (fe_size e = None <-> fe_type e = T_folder)) entries.
Proof.
  unfold handleListDirectory, bind at 1.
  destruct (resolve p s) as [[[| |f d b]|e0] s1]; [| | |discriminate].
  - unfold listSpecialDirectories, readFs.
    pose proof (listSpecialFolders_In specialFolders (world s1)) as Hl.
    revert Hl. generalize (listSpecialFolders specialFolders (world s1)).
    intros l Hl [= <- <-]. apply Forall_app. split.
    + apply Forall_forall. intros e He%list_elem_of_In.
      destruct (Hl e He) as (folder & Hf & _ & ->).
      destruct (special_folder_slash folder Hf) as (-> & _).
      unfold folderEntry; cbn [fe_id fe_path fe_service fe_size fe_type]. tauto.
    + repeat constructor; unfold folderEntry; cbn [fe_id fe_path fe_service fe_size fe_type]; tauto.
  - intros H. apply Forall_forall. intros e He%list_elem_of_In.
    destruct (listDriveRoots_In _ _ _ _ H He) as (drive & _ & ->).
    unfold folderEntry; cbn [fe_id fe_path fe_service fe_size fe_type]. tauto.
  - destruct d; cbn [negb]; [|discriminate].
    intros H. apply Forall_forall. intros e He%list_elem_of_In.
    destruct (readDirectory_In _ _ _ _ _ _ H He)
      as (_ & ds & dr & stats & _ & _ & _ & ->).
    cbn [fe_id fe_path fe_service fe_size fe_type].
    split; [reflexivity|]. split; [reflexivity|].
    rewrite <- isFolder_folder, inferFileType_folder.
    destruct (d_isDirectory dr); split; congruence.
Qed.

End ListingFacts.


